(** * BalderJS: hit-testing, sprite timing, cell redraw, output check, dev server

    A shallow embedding of the parts of [src/balder.ts] and [server.js]
    that carry behaviour of their own, followed by the properties proved
    about them.

    Conventions of the embedding.
    - A JavaScript [number] is an exact rational ([Q]) where a property
      is proved for all numbers.  Rounding, NaN, the infinities and the
      sign of zero are outside these definitions, and a quotient is only
      relied upon where its divisor is not zero.
    - Where rounding or an infinity decides what the code does, the same
      code is given again over binary64 numbers, in a module whose name
      ends in [64] ([Grid64], [Sprite64], [Util64]), and is evaluated
      there.
    - Counts and array indices that the source keeps non-negative are
      [nat]; an index that the source computes and that may be negative
      is a [Z] and is looked up with [lookupZ].
    - A JavaScript string is the list of its code units.
    - Module-level variables that the source mutates ([deltaTime], the
      pointer state, the 2D context) are passed explicitly. *)

From Stdlib Require Import PrimFloat.
From Stdlib Require FloatOps SpecFloat Uint63.
From Stdlib Require Import QArith Qround Lqa ZArith Lia Ascii String.
From stdpp Require Import base option list strings gmap.

#[local] Open Scope Q_scope.
#[local] Set Warnings "-inexact-float".

(** ** Numbers *)

Module Num.

Definition number := Q.

(** [a < b], [a > b], [a <= b], [a >= b] as the source evaluates them. *)
Definition lt (a b : number) : bool := negb (Qle_bool b a).
Definition gt (a b : number) : bool := lt b a.
Definition le (a b : number) : bool := Qle_bool a b.
Definition ge (a b : number) : bool := le b a.

(** [Math.floor], [Math.min], [Math.max]. *)
Definition floor (a : number) : Z := Qfloor a.
Definition min (a b : number) : number := if lt b a then b else a.
Definition max (a b : number) : number := if lt a b then b else a.

(** A count used as a number. *)
Definition of_nat (n : nat) : number := inject_Z (Z.of_nat n).

End Num.

(** [a[i]] for an index that may be negative: [undefined] below zero and
    past the end. *)
Definition lookupZ {A} (l : list A) (i : Z) : option A :=
  if (i <? 0)%Z then None else l !! Z.to_nat i.

(** Truthiness of a [string | null] value: [null] and the empty string
    are falsy. *)
Definition truthy (o : option string) : bool :=
  match o with
  | Some s => negb (String.eqb s "")
  | None => false
  end.

(** ** Hitbox *)

Module Hitbox.

Record t := mk { x : Q; y : Q; width : Q; height : Q }.

Definition intersects (this other : t) : bool :=
  Num.gt (x this + width this) (x other) &&
  Num.lt (x this) (x other + width other) &&
  Num.gt (y this + height this) (y other) &&
  Num.lt (y this) (y other + height other).

Definition contains (this : t) (px py : Q) : bool :=
  Num.gt (x this + width this) px &&
  Num.le (x this) px &&
  Num.gt (y this + height this) py &&
  Num.le (y this) py.

End Hitbox.

(** ** The 2D context

    The drawing calls of the library forward to the browser's 2D context.
    The context is modelled by its drawing state and by the colour of each
    point of the canvas ([None] is a cleared, transparent point).  A
    rectangle given with a negative width or height extends to the left of
    or above its origin, and one with a zero side is empty, as in the
    canvas API.  What the browser inks for a text or a stroked outline is
    a parameter ([Platform]). *)

Module Canvas.

Definition color := string.
Definition pixels := Q -> Q -> option color.

Record HTMLImageElement := mkImage {
  img_width : Q;
  img_height : Q;
  img_pixel : Q -> Q -> option color
}.

Record Platform := mkPlatform {
  (* [ctx.measureText(t).width] under a font of the given size *)
  measure_width : Q -> string -> Q;
  (* [ctx.measureText(t).actualBoundingBoxAscent] *)
  measure_ascent : Q -> string -> Q;
  (* the points inked by [fillText(t, 0, 0)] under that font *)
  text_ink : Q -> string -> Q -> Q -> bool;
  (* the points inked by [strokeRect(x, y, w, h)] under a line width *)
  stroke_ink : Q -> Q -> Q -> Q -> Q -> Q -> Q -> bool
}.

Record ctx := mkCtx {
  fillStyle : color;
  strokeStyle : color;
  lineWidth : Q;
  font : Q;
  canvas : pixels
}.

Definition between (a b p : Q) : bool :=
  Num.le (Num.min a b) p && Num.lt p (Num.max a b).

Definition in_rect (x y w h px py : Q) : bool :=
  between x (x + w) px && between y (y + h) py.

Definition paint (f : pixels -> pixels) (c : ctx) : ctx :=
  mkCtx (fillStyle c) (strokeStyle c) (lineWidth c) (font c) (f (canvas c)).

Definition clearRect (x y w h : Q) : ctx -> ctx :=
  paint (fun old px py => if in_rect x y w h px py then None else old px py).

Definition fillRect (x y w h : Q) (c : ctx) : ctx :=
  paint (fun old px py =>
           if in_rect x y w h px py then Some (fillStyle c) else old px py) c.

Definition strokeRect (P : Platform) (x y w h : Q) (c : ctx) : ctx :=
  paint (fun old px py =>
           if stroke_ink P (lineWidth c) x y w h px py
           then Some (strokeStyle c) else old px py) c.

(** [ctx.drawImage(image, dx, dy, dw, dh)]: the image scaled into the
    destination rectangle; its transparent points leave the canvas as
    it was. *)
Definition drawImage (image : HTMLImageElement) (dx dy dw dh : Q) : ctx -> ctx :=
  paint (fun old px py =>
           if in_rect dx dy dw dh px py then
             match img_pixel image ((px - dx) / dw * img_width image)
                                   ((py - dy) / dh * img_height image) with
             | Some col => Some col
             | None => old px py
             end
           else old px py).

Definition fillText (P : Platform) (t : string) (x y : Q) (c : ctx) : ctx :=
  paint (fun old px py =>
           if text_ink P (font c) t (px - x) (py - y)
           then Some (fillStyle c) else old px py) c.

Definition set_fillStyle (v : color) (c : ctx) : ctx :=
  mkCtx v (strokeStyle c) (lineWidth c) (font c) (canvas c).
Definition set_strokeStyle (v : color) (c : ctx) : ctx :=
  mkCtx (fillStyle c) v (lineWidth c) (font c) (canvas c).
Definition set_lineWidth (v : Q) (c : ctx) : ctx :=
  mkCtx (fillStyle c) (strokeStyle c) v (font c) (canvas c).
Definition set_font (v : Q) (c : ctx) : ctx :=
  mkCtx (fillStyle c) (strokeStyle c) (lineWidth c) v (canvas c).

(** [clear(x, y, width, height)] *)
Definition clear (x y w h : Q) (c : ctx) : ctx := clearRect x y w h c.

(** [rectangle(x, y, width, height, color, lineWidth?)] *)
Definition rectangle (P : Platform) (x y w h : Q) (col : color)
    (lw : option Q) (c : ctx) : ctx :=
  match lw with
  | Some l => strokeRect P x y w h (set_strokeStyle col (set_lineWidth l c))
  | None => fillRect x y w h (set_fillStyle col c)
  end.

(** A platform to compute examples with: every character inks a full box,
    3/5 of the font size wide and 7/10 of it high above the baseline, and
    a stroked outline is not drawn. *)
Definition boxes : Platform :=
  mkPlatform
    (fun size t => (3 # 5) * size * Num.of_nat (String.length t))
    (fun size _ => (7 # 10) * size)
    (fun size t dx dy =>
       Num.le 0 dx && Num.lt dx ((3 # 5) * size * Num.of_nat (String.length t)) &&
       Num.le (- ((7 # 10) * size)) dy && Num.lt dy 0)
    (fun _ _ _ _ _ _ _ => false).

(** A fresh context over a cleared canvas. *)
Definition blank : ctx := mkCtx "#000000" "#000000" 1 10 (fun _ _ => None).

Inductive halign := Left | Center | Right.
Inductive valign := Top | Middle | Bottom.

(** The [x] and [y] arguments of [text]: a number, or a number with an
    alignment. *)
Inductive xarg := X (x : Q) | XAligned (x : Q) (a : halign).
Inductive yarg := Y (y : Q) | YAligned (y : Q) (a : valign).

(** [text(value, x, y, fontSize, color)] for a string [value]. *)
Definition text (P : Platform) (value : string) (x : xarg) (y : yarg)
    (fontSize : Q) (col : color) (c : ctx) : ctx :=
  let c := set_font fontSize c in
  let x :=
    match x with
    | X x => x
    | XAligned x0 a =>
        let w := measure_width P (font c) value in
        match a with
        | Left => x0
        | Center => x0 - w / 2
        | Right => x0 - w
        end
    end in
  let y :=
    match y with
    | Y y => y
    | YAligned y0 a =>
        let h := measure_ascent P (font c) value in
        match a with
        | Top => y0 + h
        | Middle => y0 + h / 2
        | Bottom => y0
        end
    end in
  fillText P value x y (set_fillStyle col c).

End Canvas.

(** ** Cell *)

Module Cell.

Import Canvas.

(** What a custom draw callback reads of the cell it is handed: the
    read-only position and pixel rectangle. *)
Record view := mkView {
  v_row : nat; v_column : nat;
  v_x : Q; v_y : Q; v_width : Q; v_height : Q
}.

Record t := mk {
  row : nat;
  column : nat;
  x : Q;
  y : Q;
  width : Q;
  height : Q;
  _color : option string;
  _image : option HTMLImageElement;
  _text : option string;
  _custom : option (view -> ctx -> ctx);
  fontSize : Q;
  textColor : string
}.

(** [new Cell(row, column, x, y, width, height, textColor)] *)
Definition new (row column : nat) (x y width height : Q) (textColor : string) : t :=
  mk row column x y width height None None None None
     (Num.min height width) textColor.

Definition view_of (this : t) : view :=
  mkView (row this) (column this) (x this) (y this) (width this) (height this).

Definition draw (P : Platform) (this : t) (c : ctx) : ctx :=
  let c := clear (x this) (y this) (width this) (height this) c in
  let c :=
    if truthy (_color this) then
      rectangle P (x this + 0.5) (y this + 0.5) (width this - 1) (height this - 1)
                (default "" (_color this)) None c
    else c in
  let c :=
    match _image this with
    | Some img => drawImage img (x this) (y this) (width this) (height this) c
    | None => c
    end in
  let c :=
    if truthy (_text this) then
      text P (default "" (_text this))
           (XAligned (x this + width this / 2) Center)
           (YAligned (y this + height this / 2) Middle)
           (fontSize this) (textColor this) c
    else c in
  match _custom this with
  | Some f => f (view_of this) c
  | None => c
  end.

(** The setters: store the value, then redraw. *)

Definition set_color (P : Platform) (value : option string) (this : t) (c : ctx)
    : t * ctx :=
  let this := mk (row this) (column this) (x this) (y this) (width this)
                 (height this) value (_image this) (_text this) (_custom this)
                 (fontSize this) (textColor this) in
  (this, draw P this c).


(** The value given to the [text] setter: [null], a string, or a tuple
    of a string with an optional font size and colour. *)
Inductive text_value :=
| TextNull
| TextString (s : string)
| TextTuple (s : string) (fontSize : option Q) (color : option string).

Definition set_text (P : Platform) (value : text_value) (this : t) (c : ctx)
    : t * ctx :=
  let '(txt, fs, tc) :=
    match value with
    | TextNull => (None, fontSize this, textColor this)
    | TextString s => (Some s, fontSize this, textColor this)
    | TextTuple s f col =>
        (Some s, default (fontSize this) f, default (textColor this) col)
    end in
  let this := mk (row this) (column this) (x this) (y this) (width this)
                 (height this) (_color this) (_image this) txt (_custom this)
                 fs tc in
  (this, draw P this c).


(** The cell's own pixel rectangle. *)
Definition in_bounds (this : t) (px py : Q) : Prop :=
  x this <= px /\ px < x this + width this /\
  y this <= py /\ py < y this + height this.



End Cell.

(** ** Pointer state

    What the [mouse] and [touchscreen] objects hold when a getter reads
    them. *)

Module Input.

Record touch := mkTouch { t_x : Q; t_y : Q; identifier : Z }.

Record t := mk {
  _touchable : bool;
  _touches : list touch;
  _buttons : list (option bool);
  _mouseX : Q;
  _mouseY : Q
}.

(** [touchscreen.touched], [touchscreen.x], [touchscreen.y] *)
Definition touched (i : t) : bool :=
  _touchable i && (0 <? length (_touches i))%nat.
Definition touch_x (i : t) : Q :=
  match _touches i with tc :: _ => t_x tc | [] => -1 end.
Definition touch_y (i : t) : Q :=
  match _touches i with tc :: _ => t_y tc | [] => -1 end.

(** [mouse.buttons.some(value => value)] *)
Definition some_button (i : t) : bool :=
  existsb (fun v => match v with Some true => true | _ => false end) (_buttons i).

(** The condition both [activated] getters test first. *)
Definition down (i : t) : bool := touched i || some_button i.

(** The point the getters hit-test. *)
Definition point_x (i : t) : Q := if touched i then touch_x i else _mouseX i.
Definition point_y (i : t) : Q := if touched i then touch_y i else _mouseY i.

End Input.

(** ** Grid

    With exact numbers: the cell sizes, the corners of the cells and the
    quotients of [cellFromPoint] are not rounded.  [Grid64] has them as
    the doubles that the code computes. *)

Module Grid.

Import Canvas.

Record t := mk {
  rows : nat;
  columns : nat;
  x : Q;
  y : Q;
  width : Q;
  height : Q;
  color : string;
  activatable : bool;
  _activeCell : option Cell.t;
  cells : list (list Cell.t);
  cellWidth : Q;
  cellHeight : Q
}.

Definition make_cells (rows columns : nat) (x y cellWidth cellHeight : Q)
    (color : string) : list (list Cell.t) :=
  map (fun i =>
         map (fun j =>
                Cell.new i j
                  (x + Num.of_nat j * (cellWidth + 1) + 1)
                  (y + Num.of_nat i * (cellHeight + 1) + 1)
                  cellWidth cellHeight color)
             (seq 0 columns))
      (seq 0 rows).

(** The object built by [new Grid(rows, columns, x, y, width, height,
    color)], before the constructor's closing [draw()].  Reading
    [cells[0][0]] throws when there is no row 0: [None]. *)
Definition new (rows columns : nat) (x y width height : Q) (color : string)
    : option t :=
  let cellWidth := (width - Num.of_nat columns - 1) / Num.of_nat columns in
  let cellHeight := (height - Num.of_nat rows - 1) / Num.of_nat rows in
  let cells := make_cells rows columns x y cellWidth cellHeight color in
  match cells !! 0%nat with
  | None => None
  | Some row0 =>
      Some (mk rows columns x y width height color true (row0 !! 0%nat)
               cells cellWidth cellHeight)
  end.

(** [cell(row, column)] *)
Definition cell (this : t) (row column : nat) : option Cell.t :=
  cells this !! row ≫= (fun r => r !! column).

Definition draw (P : Platform) (this : t) (c : ctx) : ctx :=
  let c :=
    if negb (String.eqb (color this) "") then
      rectangle P (x this) (y this) (width this) (height this) (color this) None c
    else c in
  foldl (fun c row => foldl (fun c cl => Cell.draw P cl c) c row) c (cells this).

(** The whole constructor: the object and the canvas after [draw()]. *)
Definition construct (P : Platform) (rows columns : nat) (x y width height : Q)
    (color : string) (c : ctx) : option (t * ctx) :=
  match new rows columns x y width height color with
  | Some g => Some (g, draw P g c)
  | None => None
  end.

Definition cellFromPoint (this : t) (px py : Q) : option Cell.t :=
  let column := Num.floor ((px - x this) / (cellWidth this + 1)) in
  let row := Num.floor ((py - y this) / (cellHeight this + 1)) in
  lookupZ (cells this) row ≫= (fun r => lookupZ r column).

Definition set_activatable (v : bool) (this : t) : t :=
  mk (rows this) (columns this) (x this) (y this) (width this) (height this)
     (color this) v (_activeCell this) (cells this) (cellWidth this)
     (cellHeight this).

Definition set_activeCell (v : Cell.t) (this : t) : t :=
  mk (rows this) (columns this) (x this) (y this) (width this) (height this)
     (color this) (activatable this) (Some v) (cells this) (cellWidth this)
     (cellHeight this).

(** The [activated] getter: its value and the grid it leaves. *)
Definition activated (i : Input.t) (this : t) : bool * t :=
  if Input.down i then
    if activatable this then
      let this := set_activatable false this in
      match cellFromPoint this (Input.point_x i) (Input.point_y i) with
      | Some cl => (true, set_activeCell cl this)
      | None => (false, this)
      end
    else (false, this)
  else (false, set_activatable true this).

(** The rectangle the grid occupies. *)
Definition in_bounds (this : t) (px py : Q) : Prop :=
  x this <= px /\ px < x this + width this /\
  y this <= py /\ py < y this + height this.

End Grid.

(** ** Button *)

Module Button.

Import Canvas.

Record t := mk {
  text : string;
  hb : Hitbox.t;
  activatable : bool;
  color : string;
  fontSize : Q;
  textColor : string
}.

(** [new Button(text, x, y, width?, height?, color, fontSize, textColor)]
    before its closing [draw()]. *)
Definition new (text : string) (x y : Q) (width height : option Q)
    (color : string) (fontSize : Q) (textColor : string) : t :=
  let width := default (Num.of_nat (String.length text) * fontSize) width in
  let height := default (fontSize * 2) height in
  mk text (Hitbox.mk x y width height) true color fontSize textColor.

Definition draw (P : Platform) (this : t) (c : ctx) : ctx :=
  let h := hb this in
  let c := rectangle P (Hitbox.x h) (Hitbox.y h) (Hitbox.width h)
                     (Hitbox.height h) (color this) None c in
  Canvas.text P (text this)
    (XAligned (Hitbox.x h + Hitbox.width h / 2) Center)
    (YAligned (Hitbox.y h + Hitbox.height h / 2) Middle)
    (fontSize this) (textColor this) c.

Definition construct (P : Platform) (text : string) (x y : Q)
    (width height : option Q) (color : string) (fontSize : Q)
    (textColor : string) (c : ctx) : t * ctx :=
  let b := new text x y width height color fontSize textColor in
  (b, draw P b c).

Definition set_activatable (v : bool) (this : t) : t :=
  mk (text this) (hb this) v (color this) (fontSize this) (textColor this).

Definition activated (i : Input.t) (this : t) : bool * t :=
  if Input.down i then
    if activatable this then
      let this := set_activatable false this in
      (Hitbox.contains (hb this) (Input.point_x i) (Input.point_y i), this)
    else (false, this)
  else (false, set_activatable true this).

End Button.

(** Successive reads of an [activated] getter, one per pointer state:
    the values read and the object left. *)
Fixpoint reads {A} (get : Input.t -> A -> bool * A) (ins : list Input.t) (a : A)
    : list bool * A :=
  match ins with
  | [] => ([], a)
  | i :: ins =>
      let '(b, a) := get i a in
      let '(bs, a) := reads get ins a in
      (b :: bs, a)
  end.

(** ** Sprite

    The fields that drive the animation.  The fields that only serve the
    painting (the sprite sheet, the frame size and the source offsets of
    the frames) and the painting itself are left out: [draw()] reads the
    fields below and writes none of them. *)

Module Sprite.

Record t := mk {
  hb : Hitbox.t;
  index : nat;
  remainingTime : Q;
  _frames : list Z;
  _finished : bool;
  _framesPerSecond : Q;
  loop : bool
}.

Definition set_index (v : nat) (this : t) : t :=
  mk (hb this) v (remainingTime this) (_frames this) (_finished this)
     (_framesPerSecond this) (loop this).
Definition set_remainingTime (v : Q) (this : t) : t :=
  mk (hb this) (index this) v (_frames this) (_finished this)
     (_framesPerSecond this) (loop this).
Definition set_finished (v : bool) (this : t) : t :=
  mk (hb this) (index this) (remainingTime this) (_frames this) v
     (_framesPerSecond this) (loop this).
Definition set_loop (v : bool) (this : t) : t :=
  mk (hb this) (index this) (remainingTime this) (_frames this)
     (_finished this) (_framesPerSecond this) v.

(** [set framesPerSecond(value)], for a rate other than zero.  At the
    rate zero the budget [1000 / value] is infinite, which is no exact
    number: [Sprite64] has that case. *)
Definition set_framesPerSecond (value : Q) (this : t) : t :=
  mk (hb this) (index this) (1000 / value) (_frames this) (_finished this)
     value (loop this).

(** [new Sprite(spritesheet, rows, columns)] *)
Definition new (spritesheet : Canvas.HTMLImageElement) (rows columns : nat) : t :=
  let this := mk (Hitbox.mk 0 0 0 0) 0 0
                 (map Z.of_nat (seq 0 (rows * columns))) false 0 true in
  let this := set_framesPerSecond 12 this in
  mk (Hitbox.mk 0 0 (Canvas.img_width spritesheet / Num.of_nat columns)
                    (Canvas.img_height spritesheet / Num.of_nat rows))
     (index this) (remainingTime this) (_frames this) (_finished this)
     (_framesPerSecond this) (loop this).

(** The test of the [frames] setter:
    [value.length != this._frames.length ||
     value.some((v, i) => v != this._frames[i])]. *)
Definition changed (value frames : list Z) : bool :=
  negb (length value =? length frames)%nat ||
  existsb (fun iv : nat * Z => negb (bool_decide (frames !! iv.1 = Some iv.2)))
          (imap (fun i v => (i, v)) value).

(** [set frames(value)] *)
Definition set_frames (value : list Z) (this : t) : t :=
  let this := if changed value (_frames this) then set_index 0 this else this in
  mk (hb this) (index this) (remainingTime this) value (_finished this)
     (_framesPerSecond this) (loop this).

(** [update()], under the current [deltaTime]. *)
Definition update (deltaTime : Q) (this : t) : t :=
  let this := set_remainingTime (remainingTime this - deltaTime) this in
  if Num.lt (remainingTime this) 0 then
    let this :=
      if Num.ge (Num.of_nat (index this))
                (Num.of_nat (length (_frames this)) - 1) then
        if loop this then set_index 0 this else set_finished true this
      else set_index (S (index this)) this in
    set_remainingTime (remainingTime this + 1000 / _framesPerSecond this) this
  else this.

(** Whether [update()] under [deltaTime] takes the branch of a used-up
    budget. *)
Definition fires (deltaTime : Q) (this : t) : bool :=
  Num.lt (remainingTime this - deltaTime) 0.

(** The sprite after [n] calls of [update()], the [k]-th under the
    elapsed time [dt k]. *)
Fixpoint after (dt : nat -> Q) (this : t) (n : nat) : t :=
  match n with
  | O => this
  | S n => update (dt n) (after dt this n)
  end.

(** The time elapsed over the first [n] calls. *)
Fixpoint elapsed (dt : nat -> Q) (n : nat) : Q :=
  match n with
  | O => 0
  | S n => elapsed dt n + dt n
  end.

(** The elapsed times 1, 1/2, 1/4, ... ms, each half of the one before. *)
Fixpoint halving (n : nat) : Q :=
  match n with
  | O => 1
  | S n => halving n / 2
  end.

End Sprite.

(** ** The check of the text output against the [o] parameter *)

Module IO.

Definition jsstring := list ascii.

(** The elements the listener appends to the I/O panel.  A paragraph is
    given with the markup assigned to its [innerHTML], of which the
    browser makes its content. *)
Inductive element :=
| Hr
| Para (innerHTML : jsstring).

(** How the listener ends: it returns, or [decodeURIComponent] throws
    [URIError] and the listener with it; either way with the elements
    appended to the panel until then. *)
Inductive outcome :=
| Returns (appended : list element)
| Throws (appended : list element).

(** The double quote of the markup. *)
Definition quote : ascii := ascii_of_nat 34.

(** The template literals [<span class="correct">${s}</span>] and
    [<span class="incorrect">${s}</span>]: [s] is interpolated as it
    is. *)
Definition span (class s : jsstring) : jsstring :=
  list_ascii_of_string "<span class=" ++ [quote] ++ class ++ [quote] ++
  list_ascii_of_string ">" ++ s ++ list_ascii_of_string "</span>".

Definition correct : jsstring := list_ascii_of_string "correct".
Definition incorrect : jsstring := list_ascii_of_string "incorrect".

(** The loop [while (output[offset] == oValue[offset]) offset++], run
    for at most [fuel] tests; [None] when the fuel is used up. *)
Fixpoint scan (fuel : nat) (output oValue : jsstring) (offset : nat) : option nat :=
  match fuel with
  | O => None
  | S fuel =>
      if bool_decide (output !! offset = oValue !! offset)
      then scan fuel output oValue (S offset)
      else Some offset
  end.

(** The [load] listener.  [output] is the text of the output element
    with trailing white space removed; [oParam] is [_params.get("o")],
    [None] when the URL has no [o] parameter.  [decodeURIComponent] is
    the function of the browser, [None] where it throws [URIError];
    [reread m] is what [innerHTML] reads back from a paragraph whose
    [innerHTML] was assigned [m], which [+=] extends.  The paragraph
    [correctElt] is new when [+=] extends its [innerHTML], which is then
    empty.  [" ".repeat(Math.max(0, a - b))] on lengths is a truncated
    subtraction. *)
Definition on_load (fuel : nat)
    (decodeURIComponent : jsstring -> option jsstring)
    (reread : jsstring -> jsstring)
    (output : jsstring) (oParam : option jsstring) : option outcome :=
  match oParam with
  | None => Some (Returns [])
  | Some oParam =>
      match decodeURIComponent oParam with
      | None => Some (Throws [Hr; Para []])
      | Some oValue =>
          if bool_decide (output = oValue) then
            Some (Returns [Hr; Para (span correct output)])
          else
            match scan fuel output oValue 0 with
            | None => None
            | Some offset =>
                let respElt := span correct (take offset output) in
                let respElt :=
                  reread respElt ++
                  span incorrect
                    (drop offset output ++
                     replicate (length oValue - length output) " "%char) in
                let correctElt := [] ++ span correct oParam in
                Some (Returns [Hr; Para respElt; Para correctElt])
            end
      end
  end.

(** [p] is the longest common prefix of [s] and [t]. *)
Definition longest_common_prefix (p s t : jsstring) : Prop :=
  p `prefix_of` s /\ p `prefix_of` t /\
  forall q, q `prefix_of` s -> q `prefix_of` t -> q `prefix_of` p.

End IO.

(** ** The development server

    [server.js] exists in two editions that differ in the directory used in
    development, in the arguments of [console.error] and in the wording of
    the rebuild message.  The calls that reach the outside are recorded as
    a trace; the outcome of the [n]-th call of [esbuild.build] is given by
    an oracle ([None]: fulfilled, [Some err]: rejected with [err]).  A
    build started from the watcher is run to its end before the next file
    event is handled. *)

Module Server.

Record edition := mkEdition {
  dev_dir : string;
  error_label : option string;
  rebuild_word : string
}.

(** [src/server.js] and the second edition. *)
Definition first_edition : edition :=
  mkEdition "default" (Some "Build failed:") " changed".
Definition second_edition : edition :=
  mkEdition "src" None "".

Record config := mkConfig {
  ed : edition;
  isDev : bool;
  projectRoot : string
}.

Inductive effect :=
| EsbuildBuild (entryPoint outfile : string) (bundle : bool)
| ConsoleLog (msg : string)
| ConsoleError (args : list string)
| BrowserSyncReload.

Record state := mkState {
  builds : nat;             (* calls of [esbuild.build] so far *)
  trace : list effect       (* effects so far, oldest first *)
}.

Inductive result (A : Type) :=
| Returns (a : A)
| Throws (err : string).
Arguments Returns {A} a.
Arguments Throws {A} err.

Definition M (A : Type) : Type := state -> result A * state.

Definition ret {A} (a : A) : M A := fun s => (Returns a, s).

Definition bind {A B} (m : M A) (k : A -> M B) : M B :=
  fun s =>
    match m s with
    | (Returns a, s) => k a s
    | (Throws e, s) => (Throws e, s)
    end.

Definition try_catch {A} (body : M A) (handler : string -> M A) : M A :=
  fun s =>
    match body s with
    | (Returns a, s) => (Returns a, s)
    | (Throws e, s) => handler e s
    end.

Definition emit (e : effect) : M unit :=
  fun s => (Returns tt, mkState (builds s) (trace s ++ [e])).

Declare Scope server_scope.
Delimit Scope server_scope with server.
Bind Scope server_scope with M.
Notation "m1 ;; m2" := (bind m1 (fun _ => m2))
  (at level 100, m2 at level 200, right associativity) : server_scope.
#[local] Open Scope server_scope.

(** [path.join]: empty segments are dropped. *)
Definition path_join (segments : list string) : string :=
  String.concat "/" (filter (fun s => s <> ""%string) segments).

Definition entryDir (c : config) : string :=
  if isDev c then dev_dir (ed c) else "".
Definition outDir (c : config) : string := path_join [projectRoot c; ".dev"].

(** [await esbuild.build({entryPoints: [entry], outfile, bundle, ...})] *)
Definition esbuild_build (oracle : nat -> option string)
    (entry outfile : string) (bundle : bool) : M unit :=
  fun s =>
    let s' := mkState (S (builds s))
                      (trace s ++ [EsbuildBuild entry outfile bundle]) in
    match oracle (builds s) with
    | None => (Returns tt, s')
    | Some err => (Throws err, s')
    end.

(** The two builds of [buildOnce]. *)
Definition build_bundle (c : config) : effect :=
  EsbuildBuild (path_join [projectRoot c; entryDir c; "app.ts"])
               (path_join [outDir c; "bundle.js"]) true.
Definition build_balder (c : config) : effect :=
  EsbuildBuild (path_join [projectRoot c; entryDir c; "balder.ts"])
               (path_join [outDir c; "balder.js"]) false.

(** The arguments of [console.error] in the [catch] clause. *)
Definition error_args (c : config) (err : string) : list string :=
  match error_label (ed c) with
  | Some l => [l; err]
  | None => [err]
  end.

Definition buildOnce (c : config) (oracle : nat -> option string) : M unit :=
  try_catch
    (esbuild_build oracle (path_join [projectRoot c; entryDir c; "app.ts"])
                   (path_join [outDir c; "bundle.js"]) true ;;
     esbuild_build oracle (path_join [projectRoot c; entryDir c; "balder.ts"])
                   (path_join [outDir c; "balder.js"]) false ;;
     emit (ConsoleLog "Built → bundle.js + balder.js") ;;
     emit BrowserSyncReload)
    (fun err => emit (ConsoleError (error_args c err))).

(** A file event of the watcher: its kind and the path changed. *)
Record fs_event := mkEvent { kind : string; pathChanged : string }.

(** The listener given to [.on("all", ...)]. *)
Definition on_all (c : config) (oracle : nat -> option string) (e : fs_event)
    : M unit :=
  emit (ConsoleLog ("File " +:+ pathChanged e +:+ rebuild_word (ed c) +:+
                    " (" +:+ kind e +:+ "). Rebuilding…")) ;;
  buildOnce c oracle.

(** The watcher handling the file events in the order they arrive. *)
Fixpoint watch (c : config) (oracle : nat -> option string)
    (events : list fs_event) : M unit :=
  match events with
  | [] => ret tt
  | e :: events => on_all c oracle e ;; watch c oracle events
  end.

(** The script: the initial build, its [then], and the watcher. *)
Definition main (c : config) (oracle : nat -> option string)
    (events : list fs_event) : M unit :=
  buildOnce c oracle ;;
  emit (ConsoleLog "Initial build complete.") ;;
  watch c oracle events.

Definition initial : state := mkState 0 [].

(** The first build of a call of [buildOnce]: the one that bundles. *)
Definition is_bundle_build (e : effect) : bool :=
  match e with EsbuildBuild _ _ true => true | _ => false end.

(** The effects a computation adds to the trace of [s]. *)
Definition added {A} (m : M A) (s : state) : list effect :=
  drop (length (trace s)) (trace (m s).2).

End Server.

(** ** Keyboard state

    [_keys] maps a key code to [true], [false] or [null]; a code that was
    never written is absent.  [_keyName] is the code of the latest key
    taken as pressed ([None] before the first one). *)

Module Keyboard.

Record t := mk {
  _keys : gmap string (option bool);
  _keyName : option string
}.

Definition initial : t := mk ∅ None.

(** The [keydown] listener: [if (_keys[code] !== false) ...]. *)
Definition keydown (code : string) (k : t) : t :=
  if decide (_keys k !! code = Some (Some false)) then k
  else mk (<[code := Some true]> (_keys k)) (Some code).

(** The key that the [switch] of the [keyup] listener releases together
    with [code]. *)
Definition partner (code : string) : option string :=
  if String.eqb code "ShiftLeft" then Some "ShiftRight"
  else if String.eqb code "ShiftRight" then Some "ShiftLeft"
  else if String.eqb code "NumpadEnter" then Some "Enter"
  else if String.eqb code "Enter" then Some "NumpadEnter"
  else None.

(** The [keyup] listener. *)
Definition keyup (code : string) (k : t) : t :=
  let keys := <[code := None]> (_keys k) in
  mk (match partner code with
      | Some p => <[p := None]> keys
      | None => keys
      end)
     (_keyName k).

(** The [blur] listener of the window: [_keys = {}]. *)
Definition blur (k : t) : t := mk ∅ (_keyName k).

(** A getter of [keyboard], [!!_keys[code]], and its setter, which takes
    [false] only. *)
Definition get (code : string) (k : t) : bool :=
  bool_decide (_keys k !! code = Some (Some true)).
Definition reset (code : string) (k : t) : t :=
  mk (<[code := Some false]> (_keys k)) (_keyName k).

(** [keyboard.pressed]:
    [Object.keys(_keys).some(value => _keys[value] === true)]. *)
Definition pressed (k : t) : bool :=
  existsb (fun kv : string * option bool => bool_decide (kv.2 = Some true))
          (map_to_list (_keys k)).

(** What happens to the keyboard state: the three listeners, and the
    program writing [false] through a setter. *)
Inductive event :=
| KeyDown (code : string)
| KeyUp (code : string)
| Blur
| Reset (code : string).

Definition step (k : t) (e : event) : t :=
  match e with
  | KeyDown c => keydown c k
  | KeyUp c => keyup c k
  | Blur => blur k
  | Reset c => reset c k
  end.

Definition run (events : list event) (k : t) : t := foldl step k events.

(** The events that release [code]: the [keyup] of the key or of its
    partner, and [blur]. *)
Definition releases (code : string) (e : event) : bool :=
  match e with
  | KeyUp c => String.eqb c code || bool_decide (partner c = Some code)
  | Blur => true
  | _ => false
  end.

End Keyboard.

(** ** Pointer events

    The listeners of the canvas that keep the pointer state read by
    [mouse] and [touchscreen].  The coordinates handed to them are already
    relative to the canvas ([clientX - rect.left]).  [mouse.over] is not
    part of the state modelled. *)

Module Pointer.

(** [a[i] = v] on an array whose missing and [null] entries are [None]:
    an index past the end extends the array. *)
Definition assign {A} (i : nat) (v : option A) (a : list (option A))
    : list (option A) :=
  if decide (i < length a)%nat then <[i := v]> a
  else a ++ replicate (i - length a) None ++ [v].

Definition set_buttons (b : list (option bool)) (i : Input.t) : Input.t :=
  Input.mk (Input._touchable i) (Input._touches i) b
           (Input._mouseX i) (Input._mouseY i).

(** [mousedown]: [if (_buttons[event.button] !== false) ...]. *)
Definition mousedown (button : nat) (i : Input.t) : Input.t :=
  if decide (mjoin (Input._buttons i !! button) = Some false) then i
  else set_buttons (assign button (Some true) (Input._buttons i)) i.

(** [mouseup]: [_buttons[event.button] = null]. *)
Definition mouseup (button : nat) (i : Input.t) : Input.t :=
  set_buttons (assign button None (Input._buttons i)) i.

Definition mousemove (x y : Q) (i : Input.t) : Input.t :=
  Input.mk (Input._touchable i) (Input._touches i) (Input._buttons i) x y.

(** [mouseout]: [_buttons = []]. *)
Definition mouseout (i : Input.t) : Input.t := set_buttons [] i.

(** [mouse.left], [mouse.right] and their setters, which take [false]. *)
Definition left (i : Input.t) : bool :=
  bool_decide (mjoin (Input._buttons i !! 0%nat) = Some true).
Definition right (i : Input.t) : bool :=
  bool_decide (mjoin (Input._buttons i !! 2%nat) = Some true).
Definition reset_left (i : Input.t) : Input.t :=
  set_buttons (assign 0 (Some false) (Input._buttons i)) i.
Definition reset_right (i : Input.t) : Input.t :=
  set_buttons (assign 2 (Some false) (Input._buttons i)) i.

(** [_touchHandler], for [touchstart], [touchend] and [touchmove]: the
    touches of the event replace the stored ones. *)
Definition touchHandler (touches : list Input.touch) (i : Input.t) : Input.t :=
  Input.mk (if bool_decide (touches = []) then true else Input._touchable i)
           touches (Input._buttons i) (Input._mouseX i) (Input._mouseY i).

(** The setter of [touchscreen.touched], which takes [false]. *)
Definition reset_touched (i : Input.t) : Input.t :=
  Input.mk false (Input._touches i) (Input._buttons i)
           (Input._mouseX i) (Input._mouseY i).

(** The pointer state when the page has loaded. *)
Definition initial : Input.t := Input.mk true [] [] (-1) (-1).

(** What happens to the pointer state: the listeners, and the program
    writing [false] through a setter. *)
Inductive event :=
| MouseDown (button : nat)
| MouseUp (button : nat)
| MouseMove (x y : Q)
| MouseOut
| Touch (touches : list Input.touch)
| ResetLeft
| ResetRight
| ResetTouched.

Definition step (i : Input.t) (e : event) : Input.t :=
  match e with
  | MouseDown b => mousedown b i
  | MouseUp b => mouseup b i
  | MouseMove x y => mousemove x y i
  | MouseOut => mouseout i
  | Touch ts => touchHandler ts i
  | ResetLeft => reset_left i
  | ResetRight => reset_right i
  | ResetTouched => reset_touched i
  end.

Definition run (events : list event) (i : Input.t) : Input.t := foldl step i events.

(** The events that release a mouse button: its [mouseup], and
    [mouseout]. *)
Definition releases_button (button : nat) (e : event) : bool :=
  match e with
  | MouseUp b => (b =? button)%nat
  | MouseOut => true
  | _ => false
  end.

(** The event that ends a touch: a touch event with no touch left. *)
Definition lifts_touch (e : event) : bool :=
  match e with
  | Touch [] => true
  | _ => false
  end.

End Pointer.

(** ** Utilities

    [Math.random()] returns a number [r] with [0 <= r < 1]; the functions
    that call it take [r] as an argument, and [shuffle], which calls it
    once per step, takes the sequence of the numbers drawn. *)

Module Util.

(** [array(length, value)] and [array(length, callback)] *)
Definition array_of {T} (length : nat) (value : T) : list T :=
  map (fun _ => value) (seq 0 length).
Definition array {T} (length : nat) (callback : nat -> T) : list T :=
  map (fun i => callback i) (seq 0 length).

(** [array2D(rows, columns, value)] and [array2D(rows, columns, callback)] *)
Definition array2D_of {T} (rows columns : nat) (value : T) : list (list T) :=
  map (fun _ => map (fun _ => value) (seq 0 columns)) (seq 0 rows).
Definition array2D {T} (rows columns : nat) (callback : nat -> nat -> T)
    : list (list T) :=
  map (fun i => map (fun j => callback i j) (seq 0 columns)) (seq 0 rows).

(** [rand(N)] *)
Definition rand (r : Q) (N : Q) : Z := Num.floor (r * N).

(** [random(min, max, step)], with [r] the value of [Math.random()] and
    the quotient and the products exact, as they are in the source for
    integers. *)
Definition random (r : Q) (min max step : Q) : Q :=
  min + inject_Z (Num.floor (r * inject_Z (Num.floor ((max - min) / step + 1)))) * step.

(** [randomItem(...items)] *)
Definition randomItem {T} (r : Q) (items : list T) : option T :=
  lookupZ items (rand r (Num.of_nat (length items))).

(** [[array[i], array[j]] = [array[j], array[i]]] for two indices of the
    array. *)
Definition swap {T} (i j : nat) (a : list T) : list T :=
  match a !! i, a !! j with
  | Some x, Some y => <[j := x]> (<[i := y]> a)
  | _, _ => a
  end.

(** The loop of [shuffle] from the index [i] down to 1, the next number
    drawn being the [k]-th. *)
Fixpoint shuffle_from {T} (rnd : nat -> Q) (k : nat) (i : nat) (a : list T)
    : list T :=
  match i with
  | O => a
  | S i' =>
      let j := Z.to_nat (rand (rnd k) (Num.of_nat (i + 1))) in
      shuffle_from rnd (S k) i' (swap i j a)
  end.

(** [shuffle(array)]: the array it leaves. *)
Definition shuffle {T} (rnd : nat -> Q) (a : list T) : list T :=
  shuffle_from rnd 0 (length a - 1) a.

End Util.

(** ** The console panel

    [_writeConsole] and [clearConsole].  The panel is the list of its
    entries, oldest first.  Each entry is a [div] with a class and a text,
    followed by a [span] that is empty or shows [" *n"].
    [_repetitionElt] is [undefined] until the first entry is made; from
    then on it is the [span] of the entry made last, which is the last
    entry of the panel unless [clearConsole] has removed it since. *)

Module Console.

Record entry := mkEntry {
  className : string;
  text : string;
  repetition : option nat     (* the [n] of [" *n"]; [None]: an empty span *)
}.

Inductive span_ref :=
| Undefined
| OfLast
| Detached.

Record t := mk {
  panel : list entry;
  _repetition : nat;
  _repetitionElt : span_ref;
  _lastValue : string * string
}.

Definition initial : t := mk [] 1 Undefined (""%string, ""%string).

Definition set_repetition (n : nat) (e : entry) : entry :=
  mkEntry (className e) (text e) (Some n).

(** [_writeConsole(className, text)].  Writing to the [span] behind an
    [undefined] reference throws: [None]. *)
Definition _writeConsole (value : string * string) (s : t) : option t :=
  if decide (value = _lastValue s) then
    match _repetitionElt s with
    | Undefined => None
    | OfLast =>
        Some (mk (alter (set_repetition (S (_repetition s)))
                        (pred (length (panel s))) (panel s))
                 (S (_repetition s)) OfLast (_lastValue s))
    | Detached =>
        Some (mk (panel s) (S (_repetition s)) Detached (_lastValue s))
    end
  else
    Some (mk (panel s ++ [mkEntry value.1 value.2 None]) 1 OfLast value).

Definition clearConsole (s : t) : t :=
  mk [] (_repetition s)
     (match _repetitionElt s with OfLast => Detached | r => r end)
     (""%string, ""%string).

Inductive call :=
| Write (className text : string)
| Clear.

Fixpoint run (calls : list call) (s : t) : option t :=
  match calls with
  | [] => Some s
  | Write c v :: calls => _writeConsole (c, v) s ≫= run calls
  | Clear :: calls => run calls (clearConsole s)
  end.

(** The number of writes an entry stands for, and the writes a panel
    stands for. *)
Definition shown (e : entry) : nat := default 1%nat (repetition e).
Definition expand (p : list entry) : list (string * string) :=
  p ≫= (fun e => replicate (shown e) (className e, text e)).

(** The values written since the last [Clear], [acc] being those written
    before the calls. *)
Fixpoint since_clear (acc : list (string * string)) (calls : list call)
    : list (string * string) :=
  match calls with
  | [] => acc
  | Write c v :: calls => since_clear (acc ++ [(c, v)]) calls
  | Clear :: calls => since_clear [] calls
  end.

(** The class and text of an entry. *)
Definition key (e : entry) : string * string := (className e, text e).

(** Neighbouring entries differ. *)
Definition distinct_neighbours (p : list entry) : Prop :=
  forall i e e', p !! i = Some e -> p !! S i = Some e' -> key e <> key e'.

(** What holds of the console after a run of calls none of which writes
    the pair of empty strings; [ws] are the values written since the
    last clearing. *)
Definition console_inv (s : t) (ws : list (string * string)) : Prop :=
  distinct_neighbours (panel s) /\
  Forall (fun e => forall n, repetition e = Some n -> (2 <= n)%nat) (panel s) /\
  expand (panel s) = ws /\
  ((panel s = [] /\ _lastValue s = (""%string, ""%string)) \/
   (exists p e, panel s = p ++ [e] /\
      _lastValue s = key e /\
      _repetitionElt s = OfLast /\
      shown e = _repetition s /\
      (1 <= _repetition s)%nat)).

End Console.

(** ** Canvas layers

    [_ctxs] maps a layer to the 2D context of its canvas, and [ctx] is the
    context of the current layer: a drawing call made through [ctx] acts
    on the entry of [_ctxs] for [_layer].  [_layer] is [undefined] until
    the first call of [setLayer].  A new canvas is cleared and its context
    has the default drawing state ([Canvas.blank]). *)

Module Layers.

Record t := mk {
  _ctxs : gmap Z Canvas.ctx;
  _layer : option Z
}.

(** [setLayer(layer)] *)
Definition setLayer (layer : Z) (s : t) : t :=
  mk (match _ctxs s !! layer with
      | Some _ => _ctxs s
      | None => <[layer := Canvas.blank]> (_ctxs s)
      end)
     (Some layer).

(** The global [ctx]. *)
Definition ctx (s : t) : option Canvas.ctx :=
  _layer s ≫= (fun l => _ctxs s !! l).

(** A drawing call [f] made through [ctx]. *)
Definition draw (f : Canvas.ctx -> Canvas.ctx) (s : t) : t :=
  match _layer s with
  | Some l => mk (alter f l (_ctxs s)) (_layer s)
  | None => s
  end.

(** The state after the library has loaded: [setLayer(0)]. *)
Definition initial : t := setLayer 0 (mk ∅ None).

Inductive call :=
| SetLayer (layer : Z)
| Draw (f : Canvas.ctx -> Canvas.ctx).

Definition step (s : t) (c : call) : t :=
  match c with
  | SetLayer l => setLayer l s
  | Draw f => draw f s
  end.

Definition run (calls : list call) (s : t) : t := foldl step s calls.

(** The drawing calls among [calls] that are made while [layer] is the
    current layer, [current] being the layer current before the calls. *)
Fixpoint drawn (layer : Z) (current : option Z) (calls : list call)
    : list (Canvas.ctx -> Canvas.ctx) :=
  match calls with
  | [] => []
  | SetLayer l :: calls => drawn layer (Some l) calls
  | Draw f :: calls =>
      if decide (current = Some layer) then f :: drawn layer current calls
      else drawn layer current calls
  end.

(** Whether [calls] select [layer]. *)
Definition selects (layer : Z) (calls : list call) : bool :=
  existsb (fun c => match c with SetLayer l => (l =? layer)%Z | Draw _ => false end)
          calls.

(** Every current layer has a context. *)
Definition wf (s : t) : Prop :=
  forall l, _layer s = Some l -> is_Some (_ctxs s !! l).

End Layers.

(** ** The input/output panel

    [read], [write], [clearIO] and the text the [load] listener checks.
    The panel [_io] is the list of its children, oldest first, and
    [_outputElt] is the index of the child it refers to.  A call of [read]
    that has no preloaded line waits for the user to type one and press
    Enter; the call is taken together with that event, the text typed
    being an argument, and no other call is made in between.  The
    arguments of [write] are the string [str(value)] and [end], or none.
    White space is taken among the code units below 256. *)

Module Panel.

Inductive element :=
| InputElt (prompt value : list ascii)
| OutputElt (textContent : list ascii).

Record t := mk {
  _io : list element;
  _outputElt : option nat;
  _inputLines : list (option (list ascii));
  _inputLineIndex : nat;
  canvas_hidden : bool;
  io_hidden : bool
}.

Definition newline : ascii := "010"%char.

(** [s.split("\n")] *)
Fixpoint split (s : list ascii) : list (list ascii) :=
  match s with
  | [] => [[]]
  | c :: s =>
      if Ascii.eqb c newline then [] :: split s
      else match split s with
           | l :: ls => (c :: l) :: ls
           | [] => [[c]]
           end
  end.

(** [lines.join("\n")] *)
Definition join (lines : list (list ascii)) : list ascii :=
  match lines with
  | [] => []
  | l :: ls => l ++ (ls ≫= (fun l' => newline :: l'))
  end.

(** White space and line terminators: tab, line feed, vertical tab, form
    feed, carriage return, space, no-break space. *)
Definition is_space (c : ascii) : bool :=
  let n := nat_of_ascii c in
  (n =? 9)%nat || (n =? 10)%nat || (n =? 11)%nat || (n =? 12)%nat ||
  (n =? 13)%nat || (n =? 32)%nat || (n =? 160)%nat.

(** [s.trimEnd()] *)
Fixpoint trimEnd (s : list ascii) : list ascii :=
  match s with
  | [] => []
  | c :: s =>
      match trimEnd s with
      | [] => if is_space c then [] else [c]
      | t => c :: t
      end
  end.

(** The state when the library has loaded, [iParam] being the [i]
    parameter of the URL. *)
Definition initial (decodeURIComponent : list ascii -> list ascii)
    (iParam : option (list ascii)) : t :=
  mk [] None
     (match iParam with
      | Some i => Some <$> split (decodeURIComponent i)
      | None => []
      end)
     0 false true.

(** [read(prompt)]: the string its promise resolves to, and the state
    then. *)
Definition read (prompt typed : list ascii) (s : t) : list ascii * t :=
  match mjoin (_inputLines s !! _inputLineIndex s) with
  | Some line =>
      (line,
       mk (_io s ++ [InputElt prompt line]) None (_inputLines s)
          (S (_inputLineIndex s)) false true)
  | None =>
      (typed,
       mk (_io s ++ [InputElt prompt typed]) None
          (Pointer.assign (_inputLineIndex s) (Some typed) (_inputLines s))
          (S (_inputLineIndex s)) false true)
  end.

(** [elt.textContent += chunk].  On an input element, the text that
    replaces its children is kept as its prompt. *)
Definition append_text (chunk : list ascii) (e : element) : element :=
  match e with
  | OutputElt t => OutputElt (t ++ chunk)
  | InputElt p v => InputElt (p ++ v ++ chunk) []
  end.

(** [write(value, end)] and [write()] *)
Definition write (args : option (list ascii * list ascii)) (s : t) : t :=
  let s :=
    match _outputElt s with
    | Some _ => s
    | None =>
        mk (_io s ++ [OutputElt []]) (Some (length (_io s))) (_inputLines s)
           (_inputLineIndex s) true false
    end in
  let chunk :=
    match args with
    | Some (value, end_) => value ++ end_
    | None => [newline]
    end in
  mk (match _outputElt s with
      | Some i => alter (append_text chunk) i (_io s)
      | None => _io s
      end)
     (_outputElt s) (_inputLines s) (_inputLineIndex s)
     (canvas_hidden s) (io_hidden s).

Definition clearIO (s : t) : t :=
  mk [] None (_inputLines s) (_inputLineIndex s) true false.

(** [_outputElt?.textContent] *)
Definition output_text (s : t) : option (list ascii) :=
  _outputElt s ≫= (fun i =>
    match _io s !! i with
    | Some (OutputElt t) => Some t
    | Some (InputElt p v) => Some (p ++ v)
    | None => None
    end).

(** The [output] of the [load] listener. *)
Definition checked_output (s : t) : list ascii :=
  match output_text s with
  | Some t => trimEnd (join (trimEnd <$> split t))
  | None => []
  end.

Inductive call :=
| Read (prompt typed : list ascii)
| Write (args : option (list ascii * list ascii))
| ClearIO.

(** A sequence of calls: the strings read, in order, and the state. *)
Fixpoint run (calls : list call) (s : t) : list (list ascii) * t :=
  match calls with
  | [] => ([], s)
  | Read p typed :: calls =>
      let '(line, s) := read p typed s in
      let '(lines, s) := run calls s in
      (line :: lines, s)
  | Write args :: calls => run calls (write args s)
  | ClearIO :: calls => run calls (clearIO s)
  end.

(** What the user types at each [read] of the calls, in order. *)
Definition typed_at (calls : list call) : list (list ascii) :=
  calls ≫= (fun c => match c with Read _ typed => [typed] | _ => [] end).

(** The text written since the last [read] or [clearIO], [acc] being that
    written before the calls; [None] when nothing was. *)
Fixpoint pending (acc : option (list ascii)) (calls : list call)
    : option (list ascii) :=
  match calls with
  | [] => acc
  | Read _ _ :: calls => pending None calls
  | ClearIO :: calls => pending None calls
  | Write args :: calls =>
      pending (Some (default [] acc ++
                     match args with
                     | Some (value, end_) => value ++ end_
                     | None => [newline]
                     end)) calls
  end.

(** Every input line up to the end of the array is present, and
    [_inputLineIndex] is not past the end. *)
Definition inputs_wf (s : t) (lines : list (list ascii)) : Prop :=
  _inputLines s = Some <$> lines /\ (_inputLineIndex s <= length lines)%nat.

(** [_outputElt], when set, refers to an output element of the panel. *)
Definition output_wf (s : t) : Prop :=
  forall i, _outputElt s = Some i -> exists t, _io s !! i = Some (OutputElt t).

End Panel.

(** ** The sprite sheet and the frame shown

    The fields of a sprite that serve the painting: the size of a frame
    and the source offsets [sxs] and [sys] of the frames on the sheet, as
    the constructor computes them for a sheet of [rows] by [columns]
    frames; and the calls that change the animation state. *)

Module SpriteSheet.

Definition frameWidth (sheet : Canvas.HTMLImageElement) (columns : nat) : Q :=
  Canvas.img_width sheet / Num.of_nat columns.
Definition frameHeight (sheet : Canvas.HTMLImageElement) (rows : nat) : Q :=
  Canvas.img_height sheet / Num.of_nat rows.

(** The loop of the constructor: [sxs[i] = frameWidth * (i % columns)]
    and [sys[i] = frameHeight * Math.floor(i / columns)] for
    [i < rows * columns]. *)
Definition sxs (sheet : Canvas.HTMLImageElement) (rows columns : nat) : list Q :=
  map (fun i => frameWidth sheet columns * Num.of_nat (i mod columns))
      (seq 0 (rows * columns)).
Definition sys (sheet : Canvas.HTMLImageElement) (rows columns : nat) : list Q :=
  map (fun i => frameHeight sheet rows *
                inject_Z (Num.floor (Num.of_nat i / Num.of_nat columns)))
      (seq 0 (rows * columns)).

(** The rectangle of the sheet that [draw()] copies for the frame number
    [f]: from ([sxs[f]], [sys[f]]), [frameWidth] wide and [frameHeight]
    high. *)
Definition in_tile (sheet : Canvas.HTMLImageElement) (rows columns : nat)
    (f : nat) (px py : Q) : Prop :=
  exists sx sy,
    sxs sheet rows columns !! f = Some sx /\
    sys sheet rows columns !! f = Some sy /\
    sx <= px /\ px < sx + frameWidth sheet columns /\
    sy <= py /\ py < sy + frameHeight sheet rows.

(** [get frame] *)
Definition frame (this : Sprite.t) : option Z :=
  Sprite._frames this !! Sprite.index this.

(** The calls that act on the animation state. *)
Inductive call :=
| Update (deltaTime : Q)
| SetFrames (value : list Z)
| SetFramesPerSecond (value : Q)
| SetLoop (value : bool).

Definition step (this : Sprite.t) (c : call) : Sprite.t :=
  match c with
  | Update dt => Sprite.update dt this
  | SetFrames v => Sprite.set_frames v this
  | SetFramesPerSecond v => Sprite.set_framesPerSecond v this
  | SetLoop b => Sprite.set_loop b this
  end.

Definition run (calls : list call) (this : Sprite.t) : Sprite.t :=
  foldl step this calls.

End SpriteSheet.

(** ** Paths and the turtle

    [polygon], [triangle] and the [Turtle] class draw through the path
    calls of the 2D context.  These calls are recorded, in order, rather
    than rasterised.  [Math.cos], [Math.sin] and [Math.PI] are taken from
    a record of the platform.  The arrow that shows the turtle on the page
    and the pause after each movement are not modelled; the part of
    [forward] and [right] before the pause runs at once when they are
    called. *)

Module Path.

Inductive ctx_call :=
| BeginPath
| MoveTo (x y : Q)
| LineTo (x y : Q)
| ClosePath
| SetLineWidth (w : Q)
| SetStrokeStyle (c : string)
| SetFillStyle (c : string)
| Stroke
| Fill.

(** How a call ends, after the context calls it has made. *)
Inductive outcome := Done | TypeError.

Definition finish (lineWidth : option Q) (color : string) : list ctx_call :=
  match lineWidth with
  | Some w => [SetLineWidth w; SetStrokeStyle color; Stroke]
  | None => [SetFillStyle color; Fill]
  end.

(** [polygon(points, color, lineWidth)].  With no point,
    [ctx.moveTo(...points[0])] spreads [undefined] and throws. *)
Definition polygon (points : list (Q * Q)) (color : string) (lineWidth : option Q)
    : outcome * list ctx_call :=
  match points with
  | [] => (TypeError, [BeginPath])
  | p :: ps =>
      (Done,
       [BeginPath; MoveTo p.1 p.2] ++ map (fun q => LineTo q.1 q.2) ps ++
       [ClosePath] ++ finish lineWidth color)
  end.

(** [triangle(x1, y1, x2, y2, x3, y3, color, lineWidth)] *)
Definition triangle (x1 y1 x2 y2 x3 y3 : Q) (color : string) (lineWidth : option Q)
    : list ctx_call :=
  [BeginPath; MoveTo x1 y1; LineTo x2 y2; LineTo x3 y3; ClosePath] ++
  finish lineWidth color.

End Path.

Module Turtle.

Import Path.

Record Math := mkMath { cos : Q -> Q; sin : Q -> Q; PI : Q }.

(** [radians(degAngle)] *)
Definition radians (M : Math) (degAngle : Q) : Q := degAngle * PI M / 180.

Record t := mk {
  x : Q;
  y : Q;
  heading : Q;
  points : list (Q * Q);
  _color : string;
  penSize : Q
}.

(** [new Turtle(x, y, heading)] *)
Definition new (x y heading : Q) : t := mk x y heading [] "black" 1.

(** The private [move()]: the position is recorded while a fill is
    being traced. *)
Definition move (this : t) : t :=
  if (0 <? length (points this))%nat then
    mk (x this) (y this) (heading this) (points this ++ [(x this, y this)])
       (_color this) (penSize this)
  else this.

(** [forward(length, penDown)] *)
Definition forward (M : Math) (len : Q) (penDown : bool) (this : t)
    : list ctx_call * t :=
  let x' := x this + cos M (radians M (heading this)) * len in
  let y' := y this + sin M (radians M (heading this)) * len in
  ([BeginPath; MoveTo (x this) (y this)] ++
   (if penDown
    then [LineTo x' y'; SetStrokeStyle (_color this); SetLineWidth (penSize this);
          Stroke]
    else [MoveTo x' y']),
   move (mk x' y' (heading this) (points this) (_color this) (penSize this))).

(** [backward(length, penDown)] *)
Definition backward (M : Math) (len : Q) (penDown : bool) (this : t)
    : list ctx_call * t :=
  forward M (- len) penDown this.

(** [right(degAngle)] and [left(degAngle)] *)
Definition right (degAngle : Q) (this : t) : t :=
  mk (x this) (y this) (heading this + degAngle) (points this) (_color this)
     (penSize this).
Definition left (degAngle : Q) (this : t) : t := right (- degAngle) this.

(** [set state([x, y, heading])] *)
Definition set_state (x y heading : Q) (this : t) : t :=
  move (mk x y heading (points this) (_color this) (penSize this)).

Definition set_color (value : string) (this : t) : t :=
  mk (x this) (y this) (heading this) (points this) value (penSize this).
Definition set_penSize (value : Q) (this : t) : t :=
  mk (x this) (y this) (heading this) (points this) (_color this) value.

Definition beginFill (this : t) : t :=
  mk (x this) (y this) (heading this) [(x this, y this)] (_color this)
     (penSize this).

(** [endFill()]: when [polygon] throws, [points] is not assigned. *)
Definition endFill (this : t) : outcome * list ctx_call * t :=
  match polygon (points this) (_color this) None with
  | (Done, calls) =>
      (Done, calls,
       mk (x this) (y this) (heading this) [] (_color this) (penSize this))
  | (TypeError, calls) => (TypeError, calls, this)
  end.

Inductive call :=
| Forward (len : Q) (penDown : bool)
| Backward (len : Q) (penDown : bool)
| Right (degAngle : Q)
| Left (degAngle : Q)
| SetState (x y heading : Q)
| SetColor (value : string)
| SetPenSize (value : Q)
| BeginFill
| EndFill.

Definition step (M : Math) (c : call) (this : t) : outcome * list ctx_call * t :=
  match c with
  | Forward len pen => let '(calls, this) := forward M len pen this in (Done, calls, this)
  | Backward len pen => let '(calls, this) := backward M len pen this in (Done, calls, this)
  | Right d => (Done, [], right d this)
  | Left d => (Done, [], left d this)
  | SetState x y h => (Done, [], set_state x y h this)
  | SetColor v => (Done, [], set_color v this)
  | SetPenSize v => (Done, [], set_penSize v this)
  | BeginFill => (Done, [], beginFill this)
  | EndFill => endFill this
  end.

(** A program that makes the calls one after the other, until one
    throws. *)
Fixpoint run (M : Math) (calls : list call) (this : t)
    : outcome * list ctx_call * t :=
  match calls with
  | [] => (Done, [], this)
  | c :: calls =>
      match step M c this with
      | (Done, log, this) =>
          let '(o, log', this) := run M calls this in (o, log ++ log', this)
      | (TypeError, log, this) => (TypeError, log, this)
      end
  end.

(** Whether the call places the turtle: the calls that end in
    [move()]. *)
Definition places (c : call) : bool :=
  match c with
  | Forward _ _ | Backward _ _ | SetState _ _ _ => true
  | _ => false
  end.

Definition fills (c : call) : bool :=
  match c with
  | BeginFill | EndFill => true
  | _ => false
  end.

(** The positions of the turtle after each of the calls that place it. *)
Fixpoint trail (M : Math) (calls : list call) (this : t) : list (Q * Q) :=
  match calls with
  | [] => []
  | c :: calls =>
      let this' := (step M c this).2 in
      (if places c then [(x this', y this')] else []) ++ trail M calls this'
  end.

(** Whether every [EndFill] of the calls closes a fill begun since the
    [EndFill] before it, [filling] telling whether a fill is open before
    the calls. *)
Fixpoint balanced (filling : bool) (calls : list call) : bool :=
  match calls with
  | [] => true
  | BeginFill :: calls => balanced true calls
  | EndFill :: calls => filling && balanced false calls
  | _ :: calls => balanced filling calls
  end.

End Turtle.

(** ** The animation loop

    [deltaTime] and [_timestamp0] are [undefined] until the first
    animation frame.  The library requests two callbacks for that frame,
    [timestamp => _timestamp0 = timestamp] and then [_updateHandler];
    the browser runs them in that order with the same time stamp, and
    [_updateHandler] requests itself for each later frame.  The frames
    are numbered from 0, [ts k] being the time stamp of frame [k]. *)

Module Loop.

Record t := mk {
  deltaTime : option Q;
  _timestamp0 : option Q
}.

Definition initial : t := mk None None.

(** [timestamp => _timestamp0 = timestamp] *)
Definition set_timestamp0 (timestamp : Q) (s : t) : t :=
  mk (deltaTime s) (Some timestamp).

(** [_updateHandler(timestamp)], up to the call of [update]. *)
Definition _updateHandler (timestamp : Q) (s : t) : t :=
  mk ((fun t0 => timestamp - t0) <$> _timestamp0 s) (Some timestamp).

(** The globals when [update] is called in frame [n]. *)
Fixpoint at_frame (ts : nat -> Q) (n : nat) : t :=
  match n with
  | O => _updateHandler (ts 0%nat) (set_timestamp0 (ts 0%nat) initial)
  | S k => _updateHandler (ts n) (at_frame ts k)
  end.

(** The [deltaTime] that [update] sees in frame [n]. *)
Definition delta (ts : nat -> Q) (n : nat) : Q :=
  default 0 (deltaTime (at_frame ts n)).

End Loop.

(** ** How a build ends *)

Module ServerTrace.

(** The effects that end a call of [buildOnce]: the reload of the
    browser and the report of an error. *)
Definition is_reload (e : Server.effect) : bool :=
  match e with Server.BrowserSyncReload => true | _ => false end.
Definition is_error (e : Server.effect) : bool :=
  match e with Server.ConsoleError _ => true | _ => false end.

(** The builds of [buildOnce] numbered from [n] that the oracle
    fulfils. *)
Definition succeeds (oracle : nat -> option string) (n : nat) : bool :=
  bool_decide (oracle n = None) && bool_decide (oracle (S n) = None).

End ServerTrace.

(** ** Numbers as the source computes them

    A JavaScript number is a binary64 floating-point value, and the
    primitive floats of Rocq are the same values under the same operations
    (IEEE 754, rounding to nearest, ties to even).  Where the rounding of
    a quotient or a division by zero decides what the code does on
    ordinary arguments, the function is given over them as well, in the
    modules whose names end in [64].  A count is converted exactly (it is
    below 2^53). *)

Module Double.

Definition number := float.

(** A count (below 2^63) used as a number. *)
Definition of_nat (n : nat) : float :=
  PrimFloat.of_uint63 (Uint63.of_Z (Z.of_nat n)).

(** The integer that [Math.floor(a)] is; [None] for NaN and the
    infinities. *)
Definition floor (a : float) : option Z :=
  match FloatOps.Prim2SF a with
  | SpecFloat.S754_zero _ => Some 0%Z
  | SpecFloat.S754_finite s m e =>
      Some (Z.shiftl (if s then Z.neg m else Z.pos m) e)
  | _ => None
  end.

(** [a[i]] for the number [i] that [Math.floor] returned: [undefined]
    below zero, past the end, and for NaN and the infinities. *)
Definition lookup {A} (l : list A) (i : option Z) : option A :=
  i ≫= lookupZ l.

(** An integer (of magnitude below 2^63) as a number. *)
Definition of_Z (z : Z) : float :=
  if (z <? 0)%Z
  then (- PrimFloat.of_uint63 (Uint63.of_Z (- z)))%float
  else PrimFloat.of_uint63 (Uint63.of_Z z).

End Double.

(** ** [random] over doubles *)

Module Util64.

(** [random(min, max, step)], with [r] the value of [Math.random()];
    [None] when a floor is taken of NaN or of an infinity. *)
Definition random (r min max step : float) : option float :=
  n ← Double.floor ((max - min) / step + 1)%float;
  k ← Double.floor (r * Double.of_Z n)%float;
  Some (min + Double.of_Z k * step)%float.

End Util64.

(** ** Cell and Grid over doubles

    What the constructor of a grid stores and what [cellFromPoint] looks
    up.  A cell is taken with its position, its pixel rectangle and its
    text colour; its colour, image, text, callback and font size play no
    part in the lookup. *)

Module Cell64.

Record t := mk {
  row : nat;
  column : nat;
  x : float;
  y : float;
  width : float;
  height : float;
  textColor : string
}.

(** [new Cell(row, column, x, y, width, height, textColor)] *)
Definition new (row column : nat) (x y width height : float) (textColor : string)
    : t :=
  mk row column x y width height textColor.

(** Whether the pixel rectangle of the cell, as stored, holds the point:
    [x <= px < x + width] and [y <= py < y + height]. *)
Definition in_bounds (this : t) (px py : float) : bool :=
  (x this <=? px)%float && (px <? x this + width this)%float &&
  (y this <=? py)%float && (py <? y this + height this)%float.

End Cell64.

Module Grid64.

Record t := mk {
  rows : nat;
  columns : nat;
  x : float;
  y : float;
  width : float;
  height : float;
  color : string;
  activatable : bool;
  _activeCell : option Cell64.t;
  cells : list (list Cell64.t);
  cellWidth : float;
  cellHeight : float
}.

Definition make_cells (rows columns : nat) (x y cellWidth cellHeight : float)
    (color : string) : list (list Cell64.t) :=
  map (fun i =>
         map (fun j =>
                Cell64.new i j
                  (x + Double.of_nat j * (cellWidth + 1) + 1)%float
                  (y + Double.of_nat i * (cellHeight + 1) + 1)%float
                  cellWidth cellHeight color)
             (seq 0 columns))
      (seq 0 rows).

(** The object built by [new Grid(rows, columns, x, y, width, height,
    color)].  Reading [cells[0][0]] throws when there is no row 0:
    [None]. *)
Definition new (rows columns : nat) (x y width height : float) (color : string)
    : option t :=
  let cellWidth :=
    ((width - Double.of_nat columns - 1) / Double.of_nat columns)%float in
  let cellHeight :=
    ((height - Double.of_nat rows - 1) / Double.of_nat rows)%float in
  let cells := make_cells rows columns x y cellWidth cellHeight color in
  match cells !! 0%nat with
  | None => None
  | Some row0 =>
      Some (mk rows columns x y width height color true (row0 !! 0%nat)
               cells cellWidth cellHeight)
  end.

(** [cell(row, column)] *)
Definition cell (this : t) (row column : nat) : option Cell64.t :=
  cells this !! row ≫= (fun r => r !! column).

(** The two indices that [cellFromPoint] computes. *)
Definition column_of (this : t) (px : float) : option Z :=
  Double.floor ((px - x this) / (cellWidth this + 1))%float.
Definition row_of (this : t) (py : float) : option Z :=
  Double.floor ((py - y this) / (cellHeight this + 1))%float.

(** [cellFromPoint(x, y)]: [this.cells[row]?.[column]]. *)
Definition cellFromPoint (this : t) (px py : float) : option Cell64.t :=
  Double.lookup (cells this) (row_of this py) ≫=
    (fun r => Double.lookup r (column_of this px)).

(** Whether the rectangle of the grid holds the point. *)
Definition in_bounds (this : t) (px py : float) : bool :=
  (x this <=? px)%float && (px <? x this + width this)%float &&
  (y this <=? py)%float && (py <? y this + height this)%float.

End Grid64.

(** ** Sprite over doubles

    The animation state of a sprite as [update()] computes it: the budget
    of a sprite of rate 0 is [1000 / 0], which is infinite. *)

Module Sprite64.

Record t := mk {
  index : nat;
  remainingTime : float;
  _frames : list Z;
  _finished : bool;
  _framesPerSecond : float;
  loop : bool
}.

Definition set_index (v : nat) (this : t) : t :=
  mk v (remainingTime this) (_frames this) (_finished this)
     (_framesPerSecond this) (loop this).
Definition set_remainingTime (v : float) (this : t) : t :=
  mk (index this) v (_frames this) (_finished this)
     (_framesPerSecond this) (loop this).
Definition set_finished (v : bool) (this : t) : t :=
  mk (index this) (remainingTime this) (_frames this) v
     (_framesPerSecond this) (loop this).
Definition set_loop (v : bool) (this : t) : t :=
  mk (index this) (remainingTime this) (_frames this) (_finished this)
     (_framesPerSecond this) v.

(** [set framesPerSecond(value)] *)
Definition set_framesPerSecond (value : float) (this : t) : t :=
  mk (index this) (1000 / value)%float (_frames this) (_finished this)
     value (loop this).

(** The animation state of [new Sprite(spritesheet, rows, columns)]. *)
Definition new (rows columns : nat) : t :=
  set_framesPerSecond 12
    (mk 0 0%float (map Z.of_nat (seq 0 (rows * columns))) false 0%float true).

(** [update()], under the current [deltaTime]. *)
Definition update (deltaTime : float) (this : t) : t :=
  let this := set_remainingTime (remainingTime this - deltaTime)%float this in
  if (remainingTime this <? 0)%float then
    let this :=
      if (Double.of_nat (length (_frames this)) - 1
            <=? Double.of_nat (index this))%float then
        if loop this then set_index 0 this else set_finished true this
      else set_index (S (index this)) this in
    set_remainingTime
      (remainingTime this + 1000 / _framesPerSecond this)%float this
  else this.

(** The sprite after [n] calls of [update()], the [k]-th under the
    elapsed time [dt k]. *)
Fixpoint after (dt : nat -> float) (this : t) (n : nat) : t :=
  match n with
  | O => this
  | S n => update (dt n) (after dt this n)
  end.

End Sprite64.

(** * Properties *)

(** ** Comparisons *)

Lemma lt_true_iff (a b : Q) : Num.lt a b = true <-> a < b.
Proof.
  unfold Num.lt. rewrite negb_true_iff.
  destruct (Qle_bool b a) eqn:E.
  - apply Qle_bool_iff in E. split; [discriminate | lra].
  - split; [intros _ | reflexivity].
    destruct (Qlt_le_dec a b) as [H | H]; [exact H |].
    apply Qle_bool_iff in H. congruence.
Qed.

Lemma lt_false_iff (a b : Q) : Num.lt a b = false <-> b <= a.
Proof.
  destruct (Num.lt a b) eqn:E.
  - apply lt_true_iff in E. split; [discriminate | lra].
  - split; [intros _ | reflexivity].
    destruct (Qlt_le_dec a b) as [H | H]; [| exact H].
    apply lt_true_iff in H. congruence.
Qed.

Lemma le_true_iff (a b : Q) : Num.le a b = true <-> a <= b.
Proof. apply Qle_bool_iff. Qed.

Lemma le_false_iff (a b : Q) : Num.le a b = false <-> b < a.
Proof.
  destruct (Num.le a b) eqn:E.
  - apply le_true_iff in E. split; [discriminate | lra].
  - split; [intros _ | reflexivity].
    destruct (Qlt_le_dec b a) as [H | H]; [exact H |].
    apply le_true_iff in H. congruence.
Qed.

Lemma gt_true_iff (a b : Q) : Num.gt a b = true <-> b < a.
Proof. apply lt_true_iff. Qed.

Lemma ge_true_iff (a b : Q) : Num.ge a b = true <-> b <= a.
Proof. apply le_true_iff. Qed.

(** Turns the boolean comparisons of the goal and of the hypotheses into
    order facts on [Q]. *)
Ltac order_facts :=
  repeat match goal with
    | H : _ && _ = true |- _ => apply andb_true_iff in H; destruct H
    | H : Num.lt _ _ = true |- _ => apply lt_true_iff in H
    | H : Num.lt _ _ = false |- _ => apply lt_false_iff in H
    | H : Num.gt _ _ = true |- _ => apply gt_true_iff in H
    | H : Num.le _ _ = true |- _ => apply le_true_iff in H
    | H : Num.le _ _ = false |- _ => apply le_false_iff in H
    | H : Num.ge _ _ = true |- _ => apply ge_true_iff in H
    end.

(** ** Hitbox *)

Lemma contains_iff (h : Hitbox.t) (px py : Q) :
  Hitbox.contains h px py = true <->
  Hitbox.x h <= px /\ px < Hitbox.x h + Hitbox.width h /\
  Hitbox.y h <= py /\ py < Hitbox.y h + Hitbox.height h.
Proof.
  unfold Hitbox.contains.
  rewrite !andb_true_iff, !gt_true_iff, !le_true_iff. tauto.
Qed.

Lemma intersects_iff (a b : Hitbox.t) :
  Hitbox.intersects a b = true <->
  Hitbox.x b < Hitbox.x a + Hitbox.width a /\
  Hitbox.x a < Hitbox.x b + Hitbox.width b /\
  Hitbox.y b < Hitbox.y a + Hitbox.height a /\
  Hitbox.y a < Hitbox.y b + Hitbox.height b.
Proof.
  unfold Hitbox.intersects.
  rewrite !andb_true_iff, !gt_true_iff, !lt_true_iff. tauto.
Qed.

(** C4.  Intersection is symmetric, [a.intersects(b) = b.intersects(a)],
    and two hitboxes of which an edge of one lies exactly on the facing
    edge of the other (left on right, right on left, top on bottom, bottom
    on top) do not intersect: the four comparisons are strict. *)
Theorem intersects_symmetric_strict (a b : Hitbox.t) :
  Hitbox.intersects a b = Hitbox.intersects b a /\
  (Hitbox.x a + Hitbox.width a == Hitbox.x b -> Hitbox.intersects a b = false) /\
  (Hitbox.x b + Hitbox.width b == Hitbox.x a -> Hitbox.intersects a b = false) /\
  (Hitbox.y a + Hitbox.height a == Hitbox.y b -> Hitbox.intersects a b = false) /\
  (Hitbox.y b + Hitbox.height b == Hitbox.y a -> Hitbox.intersects a b = false).
Proof.
  split.
  - unfold Hitbox.intersects, Num.gt.
    destruct (Num.lt (Hitbox.x b) (Hitbox.x a + Hitbox.width a)),
             (Num.lt (Hitbox.x a) (Hitbox.x b + Hitbox.width b)),
             (Num.lt (Hitbox.y b) (Hitbox.y a + Hitbox.height a)),
             (Num.lt (Hitbox.y a) (Hitbox.y b + Hitbox.height b)); reflexivity.
  - repeat split; intros E;
      (destruct (Hitbox.intersects a b) eqn:I; [| reflexivity]);
      apply intersects_iff in I; lra.
Qed.

(** The touching case of C4 at two unit squares side by side. *)
Lemma intersects_symmetric_strict_witness :
  Hitbox.intersects (Hitbox.mk 0 0 1 1) (Hitbox.mk 1 0 1 1) = false.
Proof.
  pose proof (intersects_symmetric_strict (Hitbox.mk 0 0 1 1) (Hitbox.mk 1 0 1 1))
    as (_ & Touch & _).
  apply Touch. reflexivity.
Defined.

(** C9.  [contains] treats the rectangle as half-open: a point is inside
    exactly when [x <= px < x + width] and [y <= py < y + height].  So no
    point of the right edge ([px = x + width]) or of the bottom edge
    ([py = y + height]) is inside, whatever its other coordinate, and the
    bottom-right corner never is.  A point of the left edge ([px = x]) is
    inside exactly when the width is positive and its [py] is in range, a
    point of the top edge ([py = y]) exactly when the height is positive
    and its [px] is in range, and the top-left corner exactly when the
    width and the height are positive. *)
Theorem contains_half_open (h : Hitbox.t) :
  (forall px py,
      Hitbox.contains h px py = true <->
      Hitbox.x h <= px /\ px < Hitbox.x h + Hitbox.width h /\
      Hitbox.y h <= py /\ py < Hitbox.y h + Hitbox.height h) /\
  (forall px py, px == Hitbox.x h + Hitbox.width h ->
                 Hitbox.contains h px py = false) /\
  (forall px py, py == Hitbox.y h + Hitbox.height h ->
                 Hitbox.contains h px py = false) /\
  (forall px py, px == Hitbox.x h ->
     (Hitbox.contains h px py = true <->
      0 < Hitbox.width h /\
      Hitbox.y h <= py /\ py < Hitbox.y h + Hitbox.height h)) /\
  (forall px py, py == Hitbox.y h ->
     (Hitbox.contains h px py = true <->
      0 < Hitbox.height h /\
      Hitbox.x h <= px /\ px < Hitbox.x h + Hitbox.width h)) /\
  (Hitbox.contains h (Hitbox.x h) (Hitbox.y h) = true <->
   0 < Hitbox.width h /\ 0 < Hitbox.height h) /\
  Hitbox.contains h (Hitbox.x h + Hitbox.width h)
                    (Hitbox.y h + Hitbox.height h) = false.
Proof.
  split; [apply contains_iff |].
  split; [| split; [| split; [| split; [| split]]]].
  - intros px py E. destruct (Hitbox.contains h px py) eqn:C; [| reflexivity].
    apply contains_iff in C. lra.
  - intros px py E. destruct (Hitbox.contains h px py) eqn:C; [| reflexivity].
    apply contains_iff in C. lra.
  - intros px py E. rewrite contains_iff. split; intros; lra.
  - intros px py E. rewrite contains_iff. split; intros; lra.
  - rewrite contains_iff. split; intros; lra.
  - destruct (Hitbox.contains h _ _) eqn:C; [| reflexivity].
    apply contains_iff in C. lra.
Qed.

(** C9 at the hitbox with corner (2, 3), width 4 and height 5: the point
    (2, 5) of its left edge is inside. *)
Lemma contains_half_open_witness :
  Hitbox.contains (Hitbox.mk 2 3 4 5) 2 5 = true /\
  Hitbox.contains (Hitbox.mk 2 3 4 5) 6 8 = false.
Proof.
  pose proof (contains_half_open (Hitbox.mk 2 3 4 5)) as (_ & _ & _ & L & _ & _ & BR).
  split.
  - apply (L 2 5); [reflexivity |]. simpl. lra.
  - exact BR.
Defined.

(** C9 as stated fails on a hitbox without extent, such as the one a
    sprite is built on before it is given its size: the hitbox with corner
    (2, 3), width 0 and height 0 does not contain its top-left corner, nor
    any point of its left or top edge. *)
Lemma contains_empty_hitbox :
  Hitbox.contains (Hitbox.mk 2 3 0 0) 2 3 = false.
Proof. reflexivity. Qed.

(** ** Floor and array lookups *)

Lemma floor_unique (q : Q) (z : Z) :
  inject_Z z <= q -> q < inject_Z z + 1 -> Qfloor q = z.
Proof.
  intros L U.
  pose proof (Qfloor_le q) as F1. pose proof (Qlt_floor q) as F2.
  rewrite inject_Z_plus in F2. change (inject_Z 1) with 1 in F2.
  assert (Qfloor q < z + 1)%Z as A.
  { rewrite Zlt_Qlt, inject_Z_plus. change (inject_Z 1) with 1. lra. }
  assert (z < Qfloor q + 1)%Z as B.
  { rewrite Zlt_Qlt, inject_Z_plus. change (inject_Z 1) with 1. lra. }
  lia.
Qed.

Lemma floor_negative (q : Q) : q < 0 -> (Qfloor q < 0)%Z.
Proof.
  intros H. pose proof (Qfloor_le q) as F.
  rewrite Zlt_Qlt. change (inject_Z 0) with 0. lra.
Qed.

Lemma floor_at_least (q : Q) (z : Z) : inject_Z z <= q -> (z <= Qfloor q)%Z.
Proof.
  intros H. rewrite <- (Qfloor_Z z). apply Qfloor_resp_le, H.
Qed.

Lemma lookup_map {A B} (f : A -> B) (l : list A) (i : nat) :
  map f l !! i = f <$> l !! i.
Proof.
  revert i. induction l as [| a l IH]; intros [| i]; simpl; auto.
Qed.

Lemma lookupZ_nat {A} (l : list A) (i : nat) : lookupZ l (Z.of_nat i) = l !! i.
Proof.
  unfold lookupZ. destruct (Z.ltb_spec (Z.of_nat i) 0); [lia |].
  now rewrite Nat2Z.id.
Qed.

Lemma lookupZ_negative {A} (l : list A) (i : Z) : (i < 0)%Z -> lookupZ l i = None.
Proof.
  intros H. unfold lookupZ. destruct (Z.ltb_spec i 0); [reflexivity | lia].
Qed.

Lemma lookupZ_beyond {A} (l : list A) (i : Z) :
  (Z.of_nat (length l) <= i)%Z -> lookupZ l i = None.
Proof.
  intros H. unfold lookupZ. destruct (Z.ltb_spec i 0); [reflexivity |].
  apply lookup_ge_None. lia.
Qed.

Lemma lookupZ_empty {A} (l : list A) (i : Z) :
  length l = 0%nat -> lookupZ l i = None.
Proof.
  intros H. unfold lookupZ. destruct (i <? 0)%Z; [reflexivity |].
  apply lookup_ge_None. lia.
Qed.

Lemma lookupZ_Some {A} (l : list A) (i : Z) (a : A) :
  lookupZ l i = Some a -> (0 <= i)%Z /\ l !! Z.to_nat i = Some a.
Proof.
  unfold lookupZ. destruct (Z.ltb_spec i 0); [discriminate | auto].
Qed.

(** ** Grid *)

Section GridGeometry.

Variables (rows columns : nat) (x y width height : Q) (color : string).

#[local] Abbreviation cw := ((width - Num.of_nat columns - 1) / Num.of_nat columns).
#[local] Abbreviation ch := ((height - Num.of_nat rows - 1) / Num.of_nat rows).

Lemma make_cells_row (i : nat) (r : list Cell.t) :
  Grid.make_cells rows columns x y cw ch color !! i = Some r <->
  (i < rows)%nat /\
  r = map (fun j => Cell.new i j (x + Num.of_nat j * (cw + 1) + 1)
                             (y + Num.of_nat i * (ch + 1) + 1) cw ch color)
          (seq 0 columns).
Proof.
  unfold Grid.make_cells. rewrite lookup_map.
  destruct (decide (i < rows)%nat) as [Hi | Hi].
  - rewrite lookup_seq_lt by exact Hi. simpl. split.
    + intros [= <-]. auto.
    + intros [_ ->]. reflexivity.
  - rewrite lookup_seq_ge by lia. simpl. split; [discriminate | tauto].
Qed.

Lemma make_cells_length :
  length (Grid.make_cells rows columns x y cw ch color) = rows.
Proof. unfold Grid.make_cells. now rewrite length_map, length_seq. Qed.

Lemma make_cells_row_length (i : nat) (r : list Cell.t) :
  Grid.make_cells rows columns x y cw ch color !! i = Some r ->
  length r = columns.
Proof.
  intros H. apply make_cells_row in H as [_ ->].
  now rewrite length_map, length_seq.
Qed.

Lemma make_cells_cell (i j : nat) (r : list Cell.t) (c : Cell.t) :
  Grid.make_cells rows columns x y cw ch color !! i = Some r ->
  r !! j = Some c ->
  (i < rows)%nat /\ (j < columns)%nat /\
  c = Cell.new i j (x + Num.of_nat j * (cw + 1) + 1)
               (y + Num.of_nat i * (ch + 1) + 1) cw ch color.
Proof.
  intros Hr Hc. apply make_cells_row in Hr as [Hi ->].
  rewrite lookup_map in Hc.
  destruct (decide (j < columns)%nat) as [Hj | Hj].
  - rewrite lookup_seq_lt in Hc by exact Hj. simpl in Hc.
    injection Hc as <-. auto.
  - rewrite lookup_seq_ge in Hc by lia. discriminate.
Qed.

Lemma new_fields (g : Grid.t) :
  Grid.new rows columns x y width height color = Some g ->
  Grid.cells g = Grid.make_cells rows columns x y cw ch color /\
  Grid.cellWidth g = cw /\ Grid.cellHeight g = ch /\
  Grid.x g = x /\ Grid.y g = y /\
  Grid.width g = width /\ Grid.height g = height /\
  Grid.rows g = rows /\ Grid.columns g = columns /\
  (0 < rows)%nat.
Proof.
  unfold Grid.new.
  destruct (Grid.make_cells rows columns x y cw ch color !! 0%nat) as [r0 |] eqn:E;
    [| discriminate].
  intros [= <-]. simpl. apply make_cells_row in E as [H0 _]. tauto.
Qed.

End GridGeometry.

(** The column (or row) of a point between the left edge of cell [j] and
    the right edge of the same cell. *)
Lemma floor_pitch (p x0 px : Q) (j : nat) :
  0 < p ->
  x0 + Num.of_nat j * p <= px -> px < x0 + (Num.of_nat j + 1) * p ->
  Num.floor ((px - x0) / p) = Z.of_nat j.
Proof.
  intros Hp L U. unfold Num.floor, Num.of_nat in *. apply floor_unique.
  - apply Qle_shift_div_l; [exact Hp | lra].
  - apply Qlt_shift_div_r; [exact Hp | lra].
Qed.

(** The pitch of a grid of [n >= 1] cells over an extent [w]. *)
Lemma pitch_value (w : Q) (n : nat) :
  (0 < n)%nat ->
  (w - Num.of_nat n - 1) / Num.of_nat n + 1 == (w - 1) / Num.of_nat n.
Proof.
  intros Hn. unfold Num.of_nat.
  assert (0 < inject_Z (Z.of_nat n)) as H.
  { change 0 with (inject_Z 0). rewrite <- Zlt_Qlt. lia. }
  field. lra.
Qed.

Lemma pitch_times (w : Q) (n : nat) :
  (0 < n)%nat ->
  Num.of_nat n * ((w - Num.of_nat n - 1) / Num.of_nat n + 1) == w - 1.
Proof.
  intros Hn. unfold Num.of_nat.
  assert (0 < inject_Z (Z.of_nat n)) as H.
  { change 0 with (inject_Z 0). rewrite <- Zlt_Qlt. lia. }
  field. lra.
Qed.

Lemma pitch_positive (w : Q) (n : nat) :
  (0 < n)%nat -> 1 < w -> 0 < (w - Num.of_nat n - 1) / Num.of_nat n + 1.
Proof.
  intros Hn Hw. rewrite pitch_value by exact Hn.
  assert (0 < Num.of_nat n) as H.
  { unfold Num.of_nat. change 0 with (inject_Z 0). rewrite <- Zlt_Qlt. lia. }
  apply Qlt_shift_div_l; [exact H | lra].
Qed.

(** An offset outside [0, w) falls on no cell index of a grid of [n]
    cells over the extent [w > 1]. *)
Lemma floor_outside (w px x0 : Q) (n : nat) :
  (0 < n)%nat -> 1 < w ->
  px < x0 \/ x0 + w <= px ->
  let p := (w - Num.of_nat n - 1) / Num.of_nat n + 1 in
  (Num.floor ((px - x0) / p)%Q < 0)%Z \/
  (Z.of_nat n <= Num.floor ((px - x0) / p)%Q)%Z.
Proof.
  intros Hn Hw Hout p.
  assert (0 < p) as Hp by (apply pitch_positive; assumption).
  assert (Num.of_nat n * p == w - 1) as Hnp by (apply pitch_times; assumption).
  destruct Hout as [Hl | Hr].
  - left. apply floor_negative.
    apply Qlt_shift_div_r; [exact Hp | lra].
  - right. apply floor_at_least. fold (Num.of_nat n).
    apply Qle_shift_div_l; [exact Hp | lra].
Qed.

Lemma cell_lookup (g : Grid.t) (i j : nat) (c : Cell.t) :
  Grid.cell g i j = Some c <->
  exists r, Grid.cells g !! i = Some r /\ r !! j = Some c.
Proof.
  unfold Grid.cell. destruct (Grid.cells g !! i) as [r |]; simpl.
  - split; [eauto | intros (r' & [= <-] & H); exact H].
  - split; [discriminate | intros (r' & [=] & _)].
Qed.

Lemma cellFromPoint_lookup (g : Grid.t) (px py : Q) (c : Cell.t) :
  Grid.cellFromPoint g px py = Some c ->
  exists i j,
    Z.of_nat i = Num.floor ((py - Grid.y g) / (Grid.cellHeight g + 1)) /\
    Z.of_nat j = Num.floor ((px - Grid.x g) / (Grid.cellWidth g + 1)) /\
    Grid.cell g i j = Some c.
Proof.
  unfold Grid.cellFromPoint.
  set (zj := Num.floor ((px - Grid.x g) / (Grid.cellWidth g + 1))).
  set (zi := Num.floor ((py - Grid.y g) / (Grid.cellHeight g + 1))).
  destruct (lookupZ (Grid.cells g) zi) as [r |] eqn:Er; simpl; [| discriminate].
  intros Ec.
  apply lookupZ_Some in Er as [Hi Er]. apply lookupZ_Some in Ec as [Hj Ec].
  exists (Z.to_nat zi), (Z.to_nat zj). rewrite !Z2Nat.id by assumption.
  split; [reflexivity |]. split; [reflexivity |].
  apply cell_lookup. eauto.
Qed.

(** The lookup in exact arithmetic, where no quotient is rounded.  For a
    grid as its constructor builds it:
    - a point inside the pixel rectangle of a cell is mapped to that cell;
    - on a grid more than one pixel wide and high (its cell pitch is then
      positive), a point outside the rectangle of the grid is mapped to no
      cell, and whenever a cell is returned its column and row are the
      floors of the offsets from the grid origin divided by the pitches
      [cellWidth + 1] and [cellHeight + 1];
    - the cells lie at that uniform pitch from the origin. *)
Lemma cellFromPoint_exact
    (rows columns : nat) (x y width height : Q) (color : string) (g : Grid.t) :
  Grid.new rows columns x y width height color = Some g ->
  (forall i j c px py,
      Grid.cell g i j = Some c -> Cell.in_bounds c px py ->
      Grid.cellFromPoint g px py = Some c) /\
  (1 < width -> 1 < height ->
   forall px py, ~ Grid.in_bounds g px py -> Grid.cellFromPoint g px py = None) /\
  (1 < width -> 1 < height ->
   forall px py c,
     Grid.cellFromPoint g px py = Some c ->
     Z.of_nat (Cell.column c) = Qfloor ((px - Grid.x g) / (Grid.cellWidth g + 1)) /\
     Z.of_nat (Cell.row c) = Qfloor ((py - Grid.y g) / (Grid.cellHeight g + 1)) /\
     Grid.cell g (Cell.row c) (Cell.column c) = Some c) /\
  (forall i j c,
      Grid.cell g i j = Some c ->
      Cell.row c = i /\ Cell.column c = j /\
      Cell.x c = Grid.x g + Num.of_nat j * (Grid.cellWidth g + 1) + 1 /\
      Cell.y c = Grid.y g + Num.of_nat i * (Grid.cellHeight g + 1) + 1 /\
      Cell.width c = Grid.cellWidth g /\ Cell.height c = Grid.cellHeight g).
Proof.
  intros Hnew.
  pose proof (new_fields _ _ _ _ _ _ _ _ Hnew)
    as (Hcells & Hcw & Hch & Hx & Hy & Hw & Hh & _ & _ & Hrows).
  assert (forall i j c, Grid.cell g i j = Some c ->
            (i < rows)%nat /\ (j < columns)%nat /\
            c = Cell.new i j (Grid.x g + Num.of_nat j * (Grid.cellWidth g + 1) + 1)
                         (Grid.y g + Num.of_nat i * (Grid.cellHeight g + 1) + 1)
                         (Grid.cellWidth g) (Grid.cellHeight g) color) as Hcell.
  { intros i j c Hc. apply cell_lookup in Hc as (r & Hr & Hc).
    rewrite Hcells in Hr. rewrite Hcw, Hch, Hx, Hy.
    eapply make_cells_cell; eassumption. }
  split; [| split; [| split]].
  - (* inside a cell *)
    intros i j c px py Hc (Hx1 & Hx2 & Hy1 & Hy2).
    pose proof Hc as Hc'. apply Hcell in Hc' as (_ & _ & ->).
    simpl in Hx1, Hx2, Hy1, Hy2.
    apply cell_lookup in Hc as (r & Hr & Hc).
    unfold Grid.cellFromPoint.
    rewrite (floor_pitch _ _ _ j), (floor_pitch _ _ _ i) by lra.
    rewrite lookupZ_nat, Hr. simpl. rewrite lookupZ_nat. exact Hc.
  - (* outside the grid *)
    intros Hw1 Hh1 px py Hout.
    unfold Grid.in_bounds in Hout. rewrite Hx, Hy, Hw, Hh in Hout.
    unfold Grid.cellFromPoint. rewrite Hcells, Hcw, Hch, Hx, Hy.
    assert ((py < y \/ y + height <= py) \/ (px < x \/ x + width <= px)) as [Oy | Ox].
    { destruct (Qlt_le_dec py y); [tauto |].
      destruct (Qlt_le_dec py (y + height)); [| tauto].
      destruct (Qlt_le_dec px x); [tauto |].
      destruct (Qlt_le_dec px (x + width)); [| tauto].
      exfalso. apply Hout. tauto. }
    + destruct (floor_outside height py y rows Hrows Hh1 Oy) as [F | F].
      * now rewrite lookupZ_negative.
      * rewrite lookupZ_beyond; [reflexivity |]. now rewrite make_cells_length.
    + destruct (lookupZ _ _) as [r |] eqn:Er; simpl; [| reflexivity].
      apply lookupZ_Some in Er as [_ Er].
      apply make_cells_row_length in Er.
      destruct (decide (0 < columns)%nat) as [Hc | Hc].
      * destruct (floor_outside width px x columns Hc Hw1 Ox) as [F | F].
        -- now apply lookupZ_negative.
        -- apply lookupZ_beyond. now rewrite Er.
      * apply lookupZ_empty. lia.
  - (* floor division *)
    intros _ _ px py c Hc.
    apply cellFromPoint_lookup in Hc as (i & j & Hi & Hj & Hc).
    pose proof Hc as Hc'. apply Hcell in Hc' as (_ & _ & ->). simpl.
    unfold Num.floor in *. auto.
  - (* uniform pitch *)
    intros i j c Hc. apply Hcell in Hc as (_ & _ & ->). simpl.
    repeat split.
Qed.

(** *** The lookup as the code computes it *)







(** Nor is a point outside the bounds of the grid always without a cell:
    no bound is tested.  In a grid whose extent leaves no room for its
    lines, such as the grid of one cell with corner (0, 0) and no width
    or height, the pitch is negative, and the point (-0.5, -0.5), left
    of and above the grid, is given the cell of row 0 and column 0. *)
Lemma cellFromPoint_hits_outside_grid :
  exists g,
    Grid64.new 1 1 0 0 0 0 "black" = Some g /\
    Grid64.in_bounds g (-0.5) (-0.5) = false /\
    Grid64.cellFromPoint g (-0.5) (-0.5) = Grid64.cell g 0 0 /\
    is_Some (Grid64.cell g 0 0).
Proof.
  eexists. split; [reflexivity |].
  split; [vm_compute; reflexivity |].
  split; [vm_compute; reflexivity |].
  vm_compute. eauto.
Qed.

(** On a grid line the code returns a cell as well, and rounding moves
    the lines: in the grid of 1 row and 3 columns with corner (0, 0), 9
    wide and 11 high, the point (8, 5) lies on the last line of the
    grid, right of every cell, and is given the cell of column 2, since
    its offset 8 divided by the pitch 2.666666666666667 is rounded to
    2.9999999999999996. *)
Lemma cellFromPoint_on_grid_line :
  exists g c,
    Grid64.new 1 3 0 0 9 11 "black" = Some g /\
    Grid64.cellFromPoint g 8 5 = Some c /\
    Cell64.column c = 2%nat /\
    Cell64.in_bounds c 8 5 = false.
Proof.
  eexists _, _. split; [reflexivity |].
  split; [vm_compute; reflexivity |].
  split; [reflexivity | vm_compute; reflexivity].
Qed.

(** ** The [activated] getters *)

(** What the two getters have in common: an object with an arming flag,
    disarmed by a read with the pointer down, inert while disarmed and the
    pointer down, and armed again by a read with nothing down. *)
Section Debounce.

Context {A : Type} (get : Input.t -> A -> bool * A) (armed : A -> bool).

Hypothesis held_disarms :
  forall i a, Input.down i = true -> armed (get i a).2 = false.
Hypothesis held_inert :
  forall i a, Input.down i = true -> armed a = false -> get i a = (false, a).

Lemma reads_disarmed (ins : list Input.t) (a : A) :
  Forall (fun i => Input.down i = true) ins -> armed a = false ->
  reads get ins a = (replicate (length ins) false, a).
Proof.
  intros Hall. revert a. induction Hall as [| i ins Hi _ IH]; intros a Ha.
  - reflexivity.
  - simpl. rewrite (held_inert i a Hi Ha), (IH a Ha). reflexivity.
Qed.

Lemma reads_held (i : Input.t) (ins : list Input.t) (a : A) :
  Forall (fun i => Input.down i = true) (i :: ins) ->
  reads get (i :: ins) a =
    ((get i a).1 :: replicate (length ins) false, (get i a).2).
Proof.
  intros Hall. inversion Hall as [| ? ? Hi Hins]; subst.
  simpl. destruct (get i a) as [b a1] eqn:E.
  rewrite (reads_disarmed ins a1 Hins).
  - reflexivity.
  - pose proof (held_disarms i a Hi) as H. now rewrite E in H.
Qed.

End Debounce.

Lemma grid_held_disarms (i : Input.t) (g : Grid.t) :
  Input.down i = true -> Grid.activatable (Grid.activated i g).2 = false.
Proof.
  intros Hd. unfold Grid.activated. rewrite Hd.
  destruct (Grid.activatable g) eqn:Ha; [| exact Ha].
  destruct (Grid.cellFromPoint _ _ _); reflexivity.
Qed.

Lemma grid_held_inert (i : Input.t) (g : Grid.t) :
  Input.down i = true -> Grid.activatable g = false ->
  Grid.activated i g = (false, g).
Proof. intros Hd Ha. unfold Grid.activated. now rewrite Hd, Ha. Qed.

Lemma button_held_disarms (i : Input.t) (b : Button.t) :
  Input.down i = true -> Button.activatable (Button.activated i b).2 = false.
Proof.
  intros Hd. unfold Button.activated. rewrite Hd.
  destruct (Button.activatable b) eqn:Ha; [reflexivity | exact Ha].
Qed.

Lemma button_held_inert (i : Input.t) (b : Button.t) :
  Input.down i = true -> Button.activatable b = false ->
  Button.activated i b = (false, b).
Proof. intros Hd Ha. unfold Button.activated. now rewrite Hd, Ha. Qed.

(** C5.  For a grid and for a button alike, over successive reads of
    [activated] during which a touch or a mouse button is down at every
    read:
    - only the first read can return [true]; every later read returns
      [false] and leaves the object disarmed, so in particular every read
      that follows an activation returns [false];
    - a read with neither a touch nor a mouse button down returns [false]
      and arms the object again;
    - an armed grid read with the pointer down on a cell returns [true] and
      makes that cell the active one, and an armed button read with the
      pointer down returns whether its hitbox contains the point. *)
Theorem activated_edge_trigger :
  (forall (g : Grid.t) (i : Input.t) (ins : list Input.t),
      Forall (fun i => Input.down i = true) (i :: ins) ->
      (reads Grid.activated (i :: ins) g).1 =
        (Grid.activated i g).1 :: replicate (length ins) false /\
      Grid.activatable (reads Grid.activated (i :: ins) g).2 = false) /\
  (forall (g : Grid.t) (i : Input.t),
      Input.down i = false ->
      (Grid.activated i g).1 = false /\
      Grid.activatable (Grid.activated i g).2 = true) /\
  (forall (g : Grid.t) (i : Input.t) (c : Cell.t),
      Input.down i = true -> Grid.activatable g = true ->
      Grid.cellFromPoint g (Input.point_x i) (Input.point_y i) = Some c ->
      (Grid.activated i g).1 = true /\
      Grid._activeCell (Grid.activated i g).2 = Some c) /\
  (forall (b : Button.t) (i : Input.t) (ins : list Input.t),
      Forall (fun i => Input.down i = true) (i :: ins) ->
      (reads Button.activated (i :: ins) b).1 =
        (Button.activated i b).1 :: replicate (length ins) false /\
      Button.activatable (reads Button.activated (i :: ins) b).2 = false) /\
  (forall (b : Button.t) (i : Input.t),
      Input.down i = false ->
      (Button.activated i b).1 = false /\
      Button.activatable (Button.activated i b).2 = true) /\
  (forall (b : Button.t) (i : Input.t),
      Input.down i = true -> Button.activatable b = true ->
      (Button.activated i b).1 =
        Hitbox.contains (Button.hb b) (Input.point_x i) (Input.point_y i)).
Proof.
  split; [| split; [| split; [| split; [| split]]]].
  - intros g i ins Hall.
    rewrite (reads_held Grid.activated Grid.activatable
               grid_held_disarms grid_held_inert i ins g Hall).
    split; [reflexivity |]. simpl.
    apply grid_held_disarms. now inversion Hall.
  - intros g i Hd. unfold Grid.activated. rewrite Hd. auto.
  - intros g i c Hd Ha Hc. unfold Grid.activated. rewrite Hd, Ha.
    change (Grid.cellFromPoint (Grid.set_activatable false g))
      with (Grid.cellFromPoint g).
    rewrite Hc. auto.
  - intros b i ins Hall.
    rewrite (reads_held Button.activated Button.activatable
               button_held_disarms button_held_inert i ins b Hall).
    split; [reflexivity |]. simpl.
    apply button_held_disarms. now inversion Hall.
  - intros b i Hd. unfold Button.activated. rewrite Hd. auto.
  - intros b i Hd Ha. unfold Button.activated. now rewrite Hd, Ha.
Qed.

(** C5 at the grid of 2 by 3 cells read three times with the left mouse
    button held down on the point (15, 12): [true], then [false] twice. *)
Lemma activated_edge_trigger_witness :
  exists g, Grid.new 2 3 0 0 31 21 "black" = Some g /\
    (reads Grid.activated
       [Input.mk true [] [Some true] 15 12;
        Input.mk true [] [Some true] 15 12;
        Input.mk true [] [Some true] 15 12] g).1 = [true; false; false].
Proof.
  destruct (Grid.new 2 3 0 0 31 21 "black") as [g |] eqn:E; [| discriminate].
  exists g. split; [reflexivity |].
  pose proof activated_edge_trigger as (Held & _).
  destruct (Held g (Input.mk true [] [Some true] 15 12)
              [Input.mk true [] [Some true] 15 12;
               Input.mk true [] [Some true] 15 12]) as [-> _].
  - repeat constructor.
  - vm_compute in E. injection E as <-. reflexivity.
Defined.

(** ** Sprite *)

Lemma of_nat_le (a b : nat) : Num.of_nat a <= Num.of_nat b <-> (a <= b)%nat.
Proof. unfold Num.of_nat. rewrite <- Zle_Qle. lia. Qed.

(** The test [index >= frames.length - 1] of [update()]. *)
Lemma at_last_iff (index len : nat) :
  Num.ge (Num.of_nat index) (Num.of_nat len - 1) = true <-> (len <= S index)%nat.
Proof.
  rewrite ge_true_iff, <- of_nat_le. unfold Num.of_nat.
  rewrite Nat2Z.inj_succ, <- Z.add_1_r, inject_Z_plus.
  change (inject_Z 1) with 1. split; intros; lra.
Qed.

Lemma at_last_false_iff (index len : nat) :
  Num.ge (Num.of_nat index) (Num.of_nat len - 1) = false <-> (S index < len)%nat.
Proof.
  destruct (Num.ge _ _) eqn:E.
  - apply at_last_iff in E. split; [discriminate | lia].
  - split; [intros _ | reflexivity].
    destruct (decide (len <= S index)%nat) as [H | H]; [| lia].
    apply at_last_iff in H. congruence.
Qed.

(** The cases of one call of [update()] under the elapsed time [dt]. *)
Lemma update_cases (s : Sprite.t) (dt : Q) :
  let r := Sprite.remainingTime s - dt in
  let s' := Sprite.update dt s in
  (~ r < 0 -> s' = Sprite.set_remainingTime r s) /\
  (r < 0 ->
   Sprite.remainingTime s' = r + 1000 / Sprite._framesPerSecond s /\
   ((length (Sprite._frames s) <= S (Sprite.index s))%nat ->
    Sprite.loop s = true ->
    Sprite.index s' = 0%nat /\ Sprite._finished s' = Sprite._finished s) /\
   ((length (Sprite._frames s) <= S (Sprite.index s))%nat ->
    Sprite.loop s = false ->
    Sprite.index s' = Sprite.index s /\ Sprite._finished s' = true) /\
   ((S (Sprite.index s) < length (Sprite._frames s))%nat ->
    Sprite.index s' = S (Sprite.index s) /\
    Sprite._finished s' = Sprite._finished s)) /\
  Sprite._frames s' = Sprite._frames s /\
  Sprite._framesPerSecond s' = Sprite._framesPerSecond s /\
  Sprite.loop s' = Sprite.loop s /\
  Sprite.hb s' = Sprite.hb s.
Proof.
  intros r s'. subst r s'. unfold Sprite.update. simpl.
  destruct (Num.lt (Sprite.remainingTime s - dt) 0) eqn:Er.
  - apply lt_true_iff in Er.
    destruct (Num.ge _ _) eqn:El.
    + apply at_last_iff in El.
      destruct (Sprite.loop s) eqn:Eloop; simpl;
        (split; [intros N; contradiction |]);
        (split; [intros _ | auto]);
        (split; [reflexivity |]);
        repeat split; intros; solve [reflexivity | congruence | lia].
    + apply at_last_false_iff in El. simpl.
      split; [intros N; contradiction |].
      split; [intros _ | auto].
      split; [reflexivity |].
      repeat split; intros; solve [reflexivity | lia].
  - apply lt_false_iff in Er.
    split; [reflexivity |].
    split; [intros N; lra | auto].
Qed.

(** C2.  One call of [update()] under the elapsed time [dt].  The budget
    is first decremented by [dt].  If it has not become negative, nothing
    else changes.  If it has become negative, then: at the last frame (no
    later position, [length frames <= index + 1]) of a looping sprite the
    index wraps to 0; at the last frame of a non-looping sprite the index
    stays and [finished] is set; anywhere else the index advances by one;
    and in the three cases the budget is then increased by
    [1000 / framesPerSecond] (the rate not being zero).  The frames, the
    rate, the loop flag and the hitbox are never changed. *)
Theorem update_step (s : Sprite.t) (dt : Q) :
  let r := Sprite.remainingTime s - dt in
  let s' := Sprite.update dt s in
  (~ r < 0 -> s' = Sprite.set_remainingTime r s) /\
  (r < 0 -> ~ Sprite._framesPerSecond s == 0 ->
   Sprite.remainingTime s' = r + 1000 / Sprite._framesPerSecond s /\
   ((length (Sprite._frames s) <= S (Sprite.index s))%nat ->
    Sprite.loop s = true ->
    Sprite.index s' = 0%nat /\ Sprite._finished s' = Sprite._finished s) /\
   ((length (Sprite._frames s) <= S (Sprite.index s))%nat ->
    Sprite.loop s = false ->
    Sprite.index s' = Sprite.index s /\ Sprite._finished s' = true) /\
   ((S (Sprite.index s) < length (Sprite._frames s))%nat ->
    Sprite.index s' = S (Sprite.index s) /\
    Sprite._finished s' = Sprite._finished s)) /\
  Sprite._frames s' = Sprite._frames s /\
  Sprite._framesPerSecond s' = Sprite._framesPerSecond s /\
  Sprite.loop s' = Sprite.loop s /\
  Sprite.hb s' = Sprite.hb s.
Proof.
  pose proof (update_cases s dt) as (Quiet & Fire & Rest).
  split; [exact Quiet |].
  split; [intros Neg _; exact (Fire Neg) | exact Rest].
Qed.

(** C2 at a fresh looping sprite of two frames under 12 frames per second:
    after 100 ms the budget 1000/12 is used up and the index is 1. *)
Lemma update_step_witness :
  Sprite.index
    (Sprite.update 100 (Sprite.new (Canvas.mkImage 64 32 (fun _ _ => None)) 1 2))
  = 1%nat.
Proof.
  pose proof (update_step
                (Sprite.new (Canvas.mkImage 64 32 (fun _ _ => None)) 1 2) 100)
    as (_ & Neg & _).
  destruct Neg as (_ & _ & _ & Adv); [reflexivity | discriminate |].
  destruct Adv as [-> _]; [simpl; lia | reflexivity].
Defined.

Lemma changed_iff (value frames : list Z) :
  Sprite.changed value frames = true <->
  length value <> length frames \/
  exists i v, value !! i = Some v /\ frames !! i <> Some v.
Proof.
  unfold Sprite.changed.
  rewrite orb_true_iff, negb_true_iff, Nat.eqb_neq, existsb_exists.
  apply or_iff_compat_l. split.
  - intros ([i v] & Hin & Hne). simpl in Hne.
    apply list_elem_of_In, elem_of_lookup_imap in Hin as (i' & v' & [= -> ->] & Hv).
    apply negb_true_iff, bool_decide_eq_false in Hne. eauto.
  - intros (i & v & Hv & Hne). exists (i, v). split.
    + apply list_elem_of_In, elem_of_lookup_imap. eauto.
    + simpl. now apply negb_true_iff, bool_decide_eq_false.
Qed.

Lemma changed_false_iff (value frames : list Z) :
  Sprite.changed value frames = false <-> value = frames.
Proof.
  split.
  - intros H. apply list_eq_same_length with (length value); [| reflexivity |].
    + destruct (decide (length frames = length value)) as [E | N]; [exact E |].
      assert (Sprite.changed value frames = true) as C; [| congruence].
      apply changed_iff. left. congruence.
    + intros i v w _ Hv Hw.
      destruct (decide (v = w)) as [E | N]; [exact E |].
      assert (Sprite.changed value frames = true) as C; [| congruence].
      apply changed_iff. right. exists i, v. split; [exact Hv | congruence].
  - intros ->.
    destruct (Sprite.changed frames frames) eqn:C; [| reflexivity].
    apply changed_iff in C as [N | (i & v & Hv & N)]; congruence.
Qed.

(** C10.  Assigning [frames]: the index is reset to 0 when the test of
    the setter holds and is kept otherwise; the test holds exactly when
    the assigned array differs from the current one in length or in some
    element, and fails exactly when the two arrays are element-wise
    identical; the assigned array always becomes the current one, and
    nothing else changes. *)
Theorem set_frames_index (s : Sprite.t) (value : list Z) :
  let s' := Sprite.set_frames value s in
  Sprite.index s' =
    (if Sprite.changed value (Sprite._frames s) then 0%nat else Sprite.index s) /\
  (Sprite.changed value (Sprite._frames s) = true <->
   length value <> length (Sprite._frames s) \/
   exists i v, value !! i = Some v /\ Sprite._frames s !! i <> Some v) /\
  (Sprite.changed value (Sprite._frames s) = false <-> value = Sprite._frames s) /\
  (value <> Sprite._frames s -> Sprite.index s' = 0%nat) /\
  (value = Sprite._frames s -> Sprite.index s' = Sprite.index s) /\
  Sprite._frames s' = value /\
  Sprite.remainingTime s' = Sprite.remainingTime s /\
  Sprite._finished s' = Sprite._finished s /\
  Sprite._framesPerSecond s' = Sprite._framesPerSecond s /\
  Sprite.loop s' = Sprite.loop s.
Proof.
  intros s'. subst s'. unfold Sprite.set_frames.
  pose proof (changed_false_iff value (Sprite._frames s)) as F.
  split; [destruct (Sprite.changed _ _); reflexivity |].
  split; [apply changed_iff |].
  split; [exact F |].
  destruct (Sprite.changed value (Sprite._frames s)) eqn:C; simpl.
  - repeat split; try reflexivity.
    intros E. apply F in E. discriminate.
  - repeat split; try reflexivity.
    intros N. exfalso. apply N, F. reflexivity.
Qed.

(** C10 at a sprite standing on index 2 of the frames 0, 1, 2, 3: the same
    frames keep the index, other frames reset it. *)
Lemma set_frames_index_witness :
  Sprite.index
    (Sprite.set_frames [0; 1; 2; 3]%Z
       (Sprite.mk (Hitbox.mk 0 0 8 8) 2 50 [0; 1; 2; 3]%Z false 12 true)) = 2%nat /\
  Sprite.index
    (Sprite.set_frames [0; 1; 3; 2]%Z
       (Sprite.mk (Hitbox.mk 0 0 8 8) 2 50 [0; 1; 2; 3]%Z false 12 true)) = 0%nat.
Proof.
  split.
  - pose proof (set_frames_index
                  (Sprite.mk (Hitbox.mk 0 0 8 8) 2 50 [0; 1; 2; 3]%Z false 12 true)
                  [0; 1; 2; 3]%Z) as (_ & _ & _ & _ & Same & _).
    apply Same. reflexivity.
  - pose proof (set_frames_index
                  (Sprite.mk (Hitbox.mk 0 0 8 8) 2 50 [0; 1; 2; 3]%Z false 12 true)
                  [0; 1; 3; 2]%Z) as (_ & _ & _ & Diff & _).
    apply Diff. discriminate.
Defined.

(** *** Runs of [update()] *)

Lemma fires_true_iff (dt : Q) (s : Sprite.t) :
  Sprite.fires dt s = true <-> Sprite.remainingTime s - dt < 0.
Proof. apply lt_true_iff. Qed.

Lemma fires_false_iff (dt : Q) (s : Sprite.t) :
  Sprite.fires dt s = false <-> 0 <= Sprite.remainingTime s - dt.
Proof. apply lt_false_iff. Qed.

Lemma update_quiet (dt : Q) (s : Sprite.t) :
  Sprite.fires dt s = false ->
  Sprite.update dt s = Sprite.set_remainingTime (Sprite.remainingTime s - dt) s.
Proof. unfold Sprite.fires, Sprite.update. simpl. now intros ->. Qed.

Lemma update_finished_stays (dt : Q) (s : Sprite.t) :
  Sprite._finished s = true -> Sprite._finished (Sprite.update dt s) = true.
Proof.
  intros H. unfold Sprite.update. simpl.
  destruct (Num.lt _ _); [| exact H].
  destruct (Num.ge _ _); [destruct (Sprite.loop s) |]; simpl; auto.
Qed.

Lemma update_loop_unfinished (dt : Q) (s : Sprite.t) :
  Sprite.loop s = true -> Sprite._finished (Sprite.update dt s) = Sprite._finished s.
Proof.
  intros H. unfold Sprite.update. simpl.
  destruct (Num.lt _ _); [| reflexivity].
  destruct (Num.ge _ _); [rewrite H |]; reflexivity.
Qed.

(** One call moves the index by at most one position, or wraps it. *)
Lemma update_index_step (dt : Q) (s : Sprite.t) :
  Sprite.index (Sprite.update dt s) = Sprite.index s \/
  (Sprite.index (Sprite.update dt s) = S (Sprite.index s) /\
   (S (Sprite.index s) < length (Sprite._frames s))%nat) \/
  (Sprite.index (Sprite.update dt s) = 0%nat /\ Sprite.loop s = true /\
   (length (Sprite._frames s) <= S (Sprite.index s))%nat).
Proof.
  pose proof (update_cases s dt) as (Quiet & Fire & _). simpl in Quiet, Fire.
  destruct (Qlt_le_dec (Sprite.remainingTime s - dt) 0) as [Neg | Pos].
  - destruct (Fire Neg) as (_ & Wrap & Stay & Adv).
    destruct (decide (length (Sprite._frames s) <= S (Sprite.index s))%nat) as [L | L].
    + destruct (Sprite.loop s) eqn:El.
      * right. right. destruct (Wrap L eq_refl) as [-> _]. auto.
      * left. now destruct (Stay L eq_refl) as [-> _].
    + right. left. destruct Adv as [-> _]; [lia |]. split; [reflexivity | lia].
  - left. rewrite Quiet by lra. reflexivity.
Qed.

Section Run.

Context (dt : nat -> Q) (s : Sprite.t).

Hypothesis positive : forall n, 0 < dt n.
Hypothesis unbounded : forall B, exists n, B < Sprite.elapsed dt n.

#[local] Abbreviation st := (Sprite.after dt s).

Lemma after_frames (n : nat) : Sprite._frames (st n) = Sprite._frames s.
Proof.
  induction n as [| n IH]; [reflexivity |]. simpl.
  pose proof (update_cases (st n) (dt n)) as (_ & _ & -> & _). exact IH.
Qed.

Lemma after_loop (n : nat) : Sprite.loop (st n) = Sprite.loop s.
Proof.
  induction n as [| n IH]; [reflexivity |]. simpl.
  pose proof (update_cases (st n) (dt n)) as (_ & _ & _ & _ & -> & _). exact IH.
Qed.

Lemma elapsed_le (n m : nat) :
  (n <= m)%nat -> Sprite.elapsed dt n <= Sprite.elapsed dt m.
Proof.
  induction 1 as [| m _ IH]; [lra |]. simpl. pose proof (positive m). lra.
Qed.

(** A stretch of calls none of which uses the budget up only counts the
    budget down. *)
Lemma quiet_stretch (n j : nat) :
  (forall i, (n <= i < n + j)%nat -> Sprite.fires (dt i) (st i) = false) ->
  Sprite.remainingTime (st (n + j)) ==
    Sprite.remainingTime (st n) - (Sprite.elapsed dt (n + j) - Sprite.elapsed dt n) /\
  Sprite.index (st (n + j)) = Sprite.index (st n) /\
  Sprite._finished (st (n + j)) = Sprite._finished (st n).
Proof.
  induction j as [| j IH]; intros Hq.
  - rewrite Nat.add_0_r. split; [lra | auto].
  - destruct IH as (Hr & Hi & Hf); [intros i Hi; apply Hq; lia |].
    rewrite Nat.add_succ_r. simpl.
    rewrite update_quiet by (apply Hq; lia). simpl.
    split; [lra | auto].
Qed.

Lemma first_fire_within (n j : nat) :
  (exists m, (n <= m < n + j)%nat /\ Sprite.fires (dt m) (st m) = true /\
             forall i, (n <= i < m)%nat -> Sprite.fires (dt i) (st i) = false) \/
  (forall i, (n <= i < n + j)%nat -> Sprite.fires (dt i) (st i) = false).
Proof.
  induction j as [| j [IH | IH]].
  - right. intros i Hi. lia.
  - left. destruct IH as (m & Hm & H). exists m. split; [lia | exact H].
  - destruct (Sprite.fires (dt (n + j)) (st (n + j))) eqn:E.
    + left. exists (n + j)%nat. split; [lia |]. split; [exact E |].
      intros i Hi. apply IH. lia.
    + right. intros i Hi.
      destruct (decide (i = n + j)%nat) as [-> | N]; [exact E | apply IH; lia].
Qed.

(** Time goes on: from any call on, a later call uses the budget up, and
    index and [finished] are unchanged up to that call. *)
Lemma next_fire (n : nat) :
  exists m, (n <= m)%nat /\ Sprite.fires (dt m) (st m) = true /\
    forall i, (n <= i <= m)%nat ->
      Sprite.index (st i) = Sprite.index (st n) /\
      Sprite._finished (st i) = Sprite._finished (st n).
Proof.
  destruct (unbounded (Sprite.elapsed dt n + Sprite.remainingTime (st n)))
    as [N HN].
  destruct (first_fire_within n (S (N - n))) as [(m & Hm & Hf & Hq) | Hq].
  - exists m. split; [lia |]. split; [exact Hf |].
    intros i Hi. replace i with (n + (i - n))%nat by lia.
    apply (quiet_stretch n (i - n)). intros k Hk. apply Hq. lia.
  - exfalso.
    destruct (quiet_stretch n (N - n)) as (Hr & _); [intros i Hi; apply Hq; lia |].
    assert (Sprite.fires (dt (n + (N - n))) (st (n + (N - n))) = false) as Hl
      by (apply Hq; lia).
    apply fires_false_iff in Hl.
    pose proof (elapsed_le N (S (n + (N - n))) ltac:(lia)) as Hle.
    simpl in Hle. lra.
Qed.

(** From any call on, the index climbs to each later position of the
    array. *)
Lemma climb (d n0 : nat) :
  (Sprite.index (st n0) + d < length (Sprite._frames s))%nat ->
  exists n, (n0 <= n)%nat /\
            Sprite.index (st n) = (Sprite.index (st n0) + d)%nat /\
            Sprite._finished (st n) = Sprite._finished (st n0).
Proof.
  induction d as [| d IH]; intros Hd.
  - exists n0. split; [lia |]. split; [lia | reflexivity].
  - destruct IH as (n1 & Hn1 & Hi1 & Hf1); [lia |].
    destruct (next_fire n1) as (m & Hm & Hfire & Hsame).
    destruct (Hsame m ltac:(lia)) as [Him Hfm].
    pose proof (update_cases (st m) (dt m)) as (_ & Fire & _).
    simpl in Fire. apply fires_true_iff in Hfire.
    destruct (Fire Hfire) as (_ & _ & _ & Adv).
    rewrite after_frames in Adv. destruct Adv as [Ai Af]; [lia |].
    exists (S m). simpl. split; [lia |]. split; [lia | congruence].
Qed.

Lemma index_in_range (n : nat) :
  Sprite.index s = 0%nat ->
  (Sprite.index (st n) <= length (Sprite._frames s) - 1)%nat.
Proof.
  intros H0. induction n as [| n IH]; [simpl; lia |]. simpl.
  pose proof (update_index_step (dt n) (st n)) as H.
  rewrite after_frames in H. lia.
Qed.

(** A looping sprite comes back to every position again and again. *)
Lemma cycle (k N : nat) :
  Sprite.index s = 0%nat -> Sprite.loop s = true ->
  (k < length (Sprite._frames s))%nat ->
  exists n, (N <= n)%nat /\ Sprite.index (st n) = k.
Proof.
  intros H0 Hloop Hk.
  pose proof (index_in_range N H0) as HN.
  destruct (decide (Sprite.index (st N) <= k)%nat) as [Hle | Hgt].
  - destruct (climb (k - Sprite.index (st N)) N) as (n & Hn & Hi & _); [lia |].
    exists n. split; [exact Hn | lia].
  - destruct (climb (length (Sprite._frames s) - 1 - Sprite.index (st N)) N)
      as (n1 & Hn1 & Hi1 & _); [lia |].
    destruct (next_fire n1) as (m & Hm & Hfire & Hsame).
    destruct (Hsame m ltac:(lia)) as [Him _].
    pose proof (update_cases (st m) (dt m)) as (_ & Fire & _).
    simpl in Fire. apply fires_true_iff in Hfire.
    destruct (Fire Hfire) as (_ & Wrap & _).
    rewrite after_frames, after_loop in Wrap.
    destruct (Wrap ltac:(lia) Hloop) as [Wi _].
    destruct (climb k (S m)) as (n & Hn & Hi & _); [simpl; lia |].
    exists n. split; [lia |]. simpl in Hi. lia.
Qed.

End Run.

(** C3, for a sprite whose rate is not zero (its budget per frame,
    [1000 / framesPerSecond], is then a number), standing on position 0
    and not finished, driven by calls of [update()] whose elapsed times
    are positive and add up beyond every bound (time goes on).
    - In order: a call leaves the index, or advances it by one to a
      position of the array, or (looping sprite at its last position)
      wraps it to 0.
    - Every position: each position [k] of the frames array is reached,
      and before it is first reached only positions below [k] were taken.
    - A non-looping sprite: there is one call [n], made on the last
      position, before which [finished] is false at every moment and after
      which it is true at every moment; so the flag goes from false to true
      exactly once, at the end of the sequence, and never reverts.
    - A looping sprite never becomes finished, and comes back to every
      position again and again. *)
Theorem frames_in_order_finished_once (s : Sprite.t) (dt : nat -> Q) :
  (forall n, 0 < dt n) ->
  (forall B, exists n, B < Sprite.elapsed dt n) ->
  ~ Sprite._framesPerSecond s == 0 ->
  Sprite.index s = 0%nat ->
  Sprite._finished s = false ->
  (forall n,
      Sprite.index (Sprite.after dt s (S n)) = Sprite.index (Sprite.after dt s n) \/
      (Sprite.index (Sprite.after dt s (S n)) = S (Sprite.index (Sprite.after dt s n)) /\
       (S (Sprite.index (Sprite.after dt s n)) < length (Sprite._frames s))%nat) \/
      (Sprite.index (Sprite.after dt s (S n)) = 0%nat /\ Sprite.loop s = true /\
       (length (Sprite._frames s) <= S (Sprite.index (Sprite.after dt s n)))%nat)) /\
  (forall k, (k < length (Sprite._frames s))%nat ->
     exists n, Sprite.index (Sprite.after dt s n) = k /\
               forall m, (m < n)%nat -> (Sprite.index (Sprite.after dt s m) < k)%nat) /\
  (Sprite.loop s = false ->
   exists n,
     Sprite.index (Sprite.after dt s n) = (length (Sprite._frames s) - 1)%nat /\
     (forall m, (m <= n)%nat -> Sprite._finished (Sprite.after dt s m) = false) /\
     (forall m, (n < m)%nat -> Sprite._finished (Sprite.after dt s m) = true)) /\
  (Sprite.loop s = true ->
   (forall n, Sprite._finished (Sprite.after dt s n) = false) /\
   (forall k N, (k < length (Sprite._frames s))%nat ->
      exists n, (N <= n)%nat /\ Sprite.index (Sprite.after dt s n) = k)).
Proof.
  intros Hpos Hunb _ Hi0 Hf0.
  (* once finished, always finished *)
  assert (forall n m, (n <= m)%nat ->
            Sprite._finished (Sprite.after dt s n) = true ->
            Sprite._finished (Sprite.after dt s m) = true) as Mono.
  { intros n m Hle Hn. induction Hle as [| m _ IH]; [exact Hn |].
    simpl. now apply update_finished_stays. }
  (* every position is reached, unfinished, in order *)
  assert (forall k, (k < length (Sprite._frames s))%nat ->
            exists n, Sprite.index (Sprite.after dt s n) = k /\
                      Sprite._finished (Sprite.after dt s n) = false /\
                      forall m, (m < n)%nat ->
                                (Sprite.index (Sprite.after dt s m) < k)%nat) as Reach.
  { induction k as [| k IH]; intros Hk.
    - exists 0%nat. simpl. split; [exact Hi0 |]. split; [exact Hf0 |].
      intros m Hm. lia.
    - destruct IH as (n & Hn & Hfn & Hbefore); [lia |].
      destruct (next_fire dt s Hpos Hunb n) as (m & Hnm & Hfire & Hsame).
      destruct (Hsame m ltac:(lia)) as [Him Hfm]. rewrite Hn in Him. rewrite Hfn in Hfm.
      pose proof (update_cases (Sprite.after dt s m) (dt m)) as (_ & Fire & _).
      simpl in Fire. apply fires_true_iff in Hfire.
      destruct (Fire Hfire) as (_ & _ & _ & Adv).
      rewrite after_frames, Him in Adv. destruct (Adv Hk) as [Ai Af].
      exists (S m). simpl. split; [exact Ai |]. split; [congruence |].
      intros j Hj. destruct (decide (j < n)%nat) as [Hjn | Hjn].
      + specialize (Hbefore j Hjn). lia.
      + destruct (Hsame j ltac:(lia)) as [-> _]. lia. }
  split; [| split; [| split]].
  - intros n. simpl.
    pose proof (update_index_step (dt n) (Sprite.after dt s n)) as H.
    now rewrite after_frames, after_loop in H.
  - intros k Hk. destruct (Reach k Hk) as (n & Hn & _ & Hb). eauto.
  - intros Hloop.
    (* a moment on the last position, not finished *)
    assert (exists n,
              Sprite.index (Sprite.after dt s n) = (length (Sprite._frames s) - 1)%nat /\
              Sprite._finished (Sprite.after dt s n) = false) as (n & Hn & Hfn).
    { destruct (length (Sprite._frames s)) as [| l] eqn:El.
      - exists 0%nat. simpl. auto.
      - destruct (Reach l ltac:(lia)) as (n & Hn & Hfn & _).
        exists n. split; [simpl; lia | exact Hfn]. }
    destruct (next_fire dt s Hpos Hunb n) as (m & Hnm & Hfire & Hsame).
    destruct (Hsame m ltac:(lia)) as [Him Hfm]. rewrite Hn in Him. rewrite Hfn in Hfm.
    pose proof (update_cases (Sprite.after dt s m) (dt m)) as (_ & Fire & _).
    simpl in Fire. apply fires_true_iff in Hfire.
    destruct (Fire Hfire) as (_ & _ & Stay & _).
    rewrite after_frames, after_loop, Him in Stay.
    destruct (Stay ltac:(lia) Hloop) as [_ Sf].
    exists m. split; [exact Him |]. split.
    + intros j Hj.
      destruct (Sprite._finished (Sprite.after dt s j)) eqn:Ej; [| reflexivity].
      pose proof (Mono j m Hj Ej). congruence.
    + intros j Hj. apply (Mono (S m) j Hj). exact Sf.
  - intros Hloop. split.
    + intros n. induction n as [| n IH]; [exact Hf0 |].
      simpl. rewrite update_loop_unfinished; [exact IH | now rewrite after_loop].
    + intros k N Hk. now apply cycle.
Qed.

(** A schedule of frames that each last at least a millisecond adds up
    beyond every bound. *)
Lemma steady_schedule_unbounded (dt : nat -> Q) :
  (forall n, 1 <= dt n) -> forall B, exists n, B < Sprite.elapsed dt n.
Proof.
  intros Hdt B.
  assert (forall n, Num.of_nat n <= Sprite.elapsed dt n) as Hn.
  { induction n as [| n IH]; simpl.
    - apply Qle_refl.
    - unfold Num.of_nat in *. rewrite Nat2Z.inj_succ, <- Z.add_1_r, inject_Z_plus.
      change (inject_Z 1) with 1. pose proof (Hdt n). lra. }
  exists (Z.to_nat (Z.max 0 (Qfloor B + 1))).
  eapply Qlt_le_trans; [apply Qlt_floor |].
  eapply Qle_trans; [| apply Hn].
  unfold Num.of_nat. rewrite <- Zle_Qle. lia.
Qed.

(** C3 at a fresh sprite of two frames made non-looping, under 12 frames
    per second and calls 100 ms apart: position 1 is reached after
    position 0 only, and the flag is raised exactly once, on position 1. *)
Lemma frames_in_order_finished_once_witness :
  (exists n,
      Sprite.index
        (Sprite.after (fun _ => 100)
           (Sprite.set_loop false
              (Sprite.new (Canvas.mkImage 64 32 (fun _ _ => None)) 1 2)) n) = 1%nat) /\
  (exists n,
      Sprite._finished
        (Sprite.after (fun _ => 100)
           (Sprite.set_loop false
              (Sprite.new (Canvas.mkImage 64 32 (fun _ _ => None)) 1 2)) n) = false /\
      Sprite._finished
        (Sprite.after (fun _ => 100)
           (Sprite.set_loop false
              (Sprite.new (Canvas.mkImage 64 32 (fun _ _ => None)) 1 2)) (S n)) = true).
Proof.
  destruct (frames_in_order_finished_once
              (Sprite.set_loop false
                 (Sprite.new (Canvas.mkImage 64 32 (fun _ _ => None)) 1 2))
              (fun _ => 100))
    as (_ & Every & Once & _).
  - intros n. reflexivity.
  - apply steady_schedule_unbounded. intros n. discriminate.
  - discriminate.
  - reflexivity.
  - reflexivity.
  - split.
    + destruct (Every 1%nat) as (n & Hn & _); [simpl; lia |]. exists n. exact Hn.
    + destruct Once as (n & _ & Before & After); [reflexivity |].
      exists n. split; [apply Before; lia | apply After; lia].
Defined.

(** *** Where the frames are not all shown *)

Lemma update_idle_at_rate_zero (n : nat) :
  Sprite64.after (fun _ => 16%float)
    (Sprite64.set_framesPerSecond 0 (Sprite64.new 1 3)) n =
  Sprite64.set_framesPerSecond 0 (Sprite64.new 1 3).
Proof.
  induction n as [| n IH]; [reflexivity |].
  cbn [Sprite64.after]. rewrite IH. vm_compute. reflexivity.
Qed.

(** C3 as stated fails at the rate zero.  A sprite of three frames whose
    [framesPerSecond] is set to 0 has the budget [1000 / 0], which is
    [Infinity]: no elapsed time uses it up, and under calls of [update()]
    16 ms apart the sprite stays on position 0 for ever.  Position 1 is
    never shown. *)
Lemma rate_zero_never_advances :
  ~ exists n,
      Sprite64.index
        (Sprite64.after (fun _ => 16%float)
           (Sprite64.set_framesPerSecond 0 (Sprite64.new 1 3)) n) = 1%nat.
Proof. intros [n H]. rewrite update_idle_at_rate_zero in H. discriminate H. Qed.

Lemma halving_positive (n : nat) : 0 < Sprite.halving n.
Proof.
  induction n as [| n IH]; [reflexivity |]. simpl.
  apply Qlt_shift_div_l; [reflexivity | lra].
Qed.

Lemma halving_elapsed (n : nat) :
  Sprite.elapsed Sprite.halving n + 2 * Sprite.halving n == 2.
Proof.
  induction n as [| n IH]; [reflexivity |].
  cbn [Sprite.elapsed Sprite.halving].
  assert (Sprite.halving n / 2 == Sprite.halving n * (1 # 2)) as E by reflexivity.
  rewrite E. lra.
Qed.

(** Nor are they when time does not go on.  Under calls of [update()]
    whose positive elapsed times halve, 1, 1/2, 1/4, ... ms, less than
    2 ms ever pass, the budget of 1000/12 ms of a new sprite is never
    used up, and the sprite stays on position 0. *)
Lemma halving_never_advances :
  ~ exists n,
      Sprite.index
        (Sprite.after Sprite.halving
           (Sprite.new (Canvas.mkImage 64 32 (fun _ _ => None)) 1 3) n) = 1%nat.
Proof.
  set (s := Sprite.new (Canvas.mkImage 64 32 (fun _ _ => None)) 1 3).
  assert (forall n,
            Sprite.index (Sprite.after Sprite.halving s n) = 0%nat /\
            Sprite.remainingTime (Sprite.after Sprite.halving s n) ==
              1000 / 12 - Sprite.elapsed Sprite.halving n) as Inv.
  { induction n as [| n [Hi Hr]]; [split; reflexivity |].
    pose proof (halving_elapsed n) as He.
    pose proof (halving_positive n) as Hp.
    assert (1000 / 12 == 250 # 3) as E by reflexivity.
    cbn [Sprite.after Sprite.elapsed].
    rewrite update_quiet by (apply fires_false_iff; lra).
    cbn [Sprite.index Sprite.remainingTime Sprite.set_remainingTime].
    split; [exact Hi | lra]. }
  intros [n H]. destruct (Inv n) as [Hi _]. congruence.
Qed.

Lemma nonlooping_index_grows (dt : nat -> Q) (s : Sprite.t) (n : nat) :
  Sprite.loop s = false ->
  (Sprite.index s <= Sprite.index (Sprite.after dt s n))%nat.
Proof.
  intros Hloop. induction n as [| n IH]; [reflexivity |].
  cbn [Sprite.after].
  destruct (update_index_step (dt n) (Sprite.after dt s n))
    as [-> | [[-> _] | (_ & L & _)]]; [exact IH | lia |].
  rewrite (after_loop dt s) in L. congruence.
Qed.

(** Nor does a sprite that does not start on position 0 show the frames
    before its own: a sprite of three frames that has advanced to
    position 1 and is then made non-looping never shows position 0
    again. *)
Lemma late_start_skips_frames :
  ~ exists n,
      Sprite.index
        (Sprite.after (fun _ => 100)
           (Sprite.set_loop false
              (Sprite.update 100
                 (Sprite.new (Canvas.mkImage 64 32 (fun _ _ => None)) 1 3))) n)
      = 0%nat.
Proof.
  intros [n H].
  pose proof (nonlooping_index_grows (fun _ => 100)
                (Sprite.set_loop false
                   (Sprite.update 100
                      (Sprite.new (Canvas.mkImage 64 32 (fun _ _ => None)) 1 3)))
                n eq_refl) as G.
  rewrite H in G. vm_compute in G. lia.
Qed.

(** ** The output check *)

(** Two different strings have a first index at which they differ (one of
    them may end there). *)
Lemma first_difference (s t : list ascii) :
  s <> t ->
  exists d, (d <= Nat.min (length s) (length t))%nat /\
            (forall i, (i < d)%nat -> s !! i = t !! i) /\
            s !! d <> t !! d.
Proof.
  revert t. induction s as [| x s IH]; intros [| y t] Hne.
  - congruence.
  - exists 0%nat. simpl. split; [lia |]. split; [intros i Hi; lia | discriminate].
  - exists 0%nat. simpl. split; [lia |]. split; [intros i Hi; lia | discriminate].
  - destruct (decide (x = y)) as [-> | Hxy].
    + destruct (IH t) as (d & Hd & Hbelow & Hat); [congruence |].
      exists (S d). simpl. split; [lia |]. split; [| exact Hat].
      intros [| i] Hi; [reflexivity | apply Hbelow; lia].
    + exists 0%nat. simpl. split; [lia |]. split; [intros i Hi; lia | congruence].
Qed.

(** With fuel to spare the loop stops on the first difference. *)
Lemma scan_finds (s t : list ascii) (d : nat) :
  (forall i, (i < d)%nat -> s !! i = t !! i) -> s !! d <> t !! d ->
  forall fuel offset, (offset <= d)%nat -> (d < offset + fuel)%nat ->
    IO.scan fuel s t offset = Some d.
Proof.
  intros Hbelow Hat. induction fuel as [| fuel IH]; intros offset Hle Hlt.
  - lia.
  - simpl. destruct (decide (offset = d)) as [-> | Hne].
    + rewrite bool_decide_eq_false_2 by exact Hat. reflexivity.
    + rewrite bool_decide_eq_true_2 by (apply Hbelow; lia).
      apply IH; lia.
Qed.

(** The strings cut at their first difference: the longest common
    prefix. *)
Lemma take_first_difference (s t : list ascii) (d : nat) :
  (forall i, (i < d)%nat -> s !! i = t !! i) -> s !! d <> t !! d ->
  IO.longest_common_prefix (take d s) s t.
Proof.
  intros Hbelow Hat.
  assert (take d s = take d t) as Htake.
  { apply list_eq. intros i. destruct (decide (i < d)%nat) as [Hi | Hi].
    - rewrite !lookup_take_lt by exact Hi. now apply Hbelow.
    - rewrite !lookup_take_ge by lia. reflexivity. }
  split; [apply prefix_take |].
  split; [rewrite Htake; apply prefix_take |].
  intros q Hqs Hqt.
  assert (length q <= d)%nat as Hlen.
  { destruct (decide (length q <= d)%nat) as [H | H]; [exact H | exfalso].
    destruct (lookup_lt_is_Some_2 q d ltac:(lia)) as [c Hc].
    apply Hat.
    rewrite (prefix_lookup_Some _ _ _ _ Hc Hqs), (prefix_lookup_Some _ _ _ _ Hc Hqt).
    reflexivity. }
  destruct Hqs as [k ->].
  rewrite take_app_ge by exact Hlen. apply prefix_app_r. reflexivity.
Qed.

(** C6, as the code has it.  The [load] listener on an [o] parameter
    writes markup, in which the strings stand as they are, not text.
    - When [decodeURIComponent] throws on the parameter, the listener
      ends there: the rule and an empty paragraph are on the panel, and
      nothing is marked.
    - Equal strings: the markup of the response paragraph is the output
      between the tags of a span of class [correct], and the loop is not
      entered.
    - Different strings: with [correct] the longest common prefix of the
      output and the expected output, and [rest] the remainder of the
      output after it, the loop ends (fuel beyond the shorter length is
      enough); the markup of the response paragraph is what the
      paragraph reads back of [correct] between the tags of a span of
      class [correct], followed by [rest] and one space for each
      character by which the expected output is longer, between the tags
      of a span of class [incorrect]; the raw parameter follows in a
      paragraph of its own, between the tags of a span of class
      [correct]. *)
Theorem output_check_markup
    (decodeURIComponent : IO.jsstring -> option IO.jsstring)
    (reread : IO.jsstring -> IO.jsstring) (output oParam : IO.jsstring) :
  (decodeURIComponent oParam = None ->
   forall fuel,
     IO.on_load fuel decodeURIComponent reread output (Some oParam) =
       Some (IO.Throws [IO.Hr; IO.Para []])) /\
  (decodeURIComponent oParam = Some output ->
   forall fuel,
     IO.on_load fuel decodeURIComponent reread output (Some oParam) =
       Some (IO.Returns [IO.Hr; IO.Para (IO.span IO.correct output)])) /\
  (forall oValue,
     decodeURIComponent oParam = Some oValue -> output <> oValue ->
     exists correct rest : IO.jsstring,
       IO.longest_common_prefix correct output oValue /\
       output = correct ++ rest /\
       forall fuel,
         (Nat.min (length output) (length oValue) < fuel)%nat ->
         IO.on_load fuel decodeURIComponent reread output (Some oParam) =
           Some (IO.Returns
                   [IO.Hr;
                    IO.Para
                      (reread (IO.span IO.correct correct) ++
                       IO.span IO.incorrect
                         (rest ++
                          replicate (length oValue - length output) " "%char));
                    IO.Para (IO.span IO.correct oParam)])).
Proof.
  split; [| split].
  - intros E fuel. unfold IO.on_load. rewrite E. reflexivity.
  - intros E fuel. unfold IO.on_load. rewrite E.
    rewrite bool_decide_eq_true_2 by reflexivity. reflexivity.
  - intros oValue E Hne.
    destruct (first_difference _ _ Hne) as (d & Hd & Hbelow & Hat).
    exists (take d output), (drop d output).
    split; [now apply take_first_difference |].
    split; [symmetry; apply take_drop |].
    intros fuel Hfuel. unfold IO.on_load. rewrite E.
    rewrite bool_decide_eq_false_2 by exact Hne.
    rewrite (scan_finds _ _ d Hbelow Hat) by lia. reflexivity.
Qed.

(** C6 at the output [a<b] against the parameter [a<b], which
    [decodeURIComponent] leaves as it is: the strings are equal, and the
    response paragraph is given the markup
    [<span class="correct">a<b</span>], in which [<b] opens a tag. *)
Lemma output_check_markup_witness :
  IO.on_load 0 (fun s : IO.jsstring => Some s) (fun m : IO.jsstring => m)
    (list_ascii_of_string "a<b") (Some (list_ascii_of_string "a<b")) =
  Some (IO.Returns
          [IO.Hr;
           IO.Para
             (list_ascii_of_string "<span class=" ++ [IO.quote] ++
              list_ascii_of_string "correct" ++ [IO.quote] ++
              list_ascii_of_string ">a<b</span>")]).
Proof.
  destruct (output_check_markup (fun s : IO.jsstring => Some s)
              (fun m : IO.jsstring => m)
              (list_ascii_of_string "a<b") (list_ascii_of_string "a<b"))
    as (_ & Equal & _).
  exact (Equal eq_refl 0%nat).
Defined.

(** The markup does not tell the strings apart.  An output that holds the
    closing tag of one span and the opening tag of the next, and equals
    the expected output, gives the response paragraph the very markup of
    a run on different strings, that of the output [xy] against the
    expected [x]: a part of an output that is all as expected is shown
    as incorrect. *)
Lemma equal_output_marked_incorrect
    (decodeURIComponent : IO.jsstring -> option IO.jsstring)
    (reread : IO.jsstring -> IO.jsstring) (output : IO.jsstring) :
  output =
    list_ascii_of_string "x</span><span class=" ++ [IO.quote] ++
    list_ascii_of_string "incorrect" ++ [IO.quote] ++
    list_ascii_of_string ">y" ->
  decodeURIComponent output = Some output ->
  decodeURIComponent (list_ascii_of_string "x") = Some (list_ascii_of_string "x") ->
  reread (IO.span IO.correct (list_ascii_of_string "x")) =
    IO.span IO.correct (list_ascii_of_string "x") ->
  exists markup,
    IO.on_load 2 decodeURIComponent reread output (Some output) =
      Some (IO.Returns [IO.Hr; IO.Para markup]) /\
    IO.on_load 2 decodeURIComponent reread
      (list_ascii_of_string "xy") (Some (list_ascii_of_string "x")) =
      Some (IO.Returns
              [IO.Hr; IO.Para markup;
               IO.Para (IO.span IO.correct (list_ascii_of_string "x"))]).
Proof.
  intros -> Hout Hx Hread. eexists. split.
  - unfold IO.on_load. rewrite Hout.
    rewrite bool_decide_eq_true_2 by reflexivity. reflexivity.
  - unfold IO.on_load. rewrite Hx.
    rewrite bool_decide_eq_false_2 by discriminate.
    cbn [IO.scan]. rewrite bool_decide_eq_true_2 by reflexivity.
    rewrite bool_decide_eq_false_2 by discriminate.
    cbv zeta.
    change (take 1 (list_ascii_of_string "xy")) with (list_ascii_of_string "x").
    rewrite Hread. reflexivity.
Qed.

(** ** The redraw of a cell *)

Lemma between_true (a b p : Q) :
  Canvas.between a b p = true -> (a <= p /\ p < b) \/ (b <= p /\ p < a).
Proof.
  unfold Canvas.between, Num.min, Num.max. intros H.
  destruct (Num.lt b a) eqn:E1, (Num.lt a b) eqn:E2; order_facts; lra.
Qed.




(** The bound of half a pixel is needed.  The colour of a cell is filled
    from half a pixel inside its corner over its sides less one pixel; on
    a cell a quarter of a pixel wide that rectangle reaches three quarters
    of a pixel to the left of its origin, and the point (9.8, 15), left of
    the cell with corner (10, 10), is painted. *)
Lemma cell_fill_escapes_thin_cell :
  ~ Cell.in_bounds (Cell.new 0 0 10 10 (1 # 4) 20 "black") (98 # 10) 15 /\
  Canvas.canvas Canvas.blank (98 # 10) 15 = None /\
  Canvas.canvas
    (Cell.set_color Canvas.boxes (Some "blue"%string)
       (Cell.new 0 0 10 10 (1 # 4) 20 "black") Canvas.blank).2 (98 # 10) 15
  = Some "blue"%string.
Proof.
  split; [| split].
  - unfold Cell.in_bounds. simpl. lra.
  - reflexivity.
  - vm_compute. reflexivity.
Qed.


(** Nor is the text clipped.  With glyphs as boxes, the twelve characters
    of "Hello, world" at the cell's font size of 20 are 144 wide; centred
    on the same cell they ink the point (0, 20), left of the cell. *)
Lemma cell_text_overflows :
  ~ Cell.in_bounds (Cell.new 0 0 10 10 20 20 "black") 0 20 /\
  Canvas.canvas Canvas.blank 0 20 = None /\
  Canvas.canvas
    (Cell.set_text Canvas.boxes (Cell.TextString "Hello, world")
       (Cell.new 0 0 10 10 20 20 "black") Canvas.blank).2 0 20
  = Some "black"%string.
Proof.
  split; [| split].
  - unfold Cell.in_bounds. simpl. lra.
  - reflexivity.
  - vm_compute. reflexivity.
Qed.

(** ** The development server *)

Lemma added_app {A} (m : Server.M A) (s : Server.state) (r : Server.result A)
    (n : nat) (effs : list Server.effect) :
  m s = (r, Server.mkState n (Server.trace s ++ effs)) -> Server.added m s = effs.
Proof.
  intros E. unfold Server.added. rewrite E. simpl.
  rewrite drop_app_length. reflexivity.
Qed.

(** The three ways a call of [buildOnce] can go. *)
Lemma buildOnce_run (c : Server.config) (oracle : nat -> option string)
    (s : Server.state) :
  Server.buildOnce c oracle s =
    match oracle (Server.builds s) with
    | Some err =>
        (Server.Returns tt,
         Server.mkState (S (Server.builds s))
           (Server.trace s ++
            [Server.build_bundle c; Server.ConsoleError (Server.error_args c err)]))
    | None =>
        match oracle (S (Server.builds s)) with
        | Some err =>
            (Server.Returns tt,
             Server.mkState (S (S (Server.builds s)))
               (Server.trace s ++
                [Server.build_bundle c; Server.build_balder c;
                 Server.ConsoleError (Server.error_args c err)]))
        | None =>
            (Server.Returns tt,
             Server.mkState (S (S (Server.builds s)))
               (Server.trace s ++
                [Server.build_bundle c; Server.build_balder c;
                 Server.ConsoleLog "Built → bundle.js + balder.js";
                 Server.BrowserSyncReload]))
        end
    end.
Proof.
  unfold Server.buildOnce, Server.try_catch, Server.bind, Server.esbuild_build,
    Server.emit, Server.build_bundle, Server.build_balder.
  simpl. destruct (oracle (Server.builds s)) as [err |]; simpl.
  - now rewrite <- app_assoc.
  - destruct (oracle (S (Server.builds s))) as [err |]; simpl;
      now rewrite <- !app_assoc.
Qed.

Lemma buildOnce_effects (c : Server.config) (oracle : nat -> option string)
    (s : Server.state) :
  exists n effs,
    Server.buildOnce c oracle s =
      (Server.Returns tt, Server.mkState n (Server.trace s ++ effs)) /\
    length (List.filter Server.is_bundle_build effs) = 1%nat.
Proof.
  rewrite buildOnce_run.
  destruct (oracle (Server.builds s)); [| destruct (oracle (S (Server.builds s)))];
    eexists _, _; (split; [reflexivity |]); reflexivity.
Qed.

Lemma watch_effects (c : Server.config) (oracle : nat -> option string)
    (events : list Server.fs_event) (s : Server.state) :
  exists n effs,
    Server.watch c oracle events s =
      (Server.Returns tt, Server.mkState n (Server.trace s ++ effs)) /\
    length (List.filter Server.is_bundle_build effs) = length events.
Proof.
  revert s. induction events as [| e events IH]; intros s.
  - exists (Server.builds s), []. simpl. unfold Server.ret.
    rewrite app_nil_r. destruct s; auto.
  - simpl. unfold Server.bind at 1. unfold Server.on_all, Server.bind at 1.
    unfold Server.emit at 1.
    match goal with
    | |- context [Server.buildOnce c oracle ?s1] =>
        destruct (buildOnce_effects c oracle s1) as (n1 & effs1 & -> & H1);
        simpl
    end.
    match goal with
    | |- context [Server.watch c oracle events ?s2] =>
        destruct (IH s2) as (n2 & effs2 & -> & H2); simpl
    end.
    eexists n2, (_ :: effs1 ++ effs2). split.
    + rewrite <- !app_assoc. reflexivity.
    + simpl. rewrite List.filter_app, length_app. lia.
Qed.

(** C8.  Whatever [esbuild.build] does:
    - a call of [buildOnce] returns normally;
    - when the first build is rejected with [err], the call does nothing
      more than report [err] with [console.error]: no second build, no
      reload, no further attempt;
    - when the second build is rejected, likewise after the two builds;
    - when both are fulfilled, the call logs and reloads the browser;
    - the watcher returns normally over any sequence of file events and
      starts one build per event, whichever builds were rejected before;
    - so does the whole script, with its initial build. *)
Theorem buildOnce_contains_failure (c : Server.config) (oracle : nat -> option string) :
  (forall s, (Server.buildOnce c oracle s).1 = Server.Returns tt) /\
  (forall s err,
      oracle (Server.builds s) = Some err ->
      Server.added (Server.buildOnce c oracle) s =
        [Server.build_bundle c; Server.ConsoleError (Server.error_args c err)]) /\
  (forall s err,
      oracle (Server.builds s) = None -> oracle (S (Server.builds s)) = Some err ->
      Server.added (Server.buildOnce c oracle) s =
        [Server.build_bundle c; Server.build_balder c;
         Server.ConsoleError (Server.error_args c err)]) /\
  (forall s,
      oracle (Server.builds s) = None -> oracle (S (Server.builds s)) = None ->
      Server.added (Server.buildOnce c oracle) s =
        [Server.build_bundle c; Server.build_balder c;
         Server.ConsoleLog "Built → bundle.js + balder.js";
         Server.BrowserSyncReload]) /\
  (forall events s,
      (Server.watch c oracle events s).1 = Server.Returns tt /\
      length (List.filter Server.is_bundle_build
                (Server.added (Server.watch c oracle events) s)) = length events) /\
  (forall events s,
      (Server.main c oracle events s).1 = Server.Returns tt /\
      length (List.filter Server.is_bundle_build
                (Server.added (Server.main c oracle events) s)) = S (length events)).
Proof.
  split; [| split; [| split; [| split; [| split]]]].
  - intros s. rewrite buildOnce_run.
    destruct (oracle (Server.builds s)); [| destruct (oracle (S (Server.builds s)))];
      reflexivity.
  - intros s err E. eapply added_app. rewrite buildOnce_run, E. reflexivity.
  - intros s err E1 E2. eapply added_app. rewrite buildOnce_run, E1, E2. reflexivity.
  - intros s E1 E2. eapply added_app. rewrite buildOnce_run, E1, E2. reflexivity.
  - intros events s.
    destruct (watch_effects c oracle events s) as (n & effs & E & H).
    rewrite (added_app _ _ _ _ _ E), E. auto.
  - intros events s.
    destruct (buildOnce_effects c oracle s) as (n1 & effs1 & E1 & H1).
    assert (exists n effs,
              Server.main c oracle events s =
                (Server.Returns tt, Server.mkState n (Server.trace s ++ effs)) /\
              length (List.filter Server.is_bundle_build effs) = S (length events))
      as (n & effs & E & H).
    { unfold Server.main, Server.bind at 1. rewrite E1.
      unfold Server.bind at 1, Server.emit at 1. simpl.
      match goal with
      | |- context [Server.watch c oracle events ?s2] =>
          destruct (watch_effects c oracle events s2) as (n2 & effs2 & -> & H2);
          simpl
      end.
      exists n2, (effs1 ++ Server.ConsoleLog "Initial build complete." :: effs2). split.
      - rewrite <- !app_assoc. reflexivity.
      - rewrite List.filter_app, length_app. simpl. lia. }
    rewrite (added_app _ _ _ _ _ E), E. auto.
Qed.

(** C8 at the first edition of the script in development mode, with an
    [esbuild] that rejects its first call: the initial build only reports
    the error. *)
Lemma buildOnce_contains_failure_witness :
  Server.added
    (Server.buildOnce
       (Server.mkConfig Server.first_edition true "/home/app")
       (fun n => if (n =? 0)%nat then Some "boom"%string else None))
    Server.initial =
  [Server.EsbuildBuild "/home/app/default/app.ts" "/home/app/.dev/bundle.js" true;
   Server.ConsoleError ["Build failed:"%string; "boom"%string]].
Proof.
  pose proof (buildOnce_contains_failure
                (Server.mkConfig Server.first_edition true "/home/app")
                (fun n => if (n =? 0)%nat then Some "boom"%string else None))
    as (_ & Fail & _).
  apply (Fail Server.initial "boom"%string). reflexivity.
Defined.

(** * Further properties *)

(** ** Keyboard *)

Lemma partner_irreflexive (c : string) : Keyboard.partner c <> Some c.
Proof.
  unfold Keyboard.partner.
  destruct (String.eqb_spec c "ShiftLeft") as [-> | ?]; [discriminate |].
  destruct (String.eqb_spec c "ShiftRight") as [-> | ?]; [discriminate |].
  destruct (String.eqb_spec c "NumpadEnter") as [-> | ?]; [discriminate |].
  destruct (String.eqb_spec c "Enter") as [-> | ?]; discriminate.
Qed.

Lemma keyup_lookup (c code : string) (k : Keyboard.t) :
  Keyboard._keys (Keyboard.keyup c k) !! code =
    if bool_decide (c = code \/ Keyboard.partner c = Some code) then Some None
    else Keyboard._keys k !! code.
Proof.
  unfold Keyboard.keyup. simpl.
  destruct (Keyboard.partner c) as [p |] eqn:Ep.
  - destruct (decide (p = code)) as [-> | Hp].
    + rewrite lookup_insert_eq, bool_decide_eq_true_2 by auto. reflexivity.
    + rewrite lookup_insert_ne by exact Hp.
      destruct (decide (c = code)) as [-> | Hc].
      * rewrite lookup_insert_eq, bool_decide_eq_true_2 by auto. reflexivity.
      * rewrite lookup_insert_ne by exact Hc.
        rewrite bool_decide_eq_false_2; [reflexivity |].
        intros [? | [= ?]]; congruence.
  - destruct (decide (c = code)) as [-> | Hc].
    + rewrite lookup_insert_eq, bool_decide_eq_true_2 by auto. reflexivity.
    + rewrite lookup_insert_ne by exact Hc.
      rewrite bool_decide_eq_false_2; [reflexivity |].
      intros [? | ?]; congruence.
Qed.

Lemma releases_keyup (c code : string) :
  Keyboard.releases code (Keyboard.KeyUp c) = true <->
  c = code \/ Keyboard.partner c = Some code.
Proof.
  simpl. rewrite orb_true_iff, bool_decide_eq_true.
  destruct (String.eqb_spec c code); intuition congruence.
Qed.

Lemma consumed_preserved (code : string) (e : Keyboard.event) (k : Keyboard.t) :
  Keyboard.releases code e = false ->
  Keyboard._keys k !! code = Some (Some false) ->
  Keyboard.step k e = (if e is Keyboard.KeyDown c
                       then if bool_decide (c = code) then k else Keyboard.step k e
                       else Keyboard.step k e) /\
  Keyboard._keys (Keyboard.step k e) !! code = Some (Some false).
Proof.
  intros Hrel Hk. destruct e as [c | c | | c]; cbn [Keyboard.step].
  - unfold Keyboard.keydown. destruct (decide (c = code)) as [-> | Hc].
    + rewrite bool_decide_eq_true_2 by reflexivity.
      rewrite decide_True by exact Hk. auto.
    + rewrite bool_decide_eq_false_2 by exact Hc. split; [reflexivity |].
      destruct (decide _); [exact Hk |]. simpl.
      now rewrite lookup_insert_ne.
  - split; [reflexivity |]. rewrite keyup_lookup.
    rewrite bool_decide_eq_false_2; [exact Hk |].
    intros H. apply releases_keyup in H. congruence.
  - discriminate.
  - split; [reflexivity |]. unfold Keyboard.reset. simpl.
    destruct (decide (c = code)) as [-> | Hc].
    + now rewrite lookup_insert_eq.
    + now rewrite lookup_insert_ne.
Qed.

(** X1.  A key that the program has consumed by writing [false] through
    its setter reads [false] whatever happens next, a repeated [keydown]
    of the key included, as long as no event releases it (the [keyup] of
    the key or of its partner key, or [blur]); a [keydown] of the key is
    then ignored altogether, leaving [keyName] as it was.  Once an event
    has released it, the next [keydown] makes it read [true]. *)
Theorem consumed_key_reads_false (code : string) (events : list Keyboard.event)
    (k : Keyboard.t) :
  forallb (fun e => negb (Keyboard.releases code e)) events = true ->
  Keyboard.get code (Keyboard.run events (Keyboard.reset code k)) = false /\
  Keyboard.keydown code (Keyboard.run events (Keyboard.reset code k)) =
    Keyboard.run events (Keyboard.reset code k) /\
  (forall e, Keyboard.releases code e = true ->
     Keyboard.get code
       (Keyboard.keydown code
          (Keyboard.step (Keyboard.run events (Keyboard.reset code k)) e)) = true).
Proof.
  intros Hev.
  assert (Keyboard._keys (Keyboard.run events (Keyboard.reset code k)) !! code =
            Some (Some false)) as Hinv.
  { unfold Keyboard.run.
    assert (Keyboard._keys (Keyboard.reset code k) !! code = Some (Some false)) as H0
      by (simpl; apply lookup_insert_eq).
    revert H0. generalize (Keyboard.reset code k) as k0.
    induction events as [| e events IH]; intros k0 H0; [exact H0 |].
    simpl in Hev. apply andb_true_iff in Hev as [He Hev]. simpl.
    apply IH; [exact Hev |].
    apply consumed_preserved; [now apply negb_true_iff | exact H0]. }
  split; [| split].
  - unfold Keyboard.get. rewrite Hinv. reflexivity.
  - unfold Keyboard.keydown. now rewrite decide_True.
  - intros e He. set (k1 := Keyboard.run events (Keyboard.reset code k)) in *.
    assert (Keyboard._keys (Keyboard.step k1 e) !! code <> Some (Some false)) as Hfree.
    { destruct e as [c | c | | c]; [discriminate He | | | discriminate He].
      - cbn [Keyboard.step]. rewrite keyup_lookup. apply releases_keyup in He.
        rewrite bool_decide_eq_true_2 by exact He. discriminate.
      - simpl. rewrite lookup_empty. discriminate. }
    unfold Keyboard.keydown. rewrite decide_False by exact Hfree.
    unfold Keyboard.get. simpl. rewrite lookup_insert_eq. reflexivity.
Qed.

(** X1 at the space bar consumed and then held down with auto-repeat while
    another key goes down and up. *)
Lemma consumed_key_reads_false_witness :
  Keyboard.get "Space"
    (Keyboard.run [Keyboard.KeyDown "Space"; Keyboard.KeyDown "KeyA";
                   Keyboard.KeyUp "KeyA"; Keyboard.KeyDown "Space"]
       (Keyboard.reset "Space" (Keyboard.keydown "Space" Keyboard.initial)))
  = false.
Proof.
  apply (consumed_key_reads_false "Space"
           [Keyboard.KeyDown "Space"; Keyboard.KeyDown "KeyA";
            Keyboard.KeyUp "KeyA"; Keyboard.KeyDown "Space"]
           (Keyboard.keydown "Space" Keyboard.initial)).
  reflexivity.
Defined.

(** X2.  [keyboard.pressed] is true exactly when some key reads [true];
    after [blur] no key reads [true], [pressed] is false, and every key,
    consumed or not, is taken as pressed by its next [keydown]. *)
Theorem pressed_iff_some_key (k : Keyboard.t) :
  (Keyboard.pressed k = true <-> exists code, Keyboard.get code k = true) /\
  Keyboard.pressed (Keyboard.blur k) = false /\
  (forall code, Keyboard.get code (Keyboard.blur k) = false) /\
  (forall code,
     Keyboard.get code (Keyboard.keydown code (Keyboard.blur k)) = true /\
     Keyboard._keyName (Keyboard.keydown code (Keyboard.blur k)) = Some code).
Proof.
  split; [| split; [| split]].
  - unfold Keyboard.pressed, Keyboard.get. rewrite existsb_exists. split.
    + intros ([code v] & Hin & Hv). simpl in Hv.
      apply bool_decide_eq_true in Hv. subst v.
      apply list_elem_of_In, elem_of_map_to_list in Hin.
      exists code. now apply bool_decide_eq_true.
    + intros (code & H). apply bool_decide_eq_true in H.
      exists (code, Some true). split.
      * now apply list_elem_of_In, elem_of_map_to_list.
      * now apply bool_decide_eq_true.
  - unfold Keyboard.pressed, Keyboard.blur. simpl.
    now rewrite map_to_list_empty.
  - intros code. unfold Keyboard.get, Keyboard.blur. simpl.
    now rewrite lookup_empty.
  - intros code. unfold Keyboard.keydown, Keyboard.blur, Keyboard.get. simpl.
    rewrite lookup_empty. simpl. rewrite lookup_insert_eq. auto.
Qed.

(** X2 with the key A held: [pressed] is true. *)
Lemma pressed_iff_some_key_witness :
  Keyboard.pressed (Keyboard.keydown "KeyA" Keyboard.initial) = true.
Proof.
  apply (proj2 (proj1 (pressed_iff_some_key
                         (Keyboard.keydown "KeyA" Keyboard.initial)))).
  exists "KeyA"%string. reflexivity.
Defined.

(** X3.  [keyup] releases the key and its partner and nothing else: after
    the [keyup] of [c], the key [c] and the partner of [c] (the other
    Shift, the other Enter) hold [null], and every other key holds what it
    held.  In particular a Shift or Enter key consumed by the program is
    re-armed by the [keyup] of the other one. *)
Theorem keyup_releases_pair (c : string) (k : Keyboard.t) :
  Keyboard._keys (Keyboard.keyup c k) !! c = Some None /\
  (forall p, Keyboard.partner c = Some p ->
     Keyboard._keys (Keyboard.keyup c k) !! p = Some None /\
     Keyboard.get p (Keyboard.keydown p (Keyboard.keyup c (Keyboard.reset p k))) = true) /\
  (forall code, code <> c -> Keyboard.partner c <> Some code ->
     Keyboard._keys (Keyboard.keyup c k) !! code = Keyboard._keys k !! code) /\
  Keyboard._keyName (Keyboard.keyup c k) = Keyboard._keyName k /\
  Keyboard.partner "ShiftLeft" = Some "ShiftRight"%string /\
  Keyboard.partner "ShiftRight" = Some "ShiftLeft"%string /\
  Keyboard.partner "Enter" = Some "NumpadEnter"%string /\
  Keyboard.partner "NumpadEnter" = Some "Enter"%string.
Proof.
  split; [| split; [| split; [| split]]].
  - rewrite keyup_lookup, bool_decide_eq_true_2 by auto. reflexivity.
  - intros p Hp. split.
    + rewrite keyup_lookup, bool_decide_eq_true_2 by auto. reflexivity.
    + unfold Keyboard.keydown. rewrite decide_False.
      * unfold Keyboard.get. simpl. now rewrite lookup_insert_eq.
      * rewrite keyup_lookup, bool_decide_eq_true_2 by auto. discriminate.
  - intros code Hc Hp. rewrite keyup_lookup, bool_decide_eq_false_2; [reflexivity |].
    intros [? | ?]; congruence.
  - reflexivity.
  - repeat split.
Qed.

(** X3 at the right Shift key consumed and then released through the left
    one. *)
Lemma keyup_releases_pair_witness :
  Keyboard.get "ShiftRight"
    (Keyboard.keydown "ShiftRight"
       (Keyboard.keyup "ShiftLeft"
          (Keyboard.reset "ShiftRight" Keyboard.initial))) = true.
Proof.
  pose proof (keyup_releases_pair "ShiftLeft" Keyboard.initial) as (_ & Pair & _).
  apply (Pair "ShiftRight"%string). reflexivity.
Defined.

(** ** Pointer events *)

Lemma assign_lookup {A} (i j : nat) (v : option A) (a : list (option A)) :
  Pointer.assign i v a !! j =
    if decide (j = i) then Some v
    else if decide (j < length a)%nat then a !! j
    else if decide (j < i)%nat then Some None
    else None.
Proof.
  unfold Pointer.assign. destruct (decide (i < length a)%nat) as [Hi | Hi].
  - destruct (decide (j = i)) as [-> | Hj].
    + now apply list_lookup_insert_eq.
    + rewrite list_lookup_insert_ne by congruence.
      destruct (decide (j < length a)%nat) as [Hl | Hl]; [reflexivity |].
      rewrite lookup_ge_None_2 by lia.
      destruct (decide (j < i)%nat); [lia | reflexivity].
  - destruct (decide (j < length a)%nat) as [Hl | Hl].
    + rewrite lookup_app_l by exact Hl.
      destruct (decide (j = i)); [lia | reflexivity].
    + rewrite lookup_app_r by lia.
      destruct (decide (j < i)%nat) as [Hji | Hji].
      * rewrite lookup_app_l by (rewrite length_replicate; lia).
        rewrite lookup_replicate_2 by lia.
        destruct (decide (j = i)); [lia | reflexivity].
      * rewrite lookup_app_r by (rewrite length_replicate; lia).
        rewrite length_replicate.
        destruct (decide (j = i)) as [-> | Hne].
        -- now replace (i - length a - (i - length a))%nat with 0%nat by lia.
        -- replace (j - length a - (i - length a))%nat with (S (j - S i)) by lia.
           reflexivity.
Qed.

Lemma some_button_iff (i : Input.t) :
  Input.some_button i = true <-> exists b, Input._buttons i !! b = Some (Some true).
Proof.
  unfold Input.some_button. rewrite existsb_exists. split.
  - intros (v & Hin & Hv). apply list_elem_of_In, list_elem_of_lookup in Hin as [b Hb].
    exists b. destruct v as [[|] |]; try discriminate. exact Hb.
  - intros (b & Hb). exists (Some true). split; [| reflexivity].
    apply list_elem_of_In, list_elem_of_lookup. eauto.
Qed.

Lemma some_button_false_iff (i : Input.t) :
  Input.some_button i = false <-> forall b, Input._buttons i !! b <> Some (Some true).
Proof.
  destruct (Input.some_button i) eqn:E.
  - apply some_button_iff in E as [b Hb]. split; [discriminate |].
    intros H. exfalso. exact (H b Hb).
  - split; [| reflexivity]. intros _ b Hb.
    assert (Input.some_button i = true) by (apply some_button_iff; eauto).
    congruence.
Qed.

Lemma reads_app {A} (get : Input.t -> A -> bool * A) (l1 l2 : list Input.t) (a : A) :
  reads get (l1 ++ l2) a =
    ((reads get l1 a).1 ++ (reads get l2 (reads get l1 a).2).1,
     (reads get l2 (reads get l1 a).2).2).
Proof.
  revert a. induction l1 as [| i l1 IH]; intros a; simpl.
  - now destruct (reads get l2 a).
  - destruct (get i a) as [b a1]. rewrite IH.
    destruct (reads get l1 a1) as [bs1 a2]. simpl.
    now destruct (reads get l2 a2).
Qed.

Lemma mousedown_touch (b : nat) (i : Input.t) :
  Input._touches (Pointer.mousedown b i) = Input._touches i /\
  Input._touchable (Pointer.mousedown b i) = Input._touchable i /\
  Input._mouseX (Pointer.mousedown b i) = Input._mouseX i /\
  Input._mouseY (Pointer.mousedown b i) = Input._mouseY i.
Proof. unfold Pointer.mousedown. destruct (decide _); auto. Qed.

Lemma mousedown_buttons (b : nat) (i : Input.t) :
  mjoin (Input._buttons i !! b) <> Some false ->
  Input._buttons (Pointer.mousedown b i) =
    Pointer.assign b (Some true) (Input._buttons i).
Proof. intros H. unfold Pointer.mousedown. now rewrite decide_False. Qed.

Lemma touched_no_touches (i : Input.t) :
  Input._touches i = [] -> Input.touched i = false.
Proof. intros H. unfold Input.touched. rewrite H. apply andb_false_r. Qed.

Lemma down_mouse (i : Input.t) (b : nat) :
  Input._touches i = [] -> Input._buttons i !! b = Some (Some true) ->
  Input.down i = true /\
  Input.point_x i = Input._mouseX i /\ Input.point_y i = Input._mouseY i.
Proof.
  intros Ht Hb. unfold Input.down, Input.point_x, Input.point_y.
  rewrite (touched_no_touches i Ht). simpl. split; [| auto].
  apply some_button_iff. eauto.
Qed.

(** The pointer state of a press: nothing touches the screen, and the
    button [b] goes down at the point (x, y) while no other button is
    down. *)
Section Press.

Context (i0 : Input.t) (b : nat) (x y : Q).

Hypothesis no_touch : Input._touches i0 = [].
Hypothesis no_button : Input.some_button i0 = false.
Hypothesis not_consumed : mjoin (Input._buttons i0 !! b) <> Some false.

#[local] Abbreviation held := (Pointer.mousedown b (Pointer.mousemove x y i0)).
#[local] Abbreviation released := (Pointer.mouseup b held).
#[local] Abbreviation held_again := (Pointer.mousedown b released).

Lemma held_down :
  Input.down held = true /\ Input.point_x held = x /\ Input.point_y held = y.
Proof.
  destruct (mousedown_touch b (Pointer.mousemove x y i0)) as (Ht & _ & Hx & Hy).
  destruct (down_mouse held b) as (Hd & Hpx & Hpy).
  - rewrite Ht. exact no_touch.
  - rewrite mousedown_buttons by exact not_consumed.
    rewrite assign_lookup. now rewrite decide_True.
  - rewrite Hpx, Hpy, Hx, Hy. auto.
Qed.

Lemma released_free : mjoin (Input._buttons released !! b) <> Some false.
Proof.
  unfold Pointer.mouseup. simpl. rewrite assign_lookup, decide_True by reflexivity.
  discriminate.
Qed.

Lemma released_up : Input.down released = false.
Proof.
  destruct (mousedown_touch b (Pointer.mousemove x y i0)) as (Ht & _).
  unfold Input.down. rewrite touched_no_touches.
  - simpl. apply some_button_false_iff. intros j.
    unfold Pointer.mouseup. simpl. rewrite assign_lookup.
    destruct (decide (j = b)); [discriminate |].
    rewrite mousedown_buttons by exact not_consumed.
    destruct (decide _) as [Hl | Hl].
    + rewrite assign_lookup. rewrite decide_False by assumption.
      pose proof (proj1 (some_button_false_iff i0) no_button j) as H.
      destruct (decide _); [exact H |].
      destruct (decide _); discriminate.
    + destruct (decide _); discriminate.
  - unfold Pointer.mouseup. simpl. rewrite Ht. exact no_touch.
Qed.

Lemma held_again_down :
  Input.down held_again = true /\
  Input.point_x held_again = x /\ Input.point_y held_again = y.
Proof.
  destruct (mousedown_touch b (Pointer.mousemove x y i0)) as (Ht & _ & Hx & Hy).
  destruct (mousedown_touch b released) as (Ht2 & _ & Hx2 & Hy2).
  destruct (down_mouse held_again b) as (Hd & Hpx & Hpy).
  - rewrite Ht2. unfold Pointer.mouseup. simpl. rewrite Ht. exact no_touch.
  - rewrite mousedown_buttons by exact released_free.
    rewrite assign_lookup. now rewrite decide_True.
  - rewrite Hpx, Hpy, Hx2, Hy2. unfold Pointer.mouseup. simpl.
    rewrite Hx, Hy. auto.
Qed.

End Press.

(** X4.  A press activates once, and again after a release.  With no
    touch and no button down, the mouse moves to (x, y) over a cell of an
    armed grid and a button that the program has not consumed goes down:
    however many times [activated] is read while the button is held, the
    first read is [true] and the others [false]; a read after [mouseup] is
    [false]; and the first read after the button has gone down again is
    [true].  The same holds of a button whose hitbox contains (x, y). *)
Theorem press_activates_once
    (i0 : Input.t) (b : nat) (x y : Q) (n : nat) :
  Input._touches i0 = [] ->
  Input.some_button i0 = false ->
  mjoin (Input._buttons i0 !! b) <> Some false ->
  (forall (g : Grid.t) (c : Cell.t),
     Grid.activatable g = true ->
     Grid.cellFromPoint g x y = Some c ->
     (reads Grid.activated
        (replicate (S n) (Pointer.mousedown b (Pointer.mousemove x y i0)) ++
         [Pointer.mouseup b (Pointer.mousedown b (Pointer.mousemove x y i0));
          Pointer.mousedown b
            (Pointer.mouseup b (Pointer.mousedown b (Pointer.mousemove x y i0)))])
        g).1 = true :: replicate n false ++ [false; true]) /\
  (forall (bt : Button.t),
     Button.activatable bt = true ->
     Hitbox.contains (Button.hb bt) x y = true ->
     (reads Button.activated
        (replicate (S n) (Pointer.mousedown b (Pointer.mousemove x y i0)) ++
         [Pointer.mouseup b (Pointer.mousedown b (Pointer.mousemove x y i0));
          Pointer.mousedown b
            (Pointer.mouseup b (Pointer.mousedown b (Pointer.mousemove x y i0)))])
        bt).1 = true :: replicate n false ++ [false; true]).
Proof.
  intros Ht Hb Hc.
  destruct (held_down i0 b x y Ht Hc) as (Hdown & Hx & Hy).
  pose proof (released_up i0 b x y Ht Hb Hc) as Hup.
  destruct (held_again_down i0 b x y Ht) as (Hdown2 & Hx2 & Hy2).
  set (held := Pointer.mousedown b (Pointer.mousemove x y i0)) in *.
  set (released := Pointer.mouseup b held) in *.
  set (again := Pointer.mousedown b released) in *.
  split.
  - intros g c Ha Hcell.
    set (g1 := Grid.set_activeCell c (Grid.set_activatable false g)).
    assert (Grid.activated held g = (true, g1)) as E1.
    { unfold Grid.activated. rewrite Hdown, Ha, Hx, Hy.
      change (Grid.cellFromPoint (Grid.set_activatable false g))
        with (Grid.cellFromPoint g).
      now rewrite Hcell. }
    assert (Grid.activated released g1 = (false, Grid.set_activatable true g1)) as E2.
    { unfold Grid.activated. now rewrite Hup. }
    assert ((Grid.activated again (Grid.set_activatable true g1)).1 = true) as E3.
    { unfold Grid.activated. rewrite Hdown2, Hx2, Hy2. cbn [Grid.activatable Grid.set_activatable].
      change (Grid.cellFromPoint _ x y) with (Grid.cellFromPoint g x y).
      now rewrite Hcell. }
    rewrite reads_app. cbn [replicate].
    rewrite (reads_held Grid.activated Grid.activatable
               grid_held_disarms grid_held_inert held (replicate n held) g)
      by (apply Forall_cons; split; [exact Hdown | now apply Forall_replicate]).
    rewrite length_replicate, E1. cbn [fst snd reads]. rewrite E2.
    destruct (Grid.activated again (Grid.set_activatable true g1)) as [r g3].
    cbn [fst snd] in *. now rewrite E3.
  - intros bt Ha Hin.
    set (b1 := Button.set_activatable false bt).
    assert (Button.activated held bt = (true, b1)) as E1.
    { unfold Button.activated. rewrite Hdown, Ha, Hx, Hy.
      cbn [Button.hb Button.set_activatable]. now rewrite Hin. }
    assert (Button.activated released b1 = (false, Button.set_activatable true b1)) as E2.
    { unfold Button.activated. now rewrite Hup. }
    assert ((Button.activated again (Button.set_activatable true b1)).1 = true) as E3.
    { unfold Button.activated. rewrite Hdown2, Hx2, Hy2.
      cbn [Button.activatable Button.hb Button.set_activatable b1]. exact Hin. }
    rewrite reads_app. cbn [replicate].
    rewrite (reads_held Button.activated Button.activatable
               button_held_disarms button_held_inert held (replicate n held) bt)
      by (apply Forall_cons; split; [exact Hdown | now apply Forall_replicate]).
    rewrite length_replicate, E1. cbn [fst snd reads]. rewrite E2.
    destruct (Button.activated again (Button.set_activatable true b1)) as [r b3].
    cbn [fst snd] in *. now rewrite E3.
Qed.

(** X4 at the grid of 2 by 3 cells: the left button pressed on (15, 12),
    read three times, released, read, pressed again and read. *)
Lemma press_activates_once_witness :
  exists g, Grid.new 2 3 0 0 31 21 "black" = Some g /\
    (reads Grid.activated
       (replicate 3 (Pointer.mousedown 0 (Pointer.mousemove 15 12 Pointer.initial)) ++
        [Pointer.mouseup 0 (Pointer.mousedown 0 (Pointer.mousemove 15 12 Pointer.initial));
         Pointer.mousedown 0
           (Pointer.mouseup 0
              (Pointer.mousedown 0 (Pointer.mousemove 15 12 Pointer.initial)))])
       g).1 = [true; false; false; false; true].
Proof.
  destruct (Grid.new 2 3 0 0 31 21 "black") as [g |] eqn:E; [| discriminate].
  exists g. split; [reflexivity |].
  destruct (Grid.cellFromPoint g 15 12) as [c |] eqn:Ec;
    [| vm_compute in E; injection E as <-; discriminate].
  destruct (press_activates_once Pointer.initial 0 15 12 2) as [OnGrid _].
  - reflexivity.
  - reflexivity.
  - discriminate.
  - apply (OnGrid g c); [| exact Ec].
    vm_compute in E. injection E as <-. reflexivity.
Defined.

Lemma consumed_button_preserved (b : nat) (e : Pointer.event) (i : Input.t) :
  Pointer.releases_button b e = false ->
  mjoin (Input._buttons i !! b) = Some false ->
  mjoin (Input._buttons (Pointer.step i e) !! b) = Some false.
Proof.
  intros Hrel Hb.
  assert (b < length (Input._buttons i))%nat as Hlen.
  { apply lookup_lt_is_Some. destruct (Input._buttons i !! b); [eauto | discriminate]. }
  assert (forall b' v, b' <> b ->
            mjoin (Pointer.assign b' v (Input._buttons i) !! b) = Some false) as Hother.
  { intros b' v Hne. rewrite assign_lookup, decide_False by congruence.
    now rewrite decide_True by exact Hlen. }
  destruct e as [b' | b' | x y | | ts | | |]; cbn [Pointer.step]; try exact Hb.
  - unfold Pointer.mousedown. destruct (decide _); [exact Hb |]. simpl.
    apply Hother. intros ->. congruence.
  - simpl in Hrel. apply Nat.eqb_neq in Hrel. simpl. now apply Hother.
  - discriminate.
  - simpl. destruct (decide (0 = b)%nat) as [<- | Hne]; [| now apply Hother].
    rewrite assign_lookup. now rewrite decide_True.
  - simpl. destruct (decide (2 = b)%nat) as [<- | Hne]; [| now apply Hother].
    rewrite assign_lookup. now rewrite decide_True.
Qed.

Lemma consumed_button_run (b : nat) (events : list Pointer.event) (i : Input.t) :
  forallb (fun e => negb (Pointer.releases_button b e)) events = true ->
  mjoin (Input._buttons i !! b) = Some false ->
  mjoin (Input._buttons (Pointer.run events i) !! b) = Some false.
Proof.
  unfold Pointer.run. revert i.
  induction events as [| e events IH]; intros i Hev Hb; [exact Hb |].
  simpl in Hev. apply andb_true_iff in Hev as [He Hev]. simpl.
  apply IH; [exact Hev |].
  apply consumed_button_preserved; [now apply negb_true_iff | exact Hb].
Qed.

(** X5.  A mouse button that the program has consumed by writing [false]
    through [mouse.left] or [mouse.right] reads [false] whatever happens
    next, a repeated [mousedown] included, as long as no event releases it
    (its [mouseup], or [mouseout]).  Once an event has released it, the
    next [mousedown] makes it read [true]. *)
Theorem consumed_button_reads_false (events : list Pointer.event) (i : Input.t) :
  (forallb (fun e => negb (Pointer.releases_button 0 e)) events = true ->
   Pointer.left (Pointer.run events (Pointer.reset_left i)) = false /\
   forall e, Pointer.releases_button 0 e = true ->
     Pointer.left
       (Pointer.mousedown 0
          (Pointer.step (Pointer.run events (Pointer.reset_left i)) e)) = true) /\
  (forallb (fun e => negb (Pointer.releases_button 2 e)) events = true ->
   Pointer.right (Pointer.run events (Pointer.reset_right i)) = false /\
   forall e, Pointer.releases_button 2 e = true ->
     Pointer.right
       (Pointer.mousedown 2
          (Pointer.step (Pointer.run events (Pointer.reset_right i)) e)) = true).
Proof.
  assert (forall b j e,
            Pointer.releases_button b e = true ->
            mjoin (Input._buttons (Pointer.mousedown b (Pointer.step j e)) !! b)
              = Some true) as Release.
  { intros b j e He.
    assert (mjoin (Input._buttons (Pointer.step j e) !! b) <> Some false) as Hfree.
    { destruct e as [b' | b' | x y | | ts | | |]; try discriminate He.
      - simpl in He. apply Nat.eqb_eq in He as ->. simpl.
        rewrite assign_lookup. now rewrite decide_True.
      - simpl. discriminate. }
    rewrite mousedown_buttons by exact Hfree.
    rewrite assign_lookup. now rewrite decide_True. }
  split; intros Hev; (split; [| intros e He]).
  - unfold Pointer.left. rewrite consumed_button_run; [reflexivity | exact Hev |].
    simpl. rewrite assign_lookup. now rewrite decide_True.
  - unfold Pointer.left. now rewrite Release.
  - unfold Pointer.right. rewrite consumed_button_run; [reflexivity | exact Hev |].
    simpl. rewrite assign_lookup. now rewrite decide_True.
  - unfold Pointer.right. now rewrite Release.
Qed.

(** X5 at the left button, consumed while held: two further [mousedown]
    events and a move leave it unread. *)
Lemma consumed_button_reads_false_witness :
  Pointer.left
    (Pointer.run [Pointer.MouseDown 0; Pointer.MouseMove 3 4; Pointer.MouseDown 0]
       (Pointer.reset_left (Pointer.mousedown 0 Pointer.initial))) = false.
Proof.
  pose proof (consumed_button_reads_false
                [Pointer.MouseDown 0; Pointer.MouseMove 3 4; Pointer.MouseDown 0]
                (Pointer.mousedown 0 Pointer.initial)) as [Left _].
  apply Left. reflexivity.
Defined.

(** X6.  After the program has written [false] to [touchscreen.touched],
    it reads [false] through every later touch event, new fingers
    included, until a touch event reports no touch at all; the first touch
    event with a touch after that makes it read [true], at the position of
    the first touch. *)
Theorem consumed_touch_reads_false (events : list Pointer.event) (i : Input.t) :
  (forallb (fun e => negb (Pointer.lifts_touch e)) events = true ->
   Input.touched (Pointer.run events (Pointer.reset_touched i)) = false) /\
  (forall t ts,
     Input.touched
       (Pointer.touchHandler (t :: ts) (Pointer.touchHandler [] i)) = true /\
     Input.touch_x
       (Pointer.touchHandler (t :: ts) (Pointer.touchHandler [] i)) = Input.t_x t /\
     Input.touch_y
       (Pointer.touchHandler (t :: ts) (Pointer.touchHandler [] i)) = Input.t_y t).
Proof.
  split.
  - intros Hev.
    assert (Input._touchable (Pointer.run events (Pointer.reset_touched i)) = false)
      as H; [| unfold Input.touched; now rewrite H].
    unfold Pointer.run.
    assert (Input._touchable (Pointer.reset_touched i) = false) as H0 by reflexivity.
    revert H0. generalize (Pointer.reset_touched i) as j.
    induction events as [| e events IH]; intros j Hj; [exact Hj |].
    simpl in Hev. apply andb_true_iff in Hev as [He Hev]. simpl.
    apply IH; [exact Hev |].
    destruct e as [b' | b' | x y | | ts | | |]; cbn [Pointer.step]; try exact Hj;
      try reflexivity.
    + unfold Pointer.mousedown. now destruct (decide _).
    + destruct ts as [| t ts]; [discriminate | exact Hj].
  - intros t ts. repeat split.
Qed.

(** X6 at a finger consumed by the program and then joined by a second
    finger. *)
Lemma consumed_touch_reads_false_witness :
  Input.touched
    (Pointer.run
       [Pointer.Touch [Input.mkTouch 5 5 0; Input.mkTouch 9 9 1]]
       (Pointer.reset_touched
          (Pointer.touchHandler [Input.mkTouch 5 5 0] Pointer.initial))) = false.
Proof.
  pose proof (consumed_touch_reads_false
                [Pointer.Touch [Input.mkTouch 5 5 0; Input.mkTouch 9 9 1]]
                (Pointer.touchHandler [Input.mkTouch 5 5 0] Pointer.initial))
    as [Held _].
  apply Held. reflexivity.
Defined.

(** ** Utilities *)

Lemma of_nat_nonneg (n : nat) : 0 <= Num.of_nat n.
Proof. unfold Num.of_nat. change 0 with (inject_Z 0). rewrite <- Zle_Qle. lia. Qed.

Lemma of_nat_pos (n : nat) : (0 < n)%nat -> 0 < Num.of_nat n.
Proof. intros H. unfold Num.of_nat. change 0 with (inject_Z 0). rewrite <- Zlt_Qlt. lia. Qed.

Lemma floor_below (q : Q) (z : Z) : q < inject_Z z -> (Qfloor q < z)%Z.
Proof.
  intros H. pose proof (Qfloor_le q) as F. rewrite Zlt_Qlt. lra.
Qed.

Lemma floor_plus_one (q : Q) : Qfloor (q + 1) = (Qfloor q + 1)%Z.
Proof.
  pose proof (Qfloor_le q) as L. pose proof (Qlt_floor q) as U.
  rewrite inject_Z_plus in U. change (inject_Z 1) with 1 in U.
  apply floor_unique; rewrite inject_Z_plus; change (inject_Z 1) with 1; lra.
Qed.

(** Rounding down a share [r] of [m] whole parts gives one of the parts
    0 to [m - 1]. *)
Lemma floor_share (r : Q) (m : Z) :
  0 <= r -> r < 1 -> (0 < m)%Z ->
  (0 <= Qfloor (r * inject_Z m) < m)%Z.
Proof.
  intros H0 H1 Hm.
  assert (0 < inject_Z m) as Hq by (change 0 with (inject_Z 0); now rewrite <- Zlt_Qlt).
  split.
  - apply floor_at_least. change (inject_Z 0) with 0. now apply Qmult_le_0_compat; [| lra].
  - apply floor_below.
    apply Qlt_le_trans with (1 * inject_Z m); [| lra].
    now apply Qmult_lt_compat_r.
Qed.

(** [rand(n)] is below [n]. *)
Lemma rand_bounds (n : nat) (r : Q) :
  0 <= r -> r < 1 -> (0 < n)%nat ->
  (0 <= Util.rand r (Num.of_nat n) < Z.of_nat n)%Z.
Proof.
  intros H0 H1 Hn. apply floor_share; [exact H0 | exact H1 | lia].
Qed.

(** Every integer below [n] is a value of [rand(n)]. *)
Lemma rand_hits (n k : nat) :
  (k < n)%nat ->
  exists r, 0 <= r /\ r < 1 /\ Util.rand r (Num.of_nat n) = Z.of_nat k.
Proof.
  intros Hk. exists (Num.of_nat k / Num.of_nat n).
  pose proof (of_nat_pos n ltac:(lia)) as Hn.
  pose proof (of_nat_nonneg k) as Hk0.
  assert (Num.of_nat k < Num.of_nat n) as Hkn.
  { unfold Num.of_nat. rewrite <- Zlt_Qlt. lia. }
  split; [apply Qle_shift_div_l; [exact Hn | lra] |].
  split; [apply Qlt_shift_div_r; [exact Hn | lra] |].
  unfold Util.rand, Num.floor.
  assert (Num.of_nat k / Num.of_nat n * Num.of_nat n == inject_Z (Z.of_nat k)) as ->.
  { unfold Num.of_nat in *. field. lra. }
  apply Qfloor_Z.
Qed.

(** X7.  With [Math.random()] in its range, [rand(n)] for a count [n >= 1]
    is one of the integers 0 to [n - 1], and each of them is returned for
    some value of [Math.random()]; [rand(0)] is 0. *)
Theorem rand_range (n : nat) :
  (forall r, 0 <= r -> r < 1 -> (0 < n)%nat ->
     (0 <= Util.rand r (Num.of_nat n) < Z.of_nat n)%Z) /\
  (forall k, (k < n)%nat ->
     exists r, 0 <= r /\ r < 1 /\ Util.rand r (Num.of_nat n) = Z.of_nat k) /\
  (forall r, Util.rand r 0 = 0%Z).
Proof.
  split; [| split].
  - intros r. apply rand_bounds.
  - intros k. apply rand_hits.
  - intros r. unfold Util.rand, Num.floor.
    assert (r * 0 == inject_Z 0) as -> by (change (inject_Z 0) with 0; ring).
    apply Qfloor_Z.
Qed.

(** X7 for a die of six faces and the draw 0.99. *)
Lemma rand_range_witness : (0 <= Util.rand 0.99 (Num.of_nat 6) < 6)%Z.
Proof.
  pose proof (rand_range 6) as (Range & _).
  apply (Range 0.99); [discriminate | reflexivity | lia].
Defined.

(** [random] where the quotient [(max - min) / step] is computed without
    rounding. *)
Lemma random_exact (min max step : Q) :
  0 < step -> min <= max ->
  (forall r, 0 <= r -> r < 1 ->
     exists k : Z,
       (0 <= k)%Z /\
       Util.random r min max step = min + inject_Z k * step /\
       min <= Util.random r min max step /\
       Util.random r min max step <= max) /\
  Util.random 0 min max step == min /\
  (forall n : nat, max == min + Num.of_nat n * step ->
     exists r, 0 <= r /\ r < 1 /\ Util.random r min max step == max).
Proof.
  intros Hstep Hle.
  set (q := (max - min) / step).
  assert (0 <= q) as Hq by (apply Qle_shift_div_l; [exact Hstep | lra]).
  assert (Qfloor (q + 1) = (Qfloor q + 1)%Z) as Hm by apply floor_plus_one.
  assert (0 <= Qfloor q)%Z as Hfq by (now apply floor_at_least).
  split; [| split].
  - intros r H0 H1. unfold Util.random, Num.floor. fold q. rewrite Hm.
    destruct (floor_share r (Qfloor q + 1) H0 H1 ltac:(lia)) as [Hk0 Hk1].
    set (k := Qfloor (r * inject_Z (Qfloor q + 1))) in *.
    exists k. split; [exact Hk0 |]. split; [reflexivity |].
    assert (0 <= inject_Z k) as Hk0q
      by (change 0 with (inject_Z 0); now rewrite <- Zle_Qle).
    assert (inject_Z k <= q) as Hkq.
    { eapply Qle_trans; [| apply (Qfloor_le q)]. rewrite <- Zle_Qle. lia. }
    assert (inject_Z k * step <= q * step) as Hks
      by (apply Qmult_le_compat_r; [exact Hkq | lra]).
    assert (q * step == max - min) as Hqs by (unfold q; field; lra).
    assert (0 <= inject_Z k * step) by (apply Qmult_le_0_compat; lra).
    split; lra.
  - unfold Util.random, Num.floor.
    assert (0 * inject_Z (Qfloor ((max - min) / step + 1)) == inject_Z 0) as ->
      by (change (inject_Z 0) with 0; ring).
    rewrite Qfloor_Z. change (inject_Z 0) with 0. ring.
  - intros n Hn.
    assert (q == inject_Z (Z.of_nat n)) as Hqn.
    { unfold q. rewrite Hn. unfold Num.of_nat. field. lra. }
    assert (Qfloor q = Z.of_nat n) as Hfn by (rewrite Hqn; apply Qfloor_Z).
    exists (Num.of_nat n / Num.of_nat (S n)).
    pose proof (of_nat_pos (S n) ltac:(lia)) as HS.
    pose proof (of_nat_nonneg n) as Hn0.
    assert (Num.of_nat n < Num.of_nat (S n)) as Hlt.
    { unfold Num.of_nat. rewrite <- Zlt_Qlt. lia. }
    split; [apply Qle_shift_div_l; [exact HS | lra] |].
    split; [apply Qlt_shift_div_r; [exact HS | lra] |].
    unfold Util.random, Num.floor. fold q. rewrite Hm, Hfn.
    replace (Z.of_nat n + 1)%Z with (Z.of_nat (S n)) by lia.
    assert (Num.of_nat n / Num.of_nat (S n) * inject_Z (Z.of_nat (S n))
              == inject_Z (Z.of_nat n)) as ->.
    { unfold Num.of_nat in *. field. lra. }
    rewrite Qfloor_Z. rewrite Hn. reflexivity.
Qed.

(** X8.  With [Math.random()] in its range and integers [min <= max] and
    [step >= 1], [random(min, max, step)] is [min] plus a whole number of
    steps and lies between [min] and [max], both included: [min] is
    returned when [Math.random()] is 0, and when [max] is a whole number
    of steps above [min] it is returned for some value of
    [Math.random()]. *)
Theorem random_range (min max step : Z) :
  (0 < step)%Z -> (min <= max)%Z ->
  (forall r, 0 <= r -> r < 1 ->
     exists k : Z,
       (0 <= k)%Z /\
       Util.random r (inject_Z min) (inject_Z max) (inject_Z step)
         == inject_Z (min + k * step) /\
       (min <= min + k * step <= max)%Z) /\
  Util.random 0 (inject_Z min) (inject_Z max) (inject_Z step) == inject_Z min /\
  (forall n : nat, (max = min + Z.of_nat n * step)%Z ->
     exists r, 0 <= r /\ r < 1 /\
       Util.random r (inject_Z min) (inject_Z max) (inject_Z step) == inject_Z max).
Proof.
  intros Hstep Hle.
  assert (0 < inject_Z step) as Hs
    by (change 0 with (inject_Z 0); now rewrite <- Zlt_Qlt).
  assert (inject_Z min <= inject_Z max) as Hm by now rewrite <- Zle_Qle.
  destruct (random_exact (inject_Z min) (inject_Z max) (inject_Z step) Hs Hm)
    as (Range & Zero & Top).
  split; [| split; [exact Zero |]].
  - intros r H0 H1. destruct (Range r H0 H1) as (k & Hk & E & Lo & Hi).
    exists k. split; [exact Hk |].
    assert (inject_Z min + inject_Z k * inject_Z step == inject_Z (min + k * step))
      as Ez by (rewrite inject_Z_plus, inject_Z_mult; reflexivity).
    split; [rewrite E; exact Ez |].
    rewrite E, Ez in Lo, Hi. rewrite <- Zle_Qle in Lo, Hi. lia.
  - intros n Hn. apply (Top n). rewrite Hn, inject_Z_plus, inject_Z_mult.
    reflexivity.
Qed.

(** X8 for a die: [random(1, 6)] under the draw 0.99 is one of 1 to 6. *)
Lemma random_range_witness :
  exists k : Z,
    Util.random 0.99 (inject_Z 1) (inject_Z 6) (inject_Z 1) == inject_Z (1 + k * 1) /\
    (1 <= 1 + k * 1 <= 6)%Z.
Proof.
  destruct (random_range 1 6 1) as (Range & _); [lia | lia |].
  destruct (Range 0.99) as (k & _ & E & B); [discriminate | reflexivity |].
  exists k. split; [exact E | exact B].
Defined.

(** With a step that is not an integer the quotient and the products are
    rounded: [random(0, 1.7, 0.1)] under the draw 0.99 is
    1.7000000000000002, above [max]. *)
Lemma random_overshoots :
  exists v,
    Util64.random 0.99 0 1.7 0.1 = Some v /\ (1.7 <? v)%float = true.
Proof. eexists. split; vm_compute; reflexivity. Qed.

(** X9.  With [Math.random()] in its range, [randomItem] returns one of
    its arguments when it has any, and each argument is returned for some
    value of [Math.random()]; without arguments it returns [undefined]. *)
Theorem randomItem_member {T} (items : list T) :
  (forall r, 0 <= r -> r < 1 -> items <> [] ->
     exists x, Util.randomItem r items = Some x /\ x ∈ items) /\
  (forall x, x ∈ items ->
     exists r, 0 <= r /\ r < 1 /\ Util.randomItem r items = Some x) /\
  (forall r, Util.randomItem r (@nil T) = None).
Proof.
  split; [| split].
  - intros r H0 H1 Hne. unfold Util.randomItem.
    assert (0 < length items)%nat as Hlen by (destruct items; [congruence | simpl; lia]).
    destruct (rand_bounds (length items) r H0 H1 Hlen) as [Hlo Hhi].
    set (z := Util.rand r (Num.of_nat (length items))) in *.
    unfold lookupZ. destruct (Z.ltb_spec z 0); [lia |].
    destruct (lookup_lt_is_Some_2 items (Z.to_nat z) ltac:(lia)) as [x Hx].
    exists x. split; [exact Hx |]. apply list_elem_of_lookup. eauto.
  - intros x Hx. apply list_elem_of_lookup in Hx as [k Hk].
    pose proof (lookup_lt_Some _ _ _ Hk) as Hlt.
    destruct (rand_hits (length items) k Hlt) as (r & H0 & H1 & Hr).
    exists r. split; [exact H0 |]. split; [exact H1 |].
    unfold Util.randomItem. rewrite Hr, lookupZ_nat. exact Hk.
  - intros r. unfold Util.randomItem, lookupZ. now destruct (_ <? _)%Z.
Qed.

(** X9 for three colours and the draw 0.5. *)
Lemma randomItem_member_witness :
  exists x, Util.randomItem 0.5 ["red"; "green"; "blue"]%string = Some x /\
            x ∈ ["red"; "green"; "blue"]%string.
Proof.
  pose proof (@randomItem_member string ["red"; "green"; "blue"]%string) as (Member & _).
  apply (Member 0.5); [discriminate | reflexivity | discriminate].
Defined.

Lemma swap_permutation {T} (i j : nat) (a : list T) : Util.swap i j a ≡ₚ a.
Proof.
  unfold Util.swap.
  destruct (a !! i) as [x |] eqn:Ei; [| reflexivity].
  destruct (a !! j) as [y |] eqn:Ej; [| reflexivity].
  now apply Permutation_insert_swap.
Qed.

Lemma shuffle_from_permutation {T} (rnd : nat -> Q) (i k : nat) (a : list T) :
  Util.shuffle_from rnd k i a ≡ₚ a.
Proof.
  revert k a. induction i as [| i IH]; intros k a; [reflexivity |].
  cbn [Util.shuffle_from]. rewrite IH. apply swap_permutation.
Qed.

(** Each step swaps the entry at [i] with one at or before it. *)
Lemma shuffle_from_stable {T} (rnd : nat -> Q) (i k : nat) (a : list T) :
  (forall n, 0 <= rnd n /\ rnd n < 1) ->
  (i < length a)%nat ->
  forall p, (i < p)%nat -> Util.shuffle_from rnd k i a !! p = a !! p.
Proof.
  intros Hrnd. revert k a. induction i as [| i IH]; intros k a Hi p Hp;
    [reflexivity |].
  cbn [Util.shuffle_from].
  destruct (rand_bounds (S i + 1) (rnd k)) as [Hlo Hhi];
    [apply Hrnd | apply Hrnd | lia |].
  set (j := Z.to_nat (Util.rand (rnd k) (Num.of_nat (S i + 1)))) in *.
  assert (j <= S i)%nat as Hj by lia.
  assert (length (Util.swap (S i) j a) = length a) as Hlen
    by (apply Permutation_length, swap_permutation).
  rewrite IH by lia.
  unfold Util.swap.
  destruct (a !! S i) as [x |] eqn:Ei; [| reflexivity].
  destruct (a !! j) as [y |] eqn:Ej; [| reflexivity].
  rewrite !list_lookup_insert_ne by lia. reflexivity.
Qed.

(** X10.  With every number drawn in the range of [Math.random()],
    [shuffle] rearranges: the array it leaves has the elements of the
    array it was given, each as many times.  Its last element is the
    element that the first draw picks among all the positions.  It draws
    one number per position but the first, so two sequences of draws that
    agree on the first [length - 1] numbers give the same result, and an
    array of at most one element is left as it is. *)
Theorem shuffle_permutes {T} (rnd : nat -> Q) (a : list T) :
  (forall n, 0 <= rnd n /\ rnd n < 1) ->
  Util.shuffle rnd a ≡ₚ a /\
  length (Util.shuffle rnd a) = length a /\
  Util.shuffle rnd a !! (length a - 1)%nat =
    a !! Z.to_nat (Util.rand (rnd 0%nat) (Num.of_nat (length a))) /\
  (forall rnd' : nat -> Q,
     (forall k, (k < length a - 1)%nat -> rnd k = rnd' k) ->
     Util.shuffle rnd a = Util.shuffle rnd' a) /\
  ((length a <= 1)%nat -> Util.shuffle rnd a = a).
Proof.
  intros Hrnd.
  split; [apply shuffle_from_permutation |].
  split; [apply Permutation_length, shuffle_from_permutation |].
  split; [| split].
  - unfold Util.shuffle. destruct (length a) as [| [| n]] eqn:El.
    + destruct a; [| discriminate]. simpl. now rewrite lookup_nil.
    + simpl. pose proof (rand_bounds 1 (rnd 0%nat)) as H.
      destruct H as [Hlo Hhi]; [apply Hrnd | apply Hrnd | lia |].
      now replace (Z.to_nat (Util.rand (rnd 0%nat) (Num.of_nat 1))) with 0%nat by lia.
    + replace (S (S n) - 1)%nat with (S n) by lia.
      cbn [Util.shuffle_from].
      replace (S n + 1)%nat with (S (S n)) by lia.
      destruct (rand_bounds (S (S n)) (rnd 0%nat)) as [Hlo Hhi];
        [apply Hrnd | apply Hrnd | lia |].
      set (j := Z.to_nat (Util.rand (rnd 0%nat) (Num.of_nat (S (S n))))) in *.
      assert (length (Util.swap (S n) j a) = length a) as Hlen
        by (apply Permutation_length, swap_permutation).
      rewrite shuffle_from_stable by (assumption || lia).
      unfold Util.swap.
      destruct (lookup_lt_is_Some_2 a (S n) ltac:(lia)) as [x Hx].
      destruct (lookup_lt_is_Some_2 a j ltac:(lia)) as [y Hy].
      rewrite Hx, Hy.
      destruct (decide (j = S n)) as [-> | Hne].
      * rewrite list_lookup_insert_eq by (rewrite length_insert; lia). congruence.
      * rewrite list_lookup_insert_ne by congruence.
        now rewrite list_lookup_insert_eq by lia.
  - intros rnd' Hagree. unfold Util.shuffle.
    assert (forall i k b, (k + i <= length a - 1)%nat ->
              Util.shuffle_from rnd k i b = Util.shuffle_from rnd' k i (b : list T)) as H.
    { induction i as [| i IH]; intros k b Hk; [reflexivity |].
      cbn [Util.shuffle_from]. rewrite Hagree by lia. apply IH. lia. }
    apply H. lia.
  - intros Hlen. unfold Util.shuffle.
    replace (length a - 1)%nat with 0%nat by lia. reflexivity.
Qed.

(** X10 at three numbers and draws that are all 0.5. *)
Lemma shuffle_permutes_witness :
  Util.shuffle (fun _ => 0.5) [1; 2; 3]%Z ≡ₚ [1; 2; 3]%Z.
Proof.
  apply (shuffle_permutes (fun _ => 0.5) [1; 2; 3]%Z).
  intros n. split; [discriminate | reflexivity].
Defined.

Lemma shuffle_from_agree {T} (rnd rnd' : nat -> Q) (i k : nat) (a : list T) :
  (forall n, (k <= n)%nat -> rnd n = rnd' n) ->
  Util.shuffle_from rnd k i a = Util.shuffle_from rnd' k i a.
Proof.
  revert k a. induction i as [| i IH]; intros k a H; [reflexivity |].
  cbn [Util.shuffle_from]. rewrite (H k) by lia. apply IH. intros n Hn. apply H. lia.
Qed.

(** Swapping the entry at [i] with an entry [z] at or before it puts [z]
    at [i], keeps what follows, and rearranges what precedes. *)
Lemma swap_to_last {T} (i j : nat) (a : list T) (z : T) :
  (j <= i)%nat -> (i < length a)%nat -> a !! j = Some z ->
  Util.swap i j a = take i (Util.swap i j a) ++ z :: drop (S i) a /\
  take i (Util.swap i j a) ++ [z] ≡ₚ take (S i) a.
Proof.
  intros Hj Hi Hz.
  destruct (lookup_lt_is_Some_2 a i Hi) as [w Hw].
  assert (Util.swap i j a = <[j := w]> (<[i := z]> a)) as Hswap
    by (unfold Util.swap; now rewrite Hw, Hz).
  assert (Util.swap i j a !! i = Some z) as Hlast.
  { rewrite Hswap. destruct (decide (j = i)) as [-> | Hne].
    - rewrite list_lookup_insert_eq by (rewrite length_insert; lia). congruence.
    - rewrite list_lookup_insert_ne by congruence.
      now rewrite list_lookup_insert_eq by lia. }
  assert (drop (S i) (Util.swap i j a) = drop (S i) a) as Hdrop.
  { rewrite Hswap. rewrite !drop_insert_lt by lia. reflexivity. }
  assert (Util.swap i j a = take i (Util.swap i j a) ++ z :: drop (S i) a) as Hform.
  { rewrite <- Hdrop. symmetry. now apply take_drop_middle. }
  split; [exact Hform |].
  apply (Permutation_app_inv_r (drop (S i) a)).
  rewrite <- app_assoc. simpl. rewrite <- Hform, take_drop.
  apply swap_permutation.
Qed.

Lemma shuffle_from_reaches {T} (i k : nat) (a p' : list T) :
  (i < length a)%nat -> p' ≡ₚ take (S i) a ->
  exists rnd : nat -> Q,
    (forall n, 0 <= rnd n /\ rnd n < 1) /\
    Util.shuffle_from rnd k i a = p' ++ drop (S i) a.
Proof.
  revert k a p'. induction i as [| i IH]; intros k a p' Hi Hp.
  - exists (fun _ => 0). split; [intros n; split; [discriminate | reflexivity] |].
    destruct a as [| x a]; [simpl in Hi; lia |].
    simpl in Hp. apply Permutation_singleton_r in Hp as ->. reflexivity.
  - destruct p' as [| y p0 _] using rev_ind.
    { apply Permutation_length in Hp. rewrite length_take in Hp. cbn [length] in Hp. lia. }
    rename p0 into q'. rename y into z.
    assert (z ∈ take (S (S i)) a) as Hin
      by (rewrite <- Hp; apply elem_of_app; right; now left).
    apply list_elem_of_lookup in Hin as [j Hjz].
    pose proof (lookup_lt_Some _ _ _ Hjz) as Hjlt. rewrite length_take in Hjlt.
    rewrite lookup_take_lt in Hjz by lia.
    destruct (swap_to_last (S i) j a z ltac:(lia) Hi Hjz) as [Hform Hperm].
    set (b := Util.swap (S i) j a) in *.
    assert (length b = length a) as Hlen
      by (apply Permutation_length, swap_permutation).
    assert (q' ≡ₚ take (S i) b) as Hq.
    { apply (Permutation_app_inv_r [z]). rewrite Hp. symmetry. exact Hperm. }
    destruct (IH (S k) b q' ltac:(lia) Hq) as (rnd1 & Hrange1 & Hrun1).
    destruct (rand_hits (S i + 1) j ltac:(lia)) as (r & Hr0 & Hr1 & Hr).
    exists (fun n => if decide (n = k) then r else rnd1 n). split.
    + intros n. destruct (decide (n = k)); [split; assumption | apply Hrange1].
    + cbn [Util.shuffle_from]. rewrite decide_True by reflexivity.
      rewrite Hr, Nat2Z.id. fold b.
      rewrite (shuffle_from_agree _ rnd1)
        by (intros n Hn; rewrite decide_False by lia; reflexivity).
      rewrite Hrun1, <- app_assoc. f_equal.
      rewrite Hform at 1.
      rewrite drop_app_length' by (rewrite length_take; lia). reflexivity.
Qed.

(** X11.  [shuffle] can give every rearrangement: for each arrangement of
    the elements of the array there is a sequence of values of
    [Math.random()] under which [shuffle] leaves that arrangement. *)
Theorem shuffle_reaches_every_order {T} (a b : list T) :
  a ≡ₚ b ->
  exists rnd : nat -> Q,
    (forall n, 0 <= rnd n /\ rnd n < 1) /\ Util.shuffle rnd a = b.
Proof.
  intros Hab. destruct a as [| x a].
  - apply Permutation_nil_l in Hab. subst b.
    exists (fun _ => 0). split; [intros n; split; [discriminate | reflexivity] |].
    reflexivity.
  - unfold Util.shuffle.
    destruct (shuffle_from_reaches (length (x :: a) - 1) 0 (x :: a) b)
      as (rnd & Hrange & Hrun).
    + simpl. lia.
    + rewrite take_ge by (simpl; lia). now symmetry.
    + exists rnd. split; [exact Hrange |]. rewrite Hrun.
      rewrite drop_ge by (simpl; lia). apply app_nil_r.
Qed.

(** X11 at three numbers and their reversal. *)
Lemma shuffle_reaches_every_order_witness :
  exists rnd : nat -> Q,
    (forall n, 0 <= rnd n /\ rnd n < 1) /\
    Util.shuffle rnd [1; 2; 3]%Z = [3; 2; 1]%Z.
Proof.
  apply (shuffle_reaches_every_order [1; 2; 3]%Z [3; 2; 1]%Z).
  symmetry. exact (reverse_Permutation [1; 2; 3]%Z).
Defined.

(** ** The geometry of a grid *)

Lemma of_nat_succ (n : nat) : Num.of_nat (S n) == Num.of_nat n + 1.
Proof.
  unfold Num.of_nat. rewrite Nat2Z.inj_succ, <- Z.add_1_r, inject_Z_plus.
  reflexivity.
Qed.

Lemma of_nat_lt (a b : nat) : Num.of_nat a < Num.of_nat b <-> (a < b)%nat.
Proof. unfold Num.of_nat. rewrite <- Zlt_Qlt. lia. Qed.

Lemma cell_in_range (rows columns : nat) (x y width height : Q) (color : string)
    (g : Grid.t) (i j : nat) :
  Grid.new rows columns x y width height color = Some g ->
  is_Some (Grid.cell g i j) <-> (i < rows)%nat /\ (j < columns)%nat.
Proof.
  intros Hnew.
  pose proof (new_fields _ _ _ _ _ _ _ _ Hnew) as (Hcells & _).
  split.
  - intros [c Hc]. apply cell_lookup in Hc as (r & Hr & Hc).
    rewrite Hcells in Hr.
    destruct (make_cells_cell _ _ _ _ _ _ _ _ _ _ _ Hr Hc) as (Hi & Hj & _). auto.
  - intros [Hi Hj]. unfold Grid.cell. rewrite Hcells.
    unfold Grid.make_cells. rewrite lookup_map, lookup_seq_lt by exact Hi. simpl.
    rewrite lookup_map, lookup_seq_lt by exact Hj. simpl. eauto.
Qed.

(** The extent of cell number [j] along one axis lies within the extent
    of the grid, one pixel inside at each end. *)
Lemma cell_extent (w x0 : Q) (n j : nat) (p : Q) :
  (j < n)%nat -> 0 < p -> Num.of_nat n * p == w - 1 ->
  x0 + 1 <= x0 + Num.of_nat j * p + 1 /\
  x0 + Num.of_nat j * p + 1 + (p - 1) <= x0 + w - 1.
Proof.
  intros Hj Hp Hn.
  assert (0 <= Num.of_nat j * p)
    by (apply Qmult_le_0_compat; [apply of_nat_nonneg | lra]).
  assert (Num.of_nat (S j) * p <= Num.of_nat n * p) as H1.
  { apply Qmult_le_compat_r; [| lra]. apply of_nat_le. lia. }
  rewrite of_nat_succ in H1. split; lra.
Qed.

(** X12.  The cells of a grid as its constructor builds it.  [cell(i, j)]
    is a cell exactly for [i < rows] and [j < columns].  A point of a cell
    is a point of the grid, and of no other cell.  Along a row each cell
    begins one pixel after the end of the one before it, and along a
    column likewise: the cells are separated by grid lines one pixel
    wide. *)
Theorem cells_tile_grid
    (rows columns : nat) (x y width height : Q) (color : string) (g : Grid.t) :
  Grid.new rows columns x y width height color = Some g ->
  (forall i j, is_Some (Grid.cell g i j) <-> (i < rows)%nat /\ (j < columns)%nat) /\
  (forall i j c px py,
     Grid.cell g i j = Some c -> Cell.in_bounds c px py -> Grid.in_bounds g px py) /\
  (forall i j c i' j' c' px py,
     Grid.cell g i j = Some c -> Grid.cell g i' j' = Some c' ->
     Cell.in_bounds c px py -> Cell.in_bounds c' px py -> i = i' /\ j = j') /\
  (forall i j c c',
     Grid.cell g i j = Some c -> Grid.cell g i (S j) = Some c' ->
     Cell.x c' == Cell.x c + Cell.width c + 1 /\ Cell.y c' = Cell.y c) /\
  (forall i j c c',
     Grid.cell g i j = Some c -> Grid.cell g (S i) j = Some c' ->
     Cell.y c' == Cell.y c + Cell.height c + 1 /\ Cell.x c' = Cell.x c).
Proof.
  intros Hnew.
  pose proof (new_fields _ _ _ _ _ _ _ _ Hnew)
    as (Hcells & Hcw & Hch & Hx & Hy & Hw & Hh & _ & _ & Hrows).
  assert (forall i j c, Grid.cell g i j = Some c ->
            (i < rows)%nat /\ (j < columns)%nat /\
            c = Cell.new i j
                  (x + Num.of_nat j * (Grid.cellWidth g + 1) + 1)
                  (y + Num.of_nat i * (Grid.cellHeight g + 1) + 1)
                  (Grid.cellWidth g) (Grid.cellHeight g) color) as Hcell.
  { intros i j c Hc. apply cell_lookup in Hc as (r & Hr & Hc).
    rewrite Hcells in Hr. rewrite Hcw, Hch.
    eapply make_cells_cell; eassumption. }
  split; [intros i j; now apply (cell_in_range _ _ _ _ _ _ _ _ _ _ Hnew) |].
  split; [| split; [| split]].
  - intros i j c px py Hc (Hx1 & Hx2 & Hy1 & Hy2).
    apply Hcell in Hc as (Hi & Hj & ->). simpl in *.
    unfold Grid.in_bounds. rewrite Hx, Hy, Hw, Hh.
    destruct (cell_extent width x columns j (Grid.cellWidth g + 1)) as [A1 A2];
      [exact Hj | lra | rewrite Hcw; apply pitch_times; lia |].
    destruct (cell_extent height y rows i (Grid.cellHeight g + 1)) as [B1 B2];
      [exact Hi | lra | rewrite Hch; apply pitch_times; lia |].
    lra.
  - intros i j c i' j' c' px py Hc Hc' (Hx1 & Hx2 & Hy1 & Hy2) (Hx1' & Hx2' & Hy1' & Hy2').
    apply Hcell in Hc as (_ & _ & ->). apply Hcell in Hc' as (_ & _ & ->).
    simpl in *.
    assert (Num.floor ((px - x) / (Grid.cellWidth g + 1)) = Z.of_nat j) as Ej
      by (apply floor_pitch; lra).
    assert (Num.floor ((px - x) / (Grid.cellWidth g + 1)) = Z.of_nat j') as Ej'
      by (apply floor_pitch; lra).
    assert (Num.floor ((py - y) / (Grid.cellHeight g + 1)) = Z.of_nat i) as Ei
      by (apply floor_pitch; lra).
    assert (Num.floor ((py - y) / (Grid.cellHeight g + 1)) = Z.of_nat i') as Ei'
      by (apply floor_pitch; lra).
    lia.
  - intros i j c c' Hc Hc'.
    apply Hcell in Hc as (_ & _ & ->). apply Hcell in Hc' as (_ & _ & ->).
    simpl. split; [| reflexivity]. rewrite of_nat_succ. ring.
  - intros i j c c' Hc Hc'.
    apply Hcell in Hc as (_ & _ & ->). apply Hcell in Hc' as (_ & _ & ->).
    simpl. split; [| reflexivity]. rewrite of_nat_succ. ring.
Qed.

(** X12 at the grid of 2 rows and 3 columns on a 31 by 21 canvas. *)
Lemma cells_tile_grid_witness :
  exists g, Grid.new 2 3 0 0 31 21 "black" = Some g /\
    (is_Some (Grid.cell g 1 2) <-> (1 < 2)%nat /\ (2 < 3)%nat).
Proof.
  destruct (Grid.new 2 3 0 0 31 21 "black") as [g |] eqn:E; [| discriminate].
  exists g. split; [reflexivity |].
  pose proof (cells_tile_grid 2 3 0 0 31 21 "black" g E) as (Range & _).
  apply Range.
Defined.

(** ** What the constructor of a grid paints *)

Lemma in_rect_of_bounds (x y w h px py : Q) :
  x <= px -> px < x + w -> y <= py -> py < y + h ->
  Canvas.in_rect x y w h px py = true.
Proof.
  intros X1 X2 Y1 Y2. unfold Canvas.in_rect, Canvas.between, Num.min, Num.max.
  apply andb_true_iff; split; apply andb_true_iff; split.
  - destruct (Num.lt (x + w) x) eqn:E; order_facts; apply le_true_iff; lra.
  - destruct (Num.lt x (x + w)) eqn:E; order_facts; apply lt_true_iff; lra.
  - destruct (Num.lt (y + h) y) eqn:E; order_facts; apply le_true_iff; lra.
  - destruct (Num.lt y (y + h)) eqn:E; order_facts; apply lt_true_iff; lra.
Qed.

Lemma in_rect_bounds (x y w h px py : Q) :
  0 <= w -> 0 <= h -> Canvas.in_rect x y w h px py = true ->
  x <= px /\ px < x + w /\ y <= py /\ py < y + h.
Proof.
  intros Hw Hh H. unfold Canvas.in_rect in H.
  apply andb_true_iff in H as [Hx Hy].
  apply between_true in Hx, Hy. lra.
Qed.

(** The redraw of cells that have nothing to show clears their
    rectangles and nothing else. *)
Lemma draw_row_blank (P : Canvas.Platform) (cs : list Cell.t) (cx : Canvas.ctx)
    (px py : Q) :
  Forall (fun cl => exists i j x y w h col, cl = Cell.new i j x y w h col) cs ->
  Canvas.canvas (foldl (fun c cl => Cell.draw P cl c) cx cs) px py =
  if existsb (fun cl => Canvas.in_rect (Cell.x cl) (Cell.y cl) (Cell.width cl)
                          (Cell.height cl) px py) cs
  then None else Canvas.canvas cx px py.
Proof.
  intros H. revert cx. induction H as [| cl cs (i & j & x & y & w & h & col & ->) _ IH];
    intros cx; simpl; [reflexivity |].
  rewrite IH. simpl.
  destruct (existsb _ cs); [now rewrite orb_true_r |].
  rewrite orb_false_r. reflexivity.
Qed.

Lemma draw_rows_blank (P : Canvas.Platform) (rs : list (list Cell.t))
    (cx : Canvas.ctx) (px py : Q) :
  Forall (Forall (fun cl => exists i j x y w h col, cl = Cell.new i j x y w h col)) rs ->
  Canvas.canvas
    (foldl (fun c row => foldl (fun c cl => Cell.draw P cl c) c row) cx rs) px py =
  if existsb (existsb (fun cl => Canvas.in_rect (Cell.x cl) (Cell.y cl)
                                   (Cell.width cl) (Cell.height cl) px py)) rs
  then None else Canvas.canvas cx px py.
Proof.
  intros H. revert cx. induction H as [| r rs Hr _ IH]; intros cx; simpl;
    [reflexivity |].
  rewrite IH, (draw_row_blank P r cx px py Hr).
  destruct (existsb _ rs); [now rewrite orb_true_r |].
  rewrite orb_false_r. reflexivity.
Qed.

Lemma make_cells_blank (rows columns : nat) (x y cw ch : Q) (color : string) :
  Forall (Forall (fun cl => exists i j x y w h col, cl = Cell.new i j x y w h col))
         (Grid.make_cells rows columns x y cw ch color).
Proof.
  unfold Grid.make_cells. apply Forall_forall. intros r Hr.
  apply list_elem_of_fmap in Hr as (i & -> & _).
  apply Forall_forall. intros cl Hcl.
  apply list_elem_of_fmap in Hcl as (j & -> & _). repeat eexists.
Qed.

(** Whether some cell of the rows covers the point, as a fact on
    [Grid.cell]. *)
Lemma covered_iff (g : Grid.t) (px py : Q) :
  existsb (existsb (fun cl => Canvas.in_rect (Cell.x cl) (Cell.y cl)
                                (Cell.width cl) (Cell.height cl) px py))
          (Grid.cells g) = true <->
  exists i j cl, Grid.cell g i j = Some cl /\
    Canvas.in_rect (Cell.x cl) (Cell.y cl) (Cell.width cl) (Cell.height cl) px py = true.
Proof.
  rewrite existsb_exists. split.
  - intros (r & Hr & H). apply existsb_exists in H as (cl & Hcl & H).
    apply list_elem_of_In, list_elem_of_lookup_1 in Hr as [i Hi].
    apply list_elem_of_In, list_elem_of_lookup_1 in Hcl as [j Hj].
    exists i, j, cl. split; [| exact H]. apply cell_lookup. eauto.
  - intros (i & j & cl & Hc & H). apply cell_lookup in Hc as (r & Hr & Hc).
    exists r. split; [eapply list_elem_of_In, list_elem_of_lookup_2; eassumption |].
    apply existsb_exists. exists cl.
    split; [eapply list_elem_of_In, list_elem_of_lookup_2; eassumption | exact H].
Qed.

Lemma cell_size_nonneg (w : Q) (n : nat) :
  (0 < n)%nat -> Num.of_nat n + 1 <= w -> 0 <= (w - Num.of_nat n - 1) / Num.of_nat n.
Proof.
  intros Hn Hw. apply Qle_shift_div_l; [apply of_nat_pos; exact Hn | lra].
Qed.

(** X13.  The picture the constructor of a grid leaves, for a grid wide
    and high enough for its lines ([columns + 1 <= width] and
    [rows + 1 <= height]): every point of a cell is cleared; every other
    point of the grid's rectangle, that is, the grid lines, has the
    grid's colour (or is left as it was when the colour is the empty
    string); every point outside the grid's rectangle is left as it
    was. *)
Theorem construct_picture (P : Canvas.Platform) (rows columns : nat)
    (x y width height : Q) (color : string) (cx : Canvas.ctx)
    (g : Grid.t) (cx' : Canvas.ctx) :
  Grid.construct P rows columns x y width height color cx = Some (g, cx') ->
  Num.of_nat columns + 1 <= width -> Num.of_nat rows + 1 <= height ->
  forall px py,
    (forall i j cl, Grid.cell g i j = Some cl -> Cell.in_bounds cl px py ->
       Canvas.canvas cx' px py = None) /\
    (Grid.in_bounds g px py ->
     (forall i j cl, Grid.cell g i j = Some cl -> ~ Cell.in_bounds cl px py) ->
     Canvas.canvas cx' px py =
       if String.eqb color "" then Canvas.canvas cx px py else Some color) /\
    (~ Grid.in_bounds g px py -> Canvas.canvas cx' px py = Canvas.canvas cx px py).
Proof.
  unfold Grid.construct.
  destruct (Grid.new rows columns x y width height color) as [g0 |] eqn:Hnew;
    [| discriminate].
  intros [= -> <-] Hwidth Hheight px py.
  pose proof (new_fields _ _ _ _ _ _ _ _ Hnew)
    as (Hcells & Hcw & Hch & Hx & Hy & Hw & Hh & _ & _ & Hrows).
  assert (forall i j c, Grid.cell g i j = Some c ->
            (i < rows)%nat /\ (j < columns)%nat /\
            c = Cell.new i j
                  (x + Num.of_nat j * (Grid.cellWidth g + 1) + 1)
                  (y + Num.of_nat i * (Grid.cellHeight g + 1) + 1)
                  (Grid.cellWidth g) (Grid.cellHeight g) color) as Hcell.
  { intros i j c Hc. apply cell_lookup in Hc as (r & Hr & Hc).
    rewrite Hcells in Hr. rewrite Hcw, Hch.
    eapply make_cells_cell; eassumption. }
  assert (Hcolor : Grid.color g = color).
  { unfold Grid.new in Hnew. destruct (_ !! 0%nat); [| discriminate].
    now injection Hnew as <-. }
  unfold Grid.draw.
  rewrite draw_rows_blank by (rewrite Hcells; apply make_cells_blank).
  set (cov := existsb _ (Grid.cells g)).
  assert (Hcov : cov = true <->
            exists i j cl, Grid.cell g i j = Some cl /\
              Canvas.in_rect (Cell.x cl) (Cell.y cl) (Cell.width cl)
                (Cell.height cl) px py = true) by apply covered_iff.
  assert (Hsize : forall i j cl, Grid.cell g i j = Some cl ->
            0 <= Cell.width cl /\ 0 <= Cell.height cl).
  { intros i j cl Hc. apply Hcell in Hc as (Hi & Hj & ->). simpl.
    rewrite Hcw, Hch. split; apply cell_size_nonneg; (lia || assumption). }
  assert (Hinside : forall i j cl, Grid.cell g i j = Some cl ->
            Cell.in_bounds cl px py -> Grid.in_bounds g px py).
  { intros i j cl Hc (Hx1 & Hx2 & Hy1 & Hy2).
    apply Hcell in Hc as (Hi & Hj & ->). simpl in *.
    unfold Grid.in_bounds. rewrite Hx, Hy, Hw, Hh.
    destruct (cell_extent width x columns j (Grid.cellWidth g + 1)) as [A1 A2];
      [exact Hj | lra | rewrite Hcw; apply pitch_times; lia |].
    destruct (cell_extent height y rows i (Grid.cellHeight g + 1)) as [B1 B2];
      [exact Hi | lra | rewrite Hch; apply pitch_times; lia |].
    lra. }
  assert (Hfree : (forall i j cl, Grid.cell g i j = Some cl ->
                     ~ Cell.in_bounds cl px py) -> cov = false).
  { intros Hno. destruct cov; [| reflexivity]. exfalso.
    destruct (proj1 Hcov eq_refl) as (i & j & cl & Hc & Hin).
    apply (Hno i j cl Hc).
    destruct (Hsize i j cl Hc) as [W H].
    apply in_rect_bounds in Hin; assumption. }
  split; [| split].
  - intros i j cl Hc (Hx1 & Hx2 & Hy1 & Hy2).
    replace cov with true; [reflexivity |].
    symmetry. apply Hcov. exists i, j, cl.
    split; [exact Hc | now apply in_rect_of_bounds].
  - intros (Gx1 & Gx2 & Gy1 & Gy2) Hno. rewrite (Hfree Hno), Hcolor.
    destruct (String.eqb color ""); simpl; [reflexivity |].
    rewrite in_rect_of_bounds by lra. reflexivity.
  - intros Hout. rewrite Hfree by (intros i j cl Hc Hin; eauto). rewrite Hcolor.
    destruct (String.eqb color ""); simpl; [reflexivity |].
    destruct (Canvas.in_rect _ _ _ _ px py) eqn:E; [| reflexivity].
    exfalso. apply Hout. rewrite Hx, Hy, Hw, Hh in E.
    unfold Grid.in_bounds. rewrite Hx, Hy, Hw, Hh.
    apply in_rect_bounds in E; [exact E | |].
    + pose proof (of_nat_nonneg columns). lra.
    + pose proof (of_nat_nonneg rows). lra.
Qed.

(** X13 at the grid of 2 rows and 3 columns with corner (0, 0), 31 wide
    and 21 high, drawn in black on a cleared canvas: the point (5, 5) of
    its first cell is cleared. *)
Lemma construct_picture_witness :
  exists g cx',
    Grid.construct Canvas.boxes 2 3 0 0 31 21 "black" Canvas.blank = Some (g, cx') /\
    Canvas.canvas cx' 5 5 = None.
Proof.
  destruct (Grid.construct Canvas.boxes 2 3 0 0 31 21 "black" Canvas.blank)
    as [[g cx'] |] eqn:E; [| discriminate].
  exists g, cx'. split; [reflexivity |].
  assert (Num.of_nat 3 + 1 <= 31) as H1 by (unfold Qle; simpl; lia).
  assert (Num.of_nat 2 + 1 <= 21) as H2 by (unfold Qle; simpl; lia).
  destruct (construct_picture Canvas.boxes 2 3 0 0 31 21 "black" Canvas.blank
              g cx' E H1 H2 5 5) as (Cleared & _).
  injection E as <- <-.
  eapply (Cleared 0%nat 0%nat).
  - reflexivity.
  - repeat split; vm_compute; first [reflexivity | discriminate].
Defined.

(** ** Redrawing a cell twice *)

(** X14.  The redraw of a cell without a custom callback is idempotent:
    a second redraw changes neither the canvas nor the drawing state of
    the context. *)
Theorem cell_draw_idempotent (P : Canvas.Platform) (c : Cell.t) (cx : Canvas.ctx) :
  Cell._custom c = None ->
  (forall px py,
     Canvas.canvas (Cell.draw P c (Cell.draw P c cx)) px py =
     Canvas.canvas (Cell.draw P c cx) px py) /\
  Canvas.fillStyle (Cell.draw P c (Cell.draw P c cx)) =
    Canvas.fillStyle (Cell.draw P c cx) /\
  Canvas.strokeStyle (Cell.draw P c (Cell.draw P c cx)) =
    Canvas.strokeStyle (Cell.draw P c cx) /\
  Canvas.lineWidth (Cell.draw P c (Cell.draw P c cx)) =
    Canvas.lineWidth (Cell.draw P c cx) /\
  Canvas.font (Cell.draw P c (Cell.draw P c cx)) = Canvas.font (Cell.draw P c cx).
Proof.
  intros Hf. unfold Cell.draw. rewrite Hf.
  destruct (truthy (Cell._color c)), (Cell._image c) as [img |],
           (truthy (Cell._text c)); simpl;
    (split; [intros px py | repeat split]);
    repeat match goal with
      | |- context [if ?b then _ else _] => destruct b eqn:?
      | |- context [match ?o with Some _ => _ | None => _ end] => destruct o eqn:?
      end;
    congruence.
Qed.

(** X14 at a blue cell showing the text "7". *)
Lemma cell_draw_idempotent_witness :
  let c := (Cell.set_text Canvas.boxes (Cell.TextString "7")
              (Cell.set_color Canvas.boxes (Some "blue"%string)
                 (Cell.new 0 0 10 10 20 20 "black") Canvas.blank).1
              Canvas.blank).1 in
  Canvas.fillStyle (Cell.draw Canvas.boxes c (Cell.draw Canvas.boxes c Canvas.blank)) =
  Canvas.fillStyle (Cell.draw Canvas.boxes c Canvas.blank).
Proof.
  intros c.
  apply (cell_draw_idempotent Canvas.boxes c Canvas.blank). reflexivity.
Defined.

(** ** Hitboxes that overlap *)

(** X15.  Two hitboxes of positive width and height intersect exactly
    when some point is contained in both. *)
Theorem intersects_iff_common_point (a b : Hitbox.t) :
  0 < Hitbox.width a -> 0 < Hitbox.height a ->
  0 < Hitbox.width b -> 0 < Hitbox.height b ->
  (Hitbox.intersects a b = true <->
   exists px py, Hitbox.contains a px py = true /\ Hitbox.contains b px py = true).
Proof.
  intros Wa Ha Wb Hb. rewrite intersects_iff. split.
  - intros (H1 & H2 & H3 & H4).
    exists (Num.max (Hitbox.x a) (Hitbox.x b)), (Num.max (Hitbox.y a) (Hitbox.y b)).
    rewrite !contains_iff. unfold Num.max.
    destruct (Num.lt (Hitbox.x a) (Hitbox.x b)) eqn:Ex,
             (Num.lt (Hitbox.y a) (Hitbox.y b)) eqn:Ey; order_facts; lra.
  - intros (px & py & Ca & Cb). apply contains_iff in Ca, Cb. lra.
Qed.

(** X15 at two unit-overlapping squares of side 2. *)
Lemma intersects_iff_common_point_witness :
  Hitbox.intersects (Hitbox.mk 0 0 2 2) (Hitbox.mk 1 1 2 2) = true <->
  exists px py, Hitbox.contains (Hitbox.mk 0 0 2 2) px py = true /\
                Hitbox.contains (Hitbox.mk 1 1 2 2) px py = true.
Proof.
  apply (intersects_iff_common_point (Hitbox.mk 0 0 2 2) (Hitbox.mk 1 1 2 2));
    simpl; lra.
Defined.

(** ** The console panel *)

Lemma distinct_neighbours_snoc (p : list Console.entry) (e : Console.entry) :
  Console.distinct_neighbours p ->
  (forall e1, last p = Some e1 -> Console.key e1 <> Console.key e) ->
  Console.distinct_neighbours (p ++ [e]).
Proof.
  intros Hp Hl i e1 e2 H1 H2.
  destruct (decide (S i < length p)%nat) as [Hi | Hi].
  - rewrite lookup_app_l in H1 by lia. rewrite lookup_app_l in H2 by lia. eauto.
  - assert (S i = length p) as Hi'.
    { apply lookup_lt_Some in H2. rewrite length_app in H2. simpl in H2. lia. }
    rewrite lookup_app_l in H1 by lia.
    rewrite Hi', lookup_app_r, Nat.sub_diag in H2 by lia. injection H2 as <-.
    apply Hl. rewrite last_lookup. rewrite <- Hi'. exact H1.
Qed.

Lemma distinct_neighbours_init (p : list Console.entry) (e : Console.entry) :
  Console.distinct_neighbours (p ++ [e]) ->
  Console.distinct_neighbours p /\ (forall e1, last p = Some e1 -> Console.key e1 <> Console.key e).
Proof.
  intros H. split.
  - intros i e1 e2 H1 H2. apply (H i e1 e2).
    + apply lookup_app_l_Some, H1.
    + apply lookup_app_l_Some, H2.
  - intros e1 H1. rewrite last_lookup in H1.
    destruct p as [| e0 p]; [discriminate |]. simpl in H1.
    apply (H (length p) e1 e).
    + apply lookup_app_l_Some, H1.
    + change (S (length p)) with (length (e0 :: p)).
      rewrite lookup_app_r, Nat.sub_diag by lia. reflexivity.
Qed.

Lemma expand_snoc (p : list Console.entry) (e : Console.entry) :
  Console.expand (p ++ [e]) =
  Console.expand p ++ replicate (Console.shown e) (Console.key e).
Proof.
  unfold Console.expand. rewrite bind_app. simpl. now rewrite app_nil_r.
Qed.

Lemma write_inv (s : Console.t) (ws : list (string * string)) (v : string * string) :
  Console.console_inv s ws -> v <> (""%string, ""%string) ->
  exists s', Console._writeConsole v s = Some s' /\ Console.console_inv s' (ws ++ [v]).
Proof.
  intros (Hadj & Hlab & Hexp & Hlast) Hv. unfold Console._writeConsole.
  destruct Hlast as [[Hp Hl] | (p & e & Hp & Hl & Href & Hshown & Hrep)].
  - rewrite Hl. destruct (decide (v = (""%string, ""%string))) as [E | _];
      [contradiction |].
    eexists. split; [reflexivity |]. rewrite Hp in *. simpl in Hexp. subst ws.
    split; [| split; [| split]]; simpl.
    + intros [| i] e1 e2 H1 H2; discriminate.
    + repeat constructor. simpl. discriminate.
    + destruct v. reflexivity.
    + right. exists [], (Console.mkEntry v.1 v.2 None). simpl.
      destruct v. repeat split; lia.
  - rewrite Hl, Href. destruct (decide (v = Console.key e)) as [-> | Hne].
    + eexists. split; [reflexivity |].
      rewrite Hp, length_app, Nat.add_comm. simpl.
      replace (length p) with (length p + 0)%nat by lia.
      rewrite alter_app_r. simpl.
      rewrite Hp in Hadj, Hlab, Hexp.
      apply distinct_neighbours_init in Hadj as [Hadj1 Hadj2].
      apply Forall_app in Hlab as [Hlab1 _].
      rewrite expand_snoc in Hexp.
      split; [| split; [| split]]; simpl.
      * apply distinct_neighbours_snoc; assumption.
      * apply Forall_app. split; [exact Hlab1 |].
        repeat constructor. simpl. intros n [= <-]. lia.
      * rewrite expand_snoc.
        change (Console.shown (Console.set_repetition (S (Console._repetition s)) e))
          with (S (Console._repetition s)).
        change (Console.key (Console.set_repetition (S (Console._repetition s)) e))
          with (Console.key e).
        rewrite <- Hexp, Hshown, <- app_assoc. f_equal.
        change [Console.key e] with (replicate 1 (Console.key e)).
        rewrite <- replicate_add. f_equal. lia.
      * right. eexists p, _. repeat split; simpl; lia.
    + eexists. split; [reflexivity |].
      split; [| split; [| split]]; simpl.
      * apply distinct_neighbours_snoc; [exact Hadj |].
        intros e1 H1. rewrite Hp, last_snoc in H1. injection H1 as <-.
        destruct v. unfold Console.key in *. simpl. congruence.
      * apply Forall_app. split; [exact Hlab |].
        repeat constructor. simpl. discriminate.
      * rewrite expand_snoc, Hexp. simpl. destruct v. reflexivity.
      * right. eexists (Console.panel s), _. simpl.
        destruct v. repeat split; lia.
Qed.

Lemma clear_inv (s : Console.t) : Console.console_inv (Console.clearConsole s) [].
Proof.
  split; [| split; [| split]]; simpl.
  - intros i e1 e2 H1. discriminate.
  - constructor.
  - reflexivity.
  - left. auto.
Qed.

Lemma run_inv (calls : list Console.call) (s : Console.t)
    (ws : list (string * string)) :
  Console.console_inv s ws ->
  (forall c v, Console.Write c v ∈ calls -> (c, v) <> (""%string, ""%string)) ->
  exists s', Console.run calls s = Some s' /\
             Console.console_inv s' (Console.since_clear ws calls).
Proof.
  revert s ws. induction calls as [| [c v |] calls IH]; intros s ws Hinv Hcalls.
  - exists s. auto.
  - simpl.
    destruct (write_inv s ws (c, v) Hinv) as (s1 & -> & Hinv1);
      [apply Hcalls; left |].
    simpl. apply IH; [exact Hinv1 |].
    intros c' v' H. apply Hcalls. now right.
  - simpl. apply IH; [apply clear_inv |].
    intros c' v' H. apply Hcalls. now right.
Qed.

(** X16.  The console panel is a run-length encoding of what was written
    to it.  Over any sequence of writes and clearings in which every write
    has a class or a text (as those of [console.log] and of the error
    handler have), no write throws, and afterwards: replacing every entry
    by as many copies of its class and text as its span shows (one for an
    empty span) gives back the values written since the last clearing, in
    order; neighbouring entries differ; a span that shows a number shows 2
    or more. *)
Theorem console_run_length (calls : list Console.call) :
  (forall c v, Console.Write c v ∈ calls -> (c, v) <> (""%string, ""%string)) ->
  exists s,
    Console.run calls Console.initial = Some s /\
    Console.expand (Console.panel s) = Console.since_clear [] calls /\
    (forall i e e',
        Console.panel s !! i = Some e -> Console.panel s !! S i = Some e' ->
        (Console.className e, Console.text e) <>
        (Console.className e', Console.text e')) /\
    Forall (fun e => forall n, Console.repetition e = Some n -> (2 <= n)%nat)
           (Console.panel s).
Proof.
  intros Hcalls.
  destruct (run_inv calls Console.initial []) as (s & Hrun & Hadj & Hlab & Hexp & _).
  - split; [| split; [| split]]; simpl.
    + intros i e1 e2 H1. discriminate.
    + constructor.
    + reflexivity.
    + left. auto.
  - exact Hcalls.
  - exists s. auto.
Qed.

(** X16 at three logs of "a" followed by one of "b". *)
Lemma console_run_length_witness :
  exists s,
    Console.run [Console.Write "log" "a"; Console.Write "log" "a";
                 Console.Write "log" "a"; Console.Write "log" "b"]
                Console.initial = Some s /\
    Console.panel s = [Console.mkEntry "log" "a" (Some 3%nat);
                       Console.mkEntry "log" "b" None].
Proof.
  destruct (console_run_length
              [Console.Write "log" "a"; Console.Write "log" "a";
               Console.Write "log" "a"; Console.Write "log" "b"])
    as (s & Hrun & _).
  - intros c v H.
    repeat (apply elem_of_cons in H as [H | H]; [injection H as -> ->; discriminate |]).
    inversion H.
  - exists s. split; [exact Hrun |].
    vm_compute in Hrun. injection Hrun as <-. reflexivity.
Defined.

(** ** Canvas layers *)

Lemma setLayer_wf (l : Z) (s : Layers.t) : Layers.wf (Layers.setLayer l s).
Proof.
  intros l' [= <-]. simpl.
  destruct (Layers._ctxs s !! l) eqn:E; [rewrite E; eauto |].
  rewrite lookup_insert_eq. eauto.
Qed.

Lemma draw_wf (f : Canvas.ctx -> Canvas.ctx) (s : Layers.t) :
  Layers.wf s -> Layers.wf (Layers.draw f s).
Proof.
  intros Hwf l Hl. unfold Layers.draw in *.
  destruct (Layers._layer s) as [l0 |] eqn:E; [| rewrite E in Hl; discriminate].
  simpl in *. injection Hl as ->.
  rewrite lookup_alter_eq. destruct (Hwf l E) as [c ->]. simpl. eauto.
Qed.

(** The context of a layer after a run of calls: the drawing calls made
    while the layer was current, applied in order to the context the layer
    had before, or to that of a new canvas when the layer is first
    selected during the run. *)
Lemma run_layer (calls : list Layers.call) (s : Layers.t) (l : Z) :
  Layers.wf s ->
  Layers._ctxs (Layers.run calls s) !! l =
    match Layers._ctxs s !! l with
    | Some c =>
        Some (foldl (fun c f => f c) c (Layers.drawn l (Layers._layer s) calls))
    | None =>
        if Layers.selects l calls
        then Some (foldl (fun c f => f c) Canvas.blank
                         (Layers.drawn l (Layers._layer s) calls))
        else None
    end.
Proof.
  revert s. induction calls as [| [l' | f] calls IH]; intros s Hwf.
  - simpl. destruct (Layers._ctxs s !! l); reflexivity.
  - change (Layers.run (Layers.SetLayer l' :: calls) s)
      with (Layers.run calls (Layers.setLayer l' s)).
    rewrite IH by apply setLayer_wf. simpl.
    destruct (Z.eqb_spec l' l) as [-> | Hne].
    + destruct (Layers._ctxs s !! l) as [c |] eqn:E.
      * rewrite E. reflexivity.
      * rewrite lookup_insert_eq. reflexivity.
    + destruct (Layers._ctxs s !! l') as [c' |] eqn:E'; [reflexivity |].
      rewrite lookup_insert_ne by exact Hne. reflexivity.
  - change (Layers.run (Layers.Draw f :: calls) s)
      with (Layers.run calls (Layers.draw f s)).
    rewrite IH by (apply draw_wf, Hwf). simpl. unfold Layers.draw.
    destruct (Layers._layer s) as [l0 |] eqn:E0; simpl.
    + destruct (decide (Some l0 = Some l)) as [[= ->] | Hne].
      * rewrite lookup_alter_eq. destruct (Hwf l E0) as [c ->]. reflexivity.
      * rewrite lookup_alter_ne by congruence. reflexivity.
    + rewrite E0.
      destruct (decide (None = Some l)) as [? | _]; [discriminate |]. reflexivity.
Qed.

(** X17.  Layers are isolated and persistent.  After any sequence of
    [setLayer] and drawing calls made once the library has loaded, a layer
    has a context exactly when it is layer 0 or has been selected, and
    that context is the result of applying, to a cleared canvas with the
    default drawing state, the drawing calls made while the layer was
    current, in order: drawing on other layers and selecting a layer again
    change nothing of it. *)
Theorem layers_isolated (calls : list Layers.call) (l : Z) :
  Layers._ctxs (Layers.run calls Layers.initial) !! l =
    if (l =? 0)%Z || Layers.selects l calls
    then Some (foldl (fun c f => f c) Canvas.blank
                     (Layers.drawn l (Some 0%Z) calls))
    else None.
Proof.
  rewrite run_layer by apply setLayer_wf.
  unfold Layers.initial, Layers.setLayer. simpl. rewrite (lookup_empty 0%Z).
  destruct (Z.eqb_spec l 0) as [-> | Hne]; simpl.
  - rewrite lookup_insert_eq. reflexivity.
  - rewrite lookup_insert_ne, lookup_empty by congruence. reflexivity.
Qed.

(** ** The input/output panel *)

Lemma assign_end {A} (v : A) (l : list A) :
  Pointer.assign (length (Some <$> l)) (Some v) (Some <$> l) = Some <$> (l ++ [v]).
Proof.
  unfold Pointer.assign.
  destruct (decide (length (Some <$> l) < length (Some <$> l))%nat); [lia |].
  rewrite Nat.sub_diag, fmap_app. reflexivity.
Qed.

Lemma write_inputs (args : option (list ascii * list ascii)) (s : Panel.t) :
  Panel._inputLines (Panel.write args s) = Panel._inputLines s /\
  Panel._inputLineIndex (Panel.write args s) = Panel._inputLineIndex s.
Proof. unfold Panel.write. destruct (Panel._outputElt s); auto. Qed.

(** The strings read, for a panel whose input lines are [lines]. *)
Lemma run_reads (calls : list Panel.call) (s : Panel.t) (lines : list (list ascii)) :
  Panel.inputs_wf s lines ->
  (Panel.run calls s).1 =
  imap (fun j typed => default typed (lines !! (Panel._inputLineIndex s + j)%nat))
       (Panel.typed_at calls).
Proof.
  revert s lines.
  induction calls as [| [p typed | args |] calls IH]; intros s lines [Hl Hi].
  - reflexivity.
  - cbn [Panel.run]. unfold Panel.read.
    rewrite Hl, list_lookup_fmap.
    change (Panel.typed_at (Panel.Read p typed :: calls))
      with (typed :: Panel.typed_at calls).
    rewrite imap_cons, Nat.add_0_r.
    destruct (lines !! Panel._inputLineIndex s) as [line |] eqn:E; simpl.
    + match goal with
      | |- context [Panel.run calls ?s1] =>
          specialize (IH s1 lines); destruct (Panel.run calls s1) as [ls s2]
      end.
      simpl in *. f_equal. rewrite IH.
      * apply imap_ext. intros j x _. simpl. now rewrite Nat.add_succ_r.
      * split; [reflexivity |]. apply lookup_lt_Some in E. simpl. lia.
    + apply lookup_ge_None in E.
      assert (Panel._inputLineIndex s = length lines) as Hidx by lia.
      match goal with
      | |- context [Panel.run calls ?s1] =>
          specialize (IH s1 (lines ++ [typed]));
          destruct (Panel.run calls s1) as [ls s2]
      end.
      simpl in *. f_equal. rewrite IH.
      * apply imap_ext. intros j x _. simpl.
        rewrite !(proj2 (lookup_ge_None _ _)); [reflexivity | lia |].
        rewrite length_app. simpl. lia.
      * split; [| rewrite length_app; simpl; lia].
        simpl. rewrite Hidx. rewrite <- (length_fmap Some lines) at 1.
        apply assign_end.
  - cbn [Panel.run]. destruct (write_inputs args s) as [E1 E2].
    rewrite (IH (Panel.write args s) lines) by (split; congruence).
    rewrite E2. reflexivity.
  - cbn [Panel.run]. rewrite (IH (Panel.clearIO s) lines) by (split; assumption).
    reflexivity.
Qed.

(** X18.  The strings that [read] hands out.  With the input lines of
    the [i] parameter preloaded, the [k]-th call of [read] (from 0)
    resolves to the [k]-th preloaded line while there is one, and to what
    the user types otherwise, whatever is written or cleared in
    between. *)
Theorem reads_take_inputs (decodeURIComponent : list ascii -> list ascii)
    (iParam : option (list ascii)) (calls : list Panel.call) :
  (Panel.run calls (Panel.initial decodeURIComponent iParam)).1 =
  imap (fun k typed =>
          default typed
            (match iParam with
             | Some i => Panel.split (decodeURIComponent i)
             | None => []
             end !! k))
       (Panel.typed_at calls).
Proof.
  rewrite (run_reads calls _
             (match iParam with
              | Some i => Panel.split (decodeURIComponent i)
              | None => []
              end)).
  - reflexivity.
  - split; [| simpl; lia]. destruct iParam; reflexivity.
Qed.

Lemma read_output (p typed : list ascii) (s : Panel.t) :
  Panel._outputElt (Panel.read p typed s).2 = None.
Proof.
  unfold Panel.read. destruct (mjoin _); reflexivity.
Qed.

Lemma write_output (args : option (list ascii * list ascii)) (s : Panel.t) :
  Panel.output_wf s ->
  Panel.output_wf (Panel.write args s) /\
  Panel.output_text (Panel.write args s) =
    Some (default [] (Panel.output_text s) ++
          match args with
          | Some (value, end_) => value ++ end_
          | None => [Panel.newline]
          end).
Proof.
  intros Hwf. unfold Panel.write, Panel.output_text, Panel.output_wf.
  destruct (Panel._outputElt s) as [i |] eqn:E; simpl.
  - destruct (Hwf i E) as [t Ht]. rewrite E. simpl. split.
    + intros i' [= <-]. rewrite list_lookup_alter_eq, Ht. eexists. reflexivity.
    + rewrite list_lookup_alter_eq, Ht. reflexivity.
  - replace (length (Panel._io s)) with (length (Panel._io s) + 0)%nat by lia.
    rewrite alter_app_r. simpl. split.
    + intros i' [= <-]. rewrite lookup_app_r, Nat.add_0_r, Nat.sub_diag by lia.
      simpl. eauto.
    + rewrite lookup_app_r, Nat.add_0_r, Nat.sub_diag by lia. reflexivity.
Qed.

Lemma run_output (calls : list Panel.call) (s : Panel.t) :
  Panel.output_wf s ->
  Panel.output_text (Panel.run calls s).2 =
  Panel.pending (Panel.output_text s) calls.
Proof.
  revert s. induction calls as [| [p typed | args |] calls IH]; intros s Hwf.
  - reflexivity.
  - cbn [Panel.run Panel.pending].
    pose proof (read_output p typed s) as Hr.
    destruct (Panel.read p typed s) as [line s1]. simpl in Hr.
    specialize (IH s1).
    destruct (Panel.run calls s1) as [ls s2]. simpl in *.
    rewrite IH.
    + unfold Panel.output_text. rewrite Hr. reflexivity.
    + intros i Hi. congruence.
  - cbn [Panel.run Panel.pending].
    destruct (write_output args s Hwf) as [Hwf' Ht].
    rewrite IH, Ht by exact Hwf'. reflexivity.
  - cbn [Panel.run Panel.pending]. rewrite IH; [reflexivity |].
    intros i Hi. discriminate.
Qed.

(** X19.  The text that the [load] listener reads from [_outputElt] is
    what was written since the last [read] or [clearIO], the chunks of the
    calls of [write] joined in order; it is missing when nothing was
    written since.  Output written before a [read] is not looked at. *)
Theorem output_since_last_read (decodeURIComponent : list ascii -> list ascii)
    (iParam : option (list ascii)) (calls : list Panel.call) :
  Panel.output_text (Panel.run calls (Panel.initial decodeURIComponent iParam)).2 =
  Panel.pending None calls.
Proof.
  rewrite run_output; [reflexivity |]. intros i Hi. discriminate.
Qed.

Lemma split_line (l rest : list ascii) :
  Panel.newline ∉ l ->
  Panel.split (l ++ Panel.newline :: rest) = l :: Panel.split rest.
Proof.
  induction l as [| c l IH]; intros Hl; simpl.
  - reflexivity.
  - destruct (Ascii.eqb_spec c Panel.newline) as [-> | Hc].
    + exfalso. apply Hl. left.
    + rewrite IH; [reflexivity |]. intros H. apply Hl. now right.
Qed.

Lemma split_lines (ls : list (list ascii)) :
  Forall (fun l => Panel.newline ∉ l) ls ->
  Panel.split (ls ≫= (fun l => l ++ [Panel.newline])) = ls ++ [[]].
Proof.
  induction 1 as [| l ls Hl _ IH]; [reflexivity |].
  rewrite bind_cons, <- app_assoc. simpl. rewrite split_line by exact Hl.
  now rewrite IH.
Qed.

Lemma join_snoc_empty (xs : list (list ascii)) :
  xs <> [] -> Panel.join (xs ++ [[]]) = Panel.join xs ++ [Panel.newline].
Proof.
  destruct xs as [| x xs]; [congruence |]. intros _. simpl.
  rewrite bind_app, <- app_assoc. simpl. reflexivity.
Qed.

Lemma trimEnd_snoc_space (s : list ascii) (c : ascii) :
  Panel.is_space c = true -> Panel.trimEnd (s ++ [c]) = Panel.trimEnd s.
Proof.
  intros Hc. induction s as [| a s IH]; simpl.
  - now rewrite Hc.
  - now rewrite IH.
Qed.

Lemma trimEnd_last (s : list ascii) (c : ascii) :
  last (Panel.trimEnd s) = Some c -> Panel.is_space c = false.
Proof.
  induction s as [| a s IH]; simpl; [discriminate |].
  destruct (Panel.trimEnd s) as [| b t] eqn:E.
  - destruct (Panel.is_space a) eqn:Ea; simpl; [discriminate |].
    intros [= <-]. exact Ea.
  - intros H. apply IH. exact H.
Qed.

(** A text that ends in a character other than white space is its own
    [trimEnd]. *)
Lemma trimEnd_fixed (s : list ascii) (c : ascii) :
  Panel.is_space c = false -> Panel.trimEnd (s ++ [c]) = s ++ [c].
Proof.
  intros Hc. induction s as [| a s IH]; simpl.
  - now rewrite Hc.
  - rewrite IH. destruct s; reflexivity.
Qed.

Lemma pending_writes (ls : list (list ascii)) (acc : list ascii) :
  Panel.pending (Some acc)
    ((fun l => Panel.Write (Some (l, [Panel.newline]))) <$> ls) =
  Some (acc ++ (ls ≫= (fun l => l ++ [Panel.newline]))).
Proof.
  revert acc. induction ls as [| l ls IH]; intros acc.
  - simpl. now rewrite app_nil_r.
  - rewrite fmap_cons, bind_cons. cbn [Panel.pending default].
    rewrite IH, <- !app_assoc. reflexivity.
Qed.

(** X20.  What the check sees of a program that writes lines.  When the
    program writes the lines [ls], none of which contains a line feed,
    each with the default [end], the text checked against the [o]
    parameter is the lines without their trailing white space, joined by
    line feeds, without the white space that ends the whole; it never ends
    in white space.  If no line ends in white space and the last line is
    not empty, it is the lines joined by line feeds. *)
Theorem written_lines_checked (decodeURIComponent : list ascii -> list ascii)
    (iParam : option (list ascii)) (ls : list (list ascii)) :
  Forall (fun l => Panel.newline ∉ l) ls ->
  let s := (Panel.run ((fun l => Panel.Write (Some (l, [Panel.newline]))) <$> ls)
                      (Panel.initial decodeURIComponent iParam)).2 in
  Panel.checked_output s = Panel.trimEnd (Panel.join (Panel.trimEnd <$> ls)) /\
  (forall c, last (Panel.checked_output s) = Some c -> Panel.is_space c = false) /\
  (Forall (fun l => Panel.trimEnd l = l) ls ->
   (forall l, last ls = Some l -> l <> []) ->
   Panel.checked_output s = Panel.join ls).
Proof.
  intros Hls s.
  assert (Panel.checked_output s =
          Panel.trimEnd (Panel.join (Panel.trimEnd <$> ls))) as Hchecked.
  { unfold Panel.checked_output, s. rewrite run_output by (intros i Hi; discriminate).
    change (Panel.output_text (Panel.initial decodeURIComponent iParam)) with
      (@None (list ascii)).
    destruct ls as [| l ls]; [reflexivity |].
    cbn [fmap list_fmap Panel.pending default].
    change (list_fmap _ _ ?f ls) with (f <$> ls).
    rewrite pending_writes. simpl app at 1.
    change ((l ++ [Panel.newline]) ++ (ls ≫= (fun l0 => l0 ++ [Panel.newline])))
      with ((l :: ls) ≫= (fun l0 => l0 ++ [Panel.newline])).
    rewrite split_lines by exact Hls.
    rewrite fmap_app. change (Panel.trimEnd <$> [[]]) with [@nil ascii].
    rewrite join_snoc_empty by discriminate.
    apply trimEnd_snoc_space. reflexivity. }
  split; [exact Hchecked |]. split.
  - intros c. rewrite Hchecked. apply trimEnd_last.
  - intros Hfixed Hlast. rewrite Hchecked.
    replace (Panel.trimEnd <$> ls) with ls.
    2:{ clear -Hfixed. induction Hfixed as [| l ls Hl _ IH]; [reflexivity |].
        simpl. change (list_fmap _ _ ?f ls) with (f <$> ls). congruence. }
    destruct (decide (ls = [])) as [-> | Hne]; [reflexivity |].
    destruct (exists_last Hne) as (ls' & l & ->).
    specialize (Hlast l (last_snoc _ _)).
    apply Forall_app in Hfixed as [_ Hl]. apply Forall_inv in Hl.
    destruct (decide (l = [])) as [-> | Hl']; [congruence |].
    destruct (exists_last Hl') as (l' & c & ->).
    assert (Panel.is_space c = false) as Hc.
    { apply (trimEnd_last (l' ++ [c])). cbv beta in Hl. rewrite Hl.
      apply last_snoc. }
    assert (exists t, Panel.join (ls' ++ [l' ++ [c]]) = t ++ [c]) as [t ->].
    { destruct ls' as [| x ls']; simpl.
      - exists l'. now rewrite app_nil_r.
      - rewrite bind_app. simpl. rewrite app_nil_r.
        eexists (x ++ (ls' ≫= _) ++ Panel.newline :: l').
        rewrite <- !app_assoc. simpl. reflexivity. }
    apply trimEnd_fixed, Hc.
Qed.

(** X20 at a program that writes "ab " and then "c": the text checked is
    "ab", a line feed, "c". *)
Lemma written_lines_checked_witness :
  Panel.checked_output
    (Panel.run
       ((fun l => Panel.Write (Some (l, [Panel.newline]))) <$>
        [["a"; "b"; " "]%char; ["c"]%char])
       (Panel.initial (fun s => s) None)).2 =
  ["a"; "b"; Panel.newline; "c"]%char.
Proof.
  destruct (written_lines_checked (fun s => s) None
              [["a"; "b"; " "]%char; ["c"]%char]) as (Checked & _).
  - repeat constructor; intros H;
      repeat (apply elem_of_cons in H as [H | H]; [discriminate H |]);
      inversion H.
  - rewrite Checked. reflexivity.
Defined.

(** ** The sprite sheet and the frame shown *)

Lemma of_nat_add (a b : nat) : Num.of_nat (a + b) == Num.of_nat a + Num.of_nat b.
Proof. unfold Num.of_nat. now rewrite Nat2Z.inj_add, inject_Z_plus. Qed.

Lemma of_nat_mul (a b : nat) : Num.of_nat (a * b) == Num.of_nat a * Num.of_nat b.
Proof. unfold Num.of_nat. now rewrite Nat2Z.inj_mul, inject_Z_mult. Qed.

(** [Math.floor(i / columns)] is the quotient of the integer division. *)
Lemma floor_div_nat (i c : nat) :
  (0 < c)%nat -> Num.floor (Num.of_nat i / Num.of_nat c) = Z.of_nat (i / c).
Proof.
  intros Hc. pose proof (of_nat_pos c Hc) as Hpos.
  pose proof (Nat.div_mod_eq i c) as Hdiv.
  pose proof (Nat.mod_upper_bound i c ltac:(lia)) as Hmod.
  assert (Num.of_nat i == Num.of_nat c * Num.of_nat (i / c) + Num.of_nat (i mod c))
    as Hi by (rewrite <- of_nat_mul, <- of_nat_add, <- Hdiv; reflexivity).
  pose proof (of_nat_nonneg (i mod c)) as H0.
  assert (Num.of_nat (i mod c) < Num.of_nat c) as H1 by (apply of_nat_lt; lia).
  unfold Num.floor. apply floor_unique; fold (Num.of_nat (i / c)).
  - apply Qle_shift_div_l; [exact Hpos | lra].
  - apply Qlt_shift_div_r; [exact Hpos | lra].
Qed.

(** The offsets of the frame number [f]. *)
Lemma tile_offsets (sheet : Canvas.HTMLImageElement) (rows columns f : nat)
    (sx sy : Q) :
  SpriteSheet.sxs sheet rows columns !! f = Some sx ->
  SpriteSheet.sys sheet rows columns !! f = Some sy ->
  (f < rows * columns)%nat /\
  sx = SpriteSheet.frameWidth sheet columns * Num.of_nat (f mod columns) /\
  sy = SpriteSheet.frameHeight sheet rows * Num.of_nat (f / columns).
Proof.
  unfold SpriteSheet.sxs, SpriteSheet.sys. rewrite !lookup_map.
  destruct (decide (f < rows * columns)%nat) as [Hf | Hf].
  - rewrite !lookup_seq_lt by exact Hf.
    cbn [fmap option_fmap option_map Nat.add]. intros E1 E2.
    apply (inj Some) in E1, E2. subst sx sy.
    rewrite floor_div_nat by (destruct columns; lia). auto.
  - rewrite lookup_seq_ge by lia. discriminate.
Qed.

Lemma tile_defined (sheet : Canvas.HTMLImageElement) (rows columns f : nat) :
  (f < rows * columns)%nat ->
  SpriteSheet.sxs sheet rows columns !! f =
    Some (SpriteSheet.frameWidth sheet columns * Num.of_nat (f mod columns)) /\
  SpriteSheet.sys sheet rows columns !! f =
    Some (SpriteSheet.frameHeight sheet rows * Num.of_nat (f / columns)).
Proof.
  intros Hf. unfold SpriteSheet.sxs, SpriteSheet.sys.
  rewrite !lookup_map, !lookup_seq_lt by exact Hf.
  cbn [fmap option_fmap option_map Nat.add].
  rewrite floor_div_nat by (destruct columns; lia). auto.
Qed.

(** The index of the strip of width [p] that holds an offset of
    [0, n * p). *)
Lemma strip_index (p px : Q) (n : nat) :
  0 < p -> 0 <= px -> px < Num.of_nat n * p ->
  exists j, (j < n)%nat /\ p * Num.of_nat j <= px /\ px < p * Num.of_nat j + p.
Proof.
  intros Hp H0 Hn.
  pose proof (Qfloor_le (px / p)) as F1. pose proof (Qlt_floor (px / p)) as F2.
  rewrite inject_Z_plus in F2. change (inject_Z 1) with 1 in F2.
  assert (px == px / p * p) as Hpx by (field; lra).
  assert (0 <= Qfloor (px / p))%Z as Hnonneg.
  { apply floor_at_least. change (inject_Z 0) with 0.
    apply Qle_shift_div_l; [exact Hp | lra]. }
  assert (inject_Z (Qfloor (px / p)) * p <= px) as L.
  { rewrite Hpx at 2. apply Qmult_le_compat_r; lra. }
  assert (px < (inject_Z (Qfloor (px / p)) + 1) * p) as U.
  { rewrite Hpx at 1. apply Qmult_lt_compat_r; lra. }
  exists (Z.to_nat (Qfloor (px / p))). unfold Num.of_nat in *.
  rewrite Z2Nat.id by exact Hnonneg. split; [| split; lra].
  assert (inject_Z (Qfloor (px / p)) < inject_Z (Z.of_nat n)) as Hlt.
  { destruct (Qlt_le_dec (inject_Z (Qfloor (px / p))) (inject_Z (Z.of_nat n)))
      as [? | Hge]; [assumption | exfalso].
    assert (inject_Z (Z.of_nat n) * p <= inject_Z (Qfloor (px / p)) * p)
      by (apply Qmult_le_compat_r; lra).
    lra. }
  rewrite <- Zlt_Qlt in Hlt. lia.
Qed.

(** X21.  The frames of a sprite sheet tile the sheet.  For a sheet of
    positive width and height cut into [rows] by [columns] frames, with at
    least one row and one column: the source rectangle of a frame number
    is defined exactly for the numbers below [rows * columns] and lies
    within the sheet; every point of the sheet lies in the source
    rectangle of some frame number; and of one only. *)
Theorem frames_tile_sheet (sheet : Canvas.HTMLImageElement) (rows columns : nat) :
  (0 < rows)%nat -> (0 < columns)%nat ->
  0 < Canvas.img_width sheet -> 0 < Canvas.img_height sheet ->
  (forall f, (f < rows * columns)%nat <->
             is_Some (SpriteSheet.sxs sheet rows columns !! f) /\
             is_Some (SpriteSheet.sys sheet rows columns !! f)) /\
  (forall f px py, SpriteSheet.in_tile sheet rows columns f px py ->
     0 <= px /\ px < Canvas.img_width sheet /\
     0 <= py /\ py < Canvas.img_height sheet) /\
  (forall px py,
     0 <= px -> px < Canvas.img_width sheet ->
     0 <= py -> py < Canvas.img_height sheet ->
     exists f, SpriteSheet.in_tile sheet rows columns f px py) /\
  (forall f f' px py,
     SpriteSheet.in_tile sheet rows columns f px py ->
     SpriteSheet.in_tile sheet rows columns f' px py -> f = f').
Proof.
  intros Hrows Hcolumns HW HH.
  pose proof (of_nat_pos rows Hrows) as Hr. pose proof (of_nat_pos columns Hcolumns) as Hc.
  assert (0 < SpriteSheet.frameWidth sheet columns) as Hfw.
  { unfold SpriteSheet.frameWidth. apply Qlt_shift_div_l; [exact Hc | lra]. }
  assert (0 < SpriteSheet.frameHeight sheet rows) as Hfh.
  { unfold SpriteSheet.frameHeight. apply Qlt_shift_div_l; [exact Hr | lra]. }
  assert (Num.of_nat columns * SpriteSheet.frameWidth sheet columns ==
          Canvas.img_width sheet) as HWc.
  { unfold SpriteSheet.frameWidth. field. lra. }
  assert (Num.of_nat rows * SpriteSheet.frameHeight sheet rows ==
          Canvas.img_height sheet) as HHr.
  { unfold SpriteSheet.frameHeight. field. lra. }
  split; [| split; [| split]].
  - intros f. split.
    + intros Hf. destruct (tile_defined sheet rows columns f Hf) as [-> ->]. eauto.
    + intros [[sx Hsx] [sy Hsy]].
      now destruct (tile_offsets sheet rows columns f sx sy Hsx Hsy).
  - intros f px py (sx & sy & Hsx & Hsy & X1 & X2 & Y1 & Y2).
    destruct (tile_offsets sheet rows columns f sx sy Hsx Hsy) as (Hf & -> & ->).
    pose proof (of_nat_nonneg (f mod columns)) as M0.
    pose proof (of_nat_nonneg (f / columns)) as D0.
    assert (Num.of_nat (S (f mod columns)) <= Num.of_nat columns) as M1.
    { apply of_nat_le. pose proof (Nat.mod_upper_bound f columns). lia. }
    assert (Num.of_nat (S (f / columns)) <= Num.of_nat rows) as D1.
    { apply of_nat_le. apply Nat.Div0.div_lt_upper_bound. lia. }
    rewrite of_nat_succ in M1, D1.
    assert (0 <= SpriteSheet.frameWidth sheet columns * Num.of_nat (f mod columns))
      by (apply Qmult_le_0_compat; lra).
    assert (0 <= SpriteSheet.frameHeight sheet rows * Num.of_nat (f / columns))
      by (apply Qmult_le_0_compat; lra).
    assert ((Num.of_nat (f mod columns) + 1) * SpriteSheet.frameWidth sheet columns
            <= Num.of_nat columns * SpriteSheet.frameWidth sheet columns)
      by (apply Qmult_le_compat_r; lra).
    assert ((Num.of_nat (f / columns) + 1) * SpriteSheet.frameHeight sheet rows
            <= Num.of_nat rows * SpriteSheet.frameHeight sheet rows)
      by (apply Qmult_le_compat_r; lra).
    lra.
  - intros px py X0 X1 Y0 Y1.
    destruct (strip_index (SpriteSheet.frameWidth sheet columns) px columns)
      as (j & Hj & Xa & Xb); [exact Hfw | exact X0 | lra |].
    destruct (strip_index (SpriteSheet.frameHeight sheet rows) py rows)
      as (i & Hi & Ya & Yb); [exact Hfh | exact Y0 | lra |].
    exists (j + i * columns)%nat.
    assert (j + i * columns < rows * columns)%nat as Hf by nia.
    destruct (tile_defined sheet rows columns _ Hf) as [Ex Ey].
    rewrite Nat.Div0.mod_add, Nat.mod_small in Ex by lia.
    rewrite Nat.div_add, Nat.div_small, Nat.add_0_l in Ey by lia.
    eexists _, _. split; [exact Ex |]. split; [exact Ey |]. lra.
  - intros f f' px py (sx & sy & Hsx & Hsy & X1 & X2 & Y1 & Y2)
                      (sx' & sy' & Hsx' & Hsy' & X1' & X2' & Y1' & Y2').
    destruct (tile_offsets sheet rows columns f sx sy Hsx Hsy) as (Hf & -> & ->).
    destruct (tile_offsets sheet rows columns f' sx' sy' Hsx' Hsy') as (Hf' & -> & ->).
    assert (forall p q (a b : nat), 0 < p ->
              p * Num.of_nat a <= q -> q < p * Num.of_nat a + p ->
              p * Num.of_nat b <= q -> q < p * Num.of_nat b + p -> a = b) as Same.
    { intros p q a b Hp A1 A2 B1 B2.
      assert (Num.floor ((q - 0) / p) = Z.of_nat a) by (apply floor_pitch; lra).
      assert (Num.floor ((q - 0) / p) = Z.of_nat b) by (apply floor_pitch; lra).
      lia. }
    pose proof (Same _ px _ _ Hfw X1 X2 X1' X2') as Emod.
    pose proof (Same _ py _ _ Hfh Y1 Y2 Y1' Y2') as Ediv.
    rewrite (Nat.div_mod_eq f columns), (Nat.div_mod_eq f' columns). congruence.
Qed.

(** X21 at a sheet 64 wide and 32 high cut into 2 rows of 4 frames: the
    point (40, 20) lies in the source rectangle of one frame number. *)
Lemma frames_tile_sheet_witness :
  exists f,
    SpriteSheet.in_tile (Canvas.mkImage 64 32 (fun _ _ => None)) 2 4 f 40 20.
Proof.
  destruct (frames_tile_sheet (Canvas.mkImage 64 32 (fun _ _ => None)) 2 4)
    as (_ & _ & Cover & _); [lia | lia | reflexivity | reflexivity |].
  apply Cover; simpl; lra.
Defined.

Lemma set_frames_index_bound (v : list Z) (s : Sprite.t) :
  v <> [] -> (Sprite.index s < length (Sprite._frames s))%nat ->
  (Sprite.index (Sprite.set_frames v s) <
   length (Sprite._frames (Sprite.set_frames v s)))%nat.
Proof.
  intros Hv Hs. unfold Sprite.set_frames.
  destruct (Sprite.changed v (Sprite._frames s)) eqn:E; simpl.
  - destruct v; [congruence | simpl; lia].
  - apply changed_false_iff in E. now subst v.
Qed.

Lemma set_frames_finished (v : list Z) (s : Sprite.t) :
  Sprite._finished (Sprite.set_frames v s) = Sprite._finished s.
Proof.
  unfold Sprite.set_frames. destruct (Sprite.changed _ _); reflexivity.
Qed.

Lemma update_index_bound (dt : Q) (s : Sprite.t) :
  (Sprite.index s < length (Sprite._frames s))%nat ->
  (Sprite.index (Sprite.update dt s) <
   length (Sprite._frames (Sprite.update dt s)))%nat.
Proof.
  intros Hs. pose proof (update_cases s dt) as (_ & _ & -> & _).
  destruct (update_index_step dt s) as [-> | [[-> H] | [-> _]]]; lia.
Qed.

(** X22.  The frame shown is always defined, and a finished sprite stays
    finished.  Over any sequence of calls of [update()] and assignments to
    [frames], [framesPerSecond] and [loop] in which [frames] is never
    given an empty array, a sprite whose position is within its frames
    keeps its position within its frames, so that [frame] is one of the
    frames; and once [finished] is true it remains true. *)
Theorem frame_always_defined (calls : list SpriteSheet.call) (s : Sprite.t) :
  (Sprite.index s < length (Sprite._frames s))%nat ->
  (forall v, SpriteSheet.SetFrames v ∈ calls -> v <> []) ->
  is_Some (SpriteSheet.frame (SpriteSheet.run calls s)) /\
  (Sprite._finished s = true ->
   Sprite._finished (SpriteSheet.run calls s) = true).
Proof.
  revert s. induction calls as [| c calls IH]; intros s Hs Hcalls.
  - split; [apply lookup_lt_is_Some_2; exact Hs | auto].
  - change (SpriteSheet.run (c :: calls) s)
      with (SpriteSheet.run calls (SpriteSheet.step s c)).
    assert (forall v, SpriteSheet.SetFrames v ∈ calls -> v <> []) as Hrest
      by (intros v Hv; apply Hcalls; now right).
    destruct c as [dt | v | v | b]; simpl.
    + destruct (IH (Sprite.update dt s)) as [I F];
        [now apply update_index_bound | exact Hrest |].
      split; [exact I |]. intros Hf. now apply F, update_finished_stays.
    + destruct (IH (Sprite.set_frames v s)) as [I F];
        [apply set_frames_index_bound; [apply Hcalls; left | exact Hs] | exact Hrest |].
      split; [exact I |]. intros Hf. apply F. now rewrite set_frames_finished.
    + destruct (IH (Sprite.set_framesPerSecond v s)) as [I F];
        [exact Hs | exact Hrest |]. auto.
    + destruct (IH (Sprite.set_loop b s)) as [I F]; [exact Hs | exact Hrest |]. auto.
Qed.

(** X22 at a new sprite over a sheet of 2 rows of 4 frames, updated,
    given other frames and updated again. *)
Lemma frame_always_defined_witness :
  is_Some
    (SpriteSheet.frame
       (SpriteSheet.run
          [SpriteSheet.Update 100; SpriteSheet.SetFrames [4; 5; 6]%Z;
           SpriteSheet.Update 100]
          (Sprite.new (Canvas.mkImage 64 32 (fun _ _ => None)) 2 4))).
Proof.
  apply (frame_always_defined
           [SpriteSheet.Update 100; SpriteSheet.SetFrames [4; 5; 6]%Z;
            SpriteSheet.Update 100]
           (Sprite.new (Canvas.mkImage 64 32 (fun _ _ => None)) 2 4)).
  - simpl. lia.
  - intros v H.
    repeat (apply elem_of_cons in H as [H | H];
            [first [discriminate H | injection H as ->; discriminate] |]).
    inversion H.
Defined.

(** ** The turtle *)

(** A call other than [beginFill] and [endFill] does not throw, and
    records the position it leaves when it places the turtle during a
    fill. *)
Lemma step_points (M : Turtle.Math) (c : Turtle.call) (s : Turtle.t) :
  Turtle.fills c = false ->
  exists log,
    Turtle.step M c s = (Path.Done, log, (Turtle.step M c s).2) /\
    Turtle.points (Turtle.step M c s).2 =
      if (0 <? length (Turtle.points s))%nat
      then Turtle.points s ++
           (if Turtle.places c
            then [(Turtle.x (Turtle.step M c s).2, Turtle.y (Turtle.step M c s).2)]
            else [])
      else [].
Proof.
  destruct c; try discriminate; intros _; simpl;
    unfold Turtle.set_state, Turtle.move; simpl;
    destruct (Turtle.points s) as [| p ps] eqn:E; simpl;
    eexists; (split; [reflexivity |]); rewrite ?app_nil_r; reflexivity.
Qed.

Lemma run_points (M : Turtle.Math) (calls : list Turtle.call) (s : Turtle.t) :
  Forall (fun c => Turtle.fills c = false) calls ->
  exists log s1,
    Turtle.run M calls s = (Path.Done, log, s1) /\
    Turtle.points s1 =
      (if (0 <? length (Turtle.points s))%nat
       then Turtle.points s ++ Turtle.trail M calls s
       else []).
Proof.
  intros H. revert s. induction H as [| c calls Hc _ IH]; intros s.
  - exists [], s. simpl. rewrite app_nil_r.
    destruct (Turtle.points s); auto.
  - destruct (step_points M c s Hc) as (log & Hstep & Hpoints).
    cbn [Turtle.run Turtle.trail]. rewrite Hstep.
    destruct (IH (Turtle.step M c s).2) as (log' & s1 & Hrun & Hp1).
    rewrite Hrun. exists (log ++ log'), s1. split; [reflexivity |].
    rewrite Hp1, Hpoints.
    destruct (Turtle.points s) as [| p ps]; simpl; [reflexivity |].
    now rewrite <- app_assoc.
Qed.

(** X23.  A fill follows the trail of the turtle.  After [beginFill()],
    over calls other than [beginFill] and [endFill], [endFill()] fills the
    polygon whose corners are the position at [beginFill()] followed by
    the position after each call that places the turtle ([forward],
    [backward] and the assignment to [state]), in order, in the colour the
    turtle has then; after it, the trail is empty, and stays empty over
    such calls. *)
Theorem fill_follows_trail (M : Turtle.Math) (calls : list Turtle.call)
    (s : Turtle.t) :
  Forall (fun c => Turtle.fills c = false) calls ->
  exists log s1 s2,
    Turtle.run M calls (Turtle.beginFill s) = (Path.Done, log, s1) /\
    Turtle.endFill s1 =
      (Path.Done,
       [Path.BeginPath; Path.MoveTo (Turtle.x s) (Turtle.y s)] ++
       map (fun q => Path.LineTo q.1 q.2)
           (Turtle.trail M calls (Turtle.beginFill s)) ++
       [Path.ClosePath; Path.SetFillStyle (Turtle._color s1); Path.Fill],
       s2) /\
    Turtle.points s2 = [] /\
    (forall more, Forall (fun c => Turtle.fills c = false) more ->
       Turtle.points (Turtle.run M more s2).2 = []).
Proof.
  intros H.
  destruct (run_points M calls (Turtle.beginFill s) H) as (log & s1 & Hrun & Hp).
  simpl in Hp.
  exists log, s1,
    (Turtle.mk (Turtle.x s1) (Turtle.y s1) (Turtle.heading s1) []
               (Turtle._color s1) (Turtle.penSize s1)).
  split; [exact Hrun |]. split; [| split; [reflexivity |]].
  - unfold Turtle.endFill. rewrite Hp. reflexivity.
  - intros more Hmore.
    match goal with
    | |- context [Turtle.run M more ?s2] =>
        destruct (run_points M more s2 Hmore) as (log' & s3 & Hrun' & Hp')
    end.
    rewrite Hrun'. exact Hp'.
Qed.

(** X23 at a turtle at (0, 0) that traces two sides of a square, with a
    cosine and sine that are right for the headings 0 and 90. *)
Lemma fill_follows_trail_witness :
  exists log s1 s2,
    Turtle.run (Turtle.mkMath (fun a => if Qeq_bool a 0 then 1 else 0)
                              (fun a => if Qeq_bool a 0 then 0 else 1) 2)
      [Turtle.Forward 10 true; Turtle.Right 90; Turtle.Forward 10 true]
      (Turtle.beginFill (Turtle.new 0 0 0)) = (Path.Done, log, s1) /\
    Turtle.endFill s1 =
      (Path.Done,
       [Path.BeginPath; Path.MoveTo 0 0] ++
       map (fun q => Path.LineTo q.1 q.2)
           (Turtle.trail (Turtle.mkMath (fun a => if Qeq_bool a 0 then 1 else 0)
                                        (fun a => if Qeq_bool a 0 then 0 else 1) 2)
              [Turtle.Forward 10 true; Turtle.Right 90; Turtle.Forward 10 true]
              (Turtle.beginFill (Turtle.new 0 0 0))) ++
       [Path.ClosePath; Path.SetFillStyle (Turtle._color s1); Path.Fill],
       s2).
Proof.
  destruct (fill_follows_trail
              (Turtle.mkMath (fun a => if Qeq_bool a 0 then 1 else 0)
                             (fun a => if Qeq_bool a 0 then 0 else 1) 2)
              [Turtle.Forward 10 true; Turtle.Right 90; Turtle.Forward 10 true]
              (Turtle.new 0 0 0))
    as (log & s1 & s2 & Hrun & Hfill & _).
  - repeat constructor.
  - exists log, s1, s2. split; [exact Hrun | exact Hfill].
Defined.

Lemma run_balanced (M : Turtle.Math) (calls : list Turtle.call) (s : Turtle.t) :
  (Turtle.run M calls s).1.1 = Path.Done <->
  Turtle.balanced (0 <? length (Turtle.points s))%nat calls = true.
Proof.
  revert s. induction calls as [| c calls IH]; intros s.
  - simpl. tauto.
  - destruct (Turtle.fills c) eqn:Hc.
    + destruct c; try discriminate; cbn [Turtle.run Turtle.step Turtle.balanced].
      * specialize (IH (Turtle.beginFill s)).
        destruct (Turtle.run M calls (Turtle.beginFill s)) as [[o l] s']. exact IH.
      * unfold Turtle.endFill.
        destruct (Turtle.points s) as [| p ps] eqn:E; simpl.
        -- split; discriminate.
        -- match goal with
           | |- context [Turtle.run M calls ?s1] =>
               specialize (IH s1); destruct (Turtle.run M calls s1) as [[o l] s']
           end.
           exact IH.
    + destruct (step_points M c s Hc) as (log & Hstep & Hpoints).
      cbn [Turtle.run]. rewrite Hstep.
      specialize (IH (Turtle.step M c s).2).
      destruct (Turtle.run M calls (Turtle.step M c s).2) as [[o l] s'].
      cbn [fst snd] in *. rewrite IH, Hpoints.
      replace (Turtle.balanced (0 <? length (Turtle.points s))%nat (c :: calls))
        with (Turtle.balanced (0 <? length (Turtle.points s))%nat calls)
        by (destruct c; try reflexivity; discriminate).
      destruct (Turtle.points s) as [| p ps]; simpl; tauto.
Qed.

(** X24.  [endFill()] needs a fill to end.  A program of turtle calls on
    a new turtle runs to its end without an exception exactly when every
    [endFill()] has a [beginFill()] before it since the [endFill()]
    before: an [endFill()] with no fill begun hands [polygon] an empty
    array and throws. *)
Theorem endFill_needs_beginFill (M : Turtle.Math) (calls : list Turtle.call)
    (x y heading : Q) :
  (Turtle.run M calls (Turtle.new x y heading)).1.1 = Path.Done <->
  Turtle.balanced false calls = true.
Proof. apply run_balanced. Qed.

(** X24 at a program that ends a fill it has begun, and at one that
    does not begin it. *)
Lemma endFill_needs_beginFill_witness :
  (Turtle.run (Turtle.mkMath (fun _ => 1) (fun _ => 0) 3)
     [Turtle.BeginFill; Turtle.Forward 10 true; Turtle.EndFill]
     (Turtle.new 0 0 0)).1.1 = Path.Done /\
  (Turtle.run (Turtle.mkMath (fun _ => 1) (fun _ => 0) 3)
     [Turtle.Forward 10 true; Turtle.EndFill]
     (Turtle.new 0 0 0)).1.1 <> Path.Done.
Proof.
  split.
  - apply (endFill_needs_beginFill (Turtle.mkMath (fun _ => 1) (fun _ => 0) 3)
             [Turtle.BeginFill; Turtle.Forward 10 true; Turtle.EndFill] 0 0 0).
    reflexivity.
  - intros H.
    apply (endFill_needs_beginFill (Turtle.mkMath (fun _ => 1) (fun _ => 0) 3)
             [Turtle.Forward 10 true; Turtle.EndFill] 0 0 0) in H.
    discriminate H.
Defined.

(** ** The animation loop *)

Lemma at_frame_timestamp (ts : nat -> Q) (n : nat) :
  Loop._timestamp0 (Loop.at_frame ts n) = Some (ts n).
Proof. destruct n; reflexivity. Qed.

Lemma at_frame_delta (ts : nat -> Q) (n : nat) :
  Loop.deltaTime (Loop.at_frame ts n) =
  Some (ts n - ts (pred n)).
Proof.
  destruct n as [| k]; [reflexivity |].
  cbn [Loop.at_frame Loop._updateHandler Loop.deltaTime].
  rewrite at_frame_timestamp. reflexivity.
Qed.

(** X25.  [deltaTime] in the frames of the animation loop.  In every
    frame [deltaTime] is defined when [update] is called: it is 0 in the
    first frame and the time since the frame before in each later one.
    The times that a sprite updated once per frame is handed add up to the
    time since the first frame; none is negative when the time stamps do
    not decrease. *)
Theorem deltaTime_since_last_frame (ts : nat -> Q) (n : nat) :
  Loop.deltaTime (Loop.at_frame ts n) = Some (Loop.delta ts n) /\
  Loop.delta ts 0 == 0 /\
  Loop.delta ts (S n) == ts (S n) - ts n /\
  Sprite.elapsed (Loop.delta ts) (S n) == ts n - ts 0%nat /\
  ((forall k, ts k <= ts (S k)) -> 0 <= Loop.delta ts n).
Proof.
  assert (forall k, Loop.delta ts k = ts k - ts (pred k)) as Hd
    by (intros k; unfold Loop.delta; now rewrite at_frame_delta).
  split; [rewrite at_frame_delta, Hd; reflexivity |].
  split; [rewrite Hd; simpl; ring |].
  split; [rewrite Hd; simpl; ring |].
  split.
  - induction n as [| k IH].
    + simpl. rewrite Hd. simpl. ring.
    + change (Sprite.elapsed (Loop.delta ts) (S (S k)))
        with (Sprite.elapsed (Loop.delta ts) (S k) + Loop.delta ts (S k)).
      rewrite IH, Hd. simpl. ring.
  - intros Hmono. rewrite Hd. destruct n as [| k]; simpl.
    + lra.
    + specialize (Hmono k). lra.
Qed.

(** X25 at frames 16 ms apart: the [deltaTime] of frame 3 is not
    negative. *)
Lemma deltaTime_since_last_frame_witness :
  0 <= Loop.delta (fun k => 16 * Num.of_nat k) 3.
Proof.
  destruct (deltaTime_since_last_frame (fun k => 16 * Num.of_nat k) 3)
    as (_ & _ & _ & _ & Nonneg).
  apply Nonneg. intros k. rewrite of_nat_succ. lra.
Defined.

(** ** How a build ends *)

Lemma buildOnce_ends (c : Server.config) (oracle : nat -> option string)
    (s : Server.state) :
  exists n effs,
    Server.buildOnce c oracle s =
      (Server.Returns tt, Server.mkState n (Server.trace s ++ effs)) /\
    (length (List.filter ServerTrace.is_reload effs) +
     length (List.filter ServerTrace.is_error effs) = 1)%nat /\
    (length (List.filter ServerTrace.is_reload effs) =
     if ServerTrace.succeeds oracle (Server.builds s) then 1 else 0)%nat.
Proof.
  rewrite buildOnce_run. unfold ServerTrace.succeeds.
  destruct (oracle (Server.builds s)); [| destruct (oracle (S (Server.builds s)))];
    eexists _, _; (split; [reflexivity |]); split; reflexivity.
Qed.

Lemma watch_ends (c : Server.config) (oracle : nat -> option string)
    (events : list Server.fs_event) (s : Server.state) :
  exists n effs,
    Server.watch c oracle events s =
      (Server.Returns tt, Server.mkState n (Server.trace s ++ effs)) /\
    (length (List.filter ServerTrace.is_reload effs) +
     length (List.filter ServerTrace.is_error effs) = length events)%nat.
Proof.
  revert s. induction events as [| e events IH]; intros s.
  - exists (Server.builds s), []. simpl. unfold Server.ret.
    rewrite app_nil_r. destruct s; auto.
  - simpl. unfold Server.bind at 1. unfold Server.on_all, Server.bind at 1.
    unfold Server.emit at 1.
    match goal with
    | |- context [Server.buildOnce c oracle ?s1] =>
        destruct (buildOnce_ends c oracle s1) as (n1 & effs1 & -> & H1 & _);
        simpl
    end.
    match goal with
    | |- context [Server.watch c oracle events ?s2] =>
        destruct (IH s2) as (n2 & effs2 & -> & H2); simpl
    end.
    eexists n2, (_ :: effs1 ++ effs2). split.
    + rewrite <- !app_assoc. reflexivity.
    + simpl. rewrite !List.filter_app, !length_app. lia.
Qed.

(** X26.  Every build ends in a reload or in an error report, never in
    both and never in neither.  A call of [buildOnce] reloads the browser
    once when both of its builds are fulfilled and reports one error
    otherwise; over the whole script, the reloads and the error reports
    together number one more than the file events. *)
Theorem build_reloads_or_reports (c : Server.config) (oracle : nat -> option string) :
  (forall s,
     let effs := Server.added (Server.buildOnce c oracle) s in
     (length (List.filter ServerTrace.is_reload effs) =
      if ServerTrace.succeeds oracle (Server.builds s) then 1 else 0)%nat /\
     (length (List.filter ServerTrace.is_error effs) =
      if ServerTrace.succeeds oracle (Server.builds s) then 0 else 1)%nat) /\
  (forall events s,
     let effs := Server.added (Server.main c oracle events) s in
     (length (List.filter ServerTrace.is_reload effs) +
      length (List.filter ServerTrace.is_error effs) = S (length events))%nat).
Proof.
  split.
  - intros s effs. subst effs.
    destruct (buildOnce_ends c oracle s) as (n & effs & E & H1 & H2).
    rewrite (added_app _ _ _ _ _ E).
    destruct (ServerTrace.succeeds oracle (Server.builds s)); lia.
  - intros events s effs. subst effs.
    destruct (buildOnce_ends c oracle s) as (n1 & effs1 & E1 & H1 & _).
    assert (exists n effs,
              Server.main c oracle events s =
                (Server.Returns tt, Server.mkState n (Server.trace s ++ effs)) /\
              (length (List.filter ServerTrace.is_reload effs) +
               length (List.filter ServerTrace.is_error effs) =
               S (length events))%nat)
      as (n & effs & E & H).
    { unfold Server.main, Server.bind at 1. rewrite E1.
      unfold Server.bind at 1, Server.emit at 1. simpl.
      match goal with
      | |- context [Server.watch c oracle events ?s2] =>
          destruct (watch_ends c oracle events s2) as (n2 & effs2 & -> & H2);
          simpl
      end.
      exists n2, (effs1 ++ Server.ConsoleLog "Initial build complete." :: effs2). split.
      - rewrite <- !app_assoc. reflexivity.
      - rewrite !List.filter_app, !length_app. simpl. lia. }
    rewrite (added_app _ _ _ _ _ E). exact H.
Qed.

(** ** Arrays *)

(** X27.  The arrays that [array] and [array2D] build from a callback:
    [array(n, f)] has [n] elements and [f(i)] at the index [i];
    [array2D(rows, columns, f)] has [rows] rows of [columns] elements
    each and [f(i, j)] at the row [i] and column [j]; nothing lies
    outside these ranges. *)
Theorem array2D_lookup {T} (rows columns : nat) (f : nat -> nat -> T)
    (g : nat -> T) (n i j : nat) :
  Util.array n g !! i = (if decide (i < n)%nat then Some (g i) else None) /\
  length (Util.array2D rows columns f) = rows /\
  (forall r, Util.array2D rows columns f !! i = Some r -> length r = columns) /\
  Util.array2D rows columns f !! i ≫= (fun r => r !! j) =
    (if decide (i < rows /\ j < columns)%nat then Some (f i j) else None).
Proof.
  assert (forall {A} (h : nat -> A) m k,
            map h (seq 0 m) !! k = if decide (k < m)%nat then Some (h k) else None)
    as Hmap.
  { intros A h m k. rewrite lookup_map.
    destruct (decide (k < m)%nat) as [Hk | Hk].
    - now rewrite lookup_seq_lt.
    - now rewrite lookup_seq_ge by lia. }
  split; [apply Hmap |].
  split; [unfold Util.array2D; now rewrite length_map, length_seq |].
  split.
  - intros r. unfold Util.array2D. rewrite Hmap.
    destruct (decide (i < rows)%nat); [| discriminate].
    intros [= <-]. now rewrite length_map, length_seq.
  - unfold Util.array2D. rewrite Hmap.
    destruct (decide (i < rows)%nat) as [Hi | Hi]; simpl.
    + rewrite Hmap.
      destruct (decide (j < columns)%nat), (decide (i < rows /\ j < columns)%nat);
        try reflexivity; lia.
    + destruct (decide (i < rows /\ j < columns)%nat); [lia | reflexivity].
Qed.

(** X27 at the multiplication table of 3 rows and 4 columns. *)
Lemma array2D_lookup_witness :
  exists r, Util.array2D 3 4 Nat.mul !! 2%nat = Some r /\ length r = 4%nat.
Proof.
  destruct (array2D_lookup 3 4 Nat.mul (fun i => i) 0 2 0) as (_ & _ & Rows & _).
  eexists. split; [reflexivity |]. apply Rows. reflexivity.
Defined.

(** ** The active cell of a grid *)

(** A read of [activated] changes nothing of the grid but [activatable]
    and the active cell. *)
Lemma activated_geometry (i : Input.t) (g : Grid.t) :
  Grid.cells (Grid.activated i g).2 = Grid.cells g /\
  Grid.x (Grid.activated i g).2 = Grid.x g /\
  Grid.y (Grid.activated i g).2 = Grid.y g /\
  Grid.cellWidth (Grid.activated i g).2 = Grid.cellWidth g /\
  Grid.cellHeight (Grid.activated i g).2 = Grid.cellHeight g.
Proof.
  unfold Grid.activated.
  destruct (Input.down i); [| repeat split].
  destruct (Grid.activatable g); [| repeat split].
  destruct (Grid.cellFromPoint _ _ _); repeat split.
Qed.

Lemma cellFromPoint_geometry (g g' : Grid.t) (px py : Q) :
  Grid.cells g' = Grid.cells g -> Grid.x g' = Grid.x g -> Grid.y g' = Grid.y g ->
  Grid.cellWidth g' = Grid.cellWidth g -> Grid.cellHeight g' = Grid.cellHeight g ->
  Grid.cellFromPoint g' px py = Grid.cellFromPoint g px py.
Proof.
  intros Hc Hx Hy Hw Hh. unfold Grid.cellFromPoint. now rewrite Hc, Hx, Hy, Hw, Hh.
Qed.

(** The active cell after a read of [activated]. *)
Lemma activated_activeCell (i : Input.t) (g : Grid.t) :
  ((Grid.activated i g).1 = true ->
   is_Some (Grid._activeCell (Grid.activated i g).2) /\
   Grid._activeCell (Grid.activated i g).2 =
     Grid.cellFromPoint g (Input.point_x i) (Input.point_y i)) /\
  ((Grid.activated i g).1 = false ->
   Grid._activeCell (Grid.activated i g).2 = Grid._activeCell g).
Proof.
  unfold Grid.activated.
  destruct (Input.down i); [| split; [discriminate | reflexivity]].
  destruct (Grid.activatable g); [| split; [discriminate | reflexivity]].
  change (Grid.cellFromPoint (Grid.set_activatable false g))
    with (Grid.cellFromPoint g).
  destruct (Grid.cellFromPoint g _ _) as [cl |] eqn:E; simpl.
  - split; [intros _; eauto | discriminate].
  - split; [discriminate | reflexivity].
Qed.

Lemma reads_geometry (ins : list Input.t) (g : Grid.t) :
  Grid.cells (reads Grid.activated ins g).2 = Grid.cells g /\
  Grid.x (reads Grid.activated ins g).2 = Grid.x g /\
  Grid.y (reads Grid.activated ins g).2 = Grid.y g /\
  Grid.cellWidth (reads Grid.activated ins g).2 = Grid.cellWidth g /\
  Grid.cellHeight (reads Grid.activated ins g).2 = Grid.cellHeight g.
Proof.
  revert g. induction ins as [| i ins IH]; intros g; [repeat split |].
  simpl. pose proof (activated_geometry i g) as Hg.
  destruct (Grid.activated i g) as [b g1]. specialize (IH g1).
  destruct (reads Grid.activated ins g1) as [bs g2]. simpl in *.
  destruct IH as (-> & -> & -> & -> & ->). exact Hg.
Qed.

Lemma reads_activeCell (P : Cell.t -> Prop) (ins : list Input.t) (g : Grid.t) :
  (forall px py c, Grid.cellFromPoint g px py = Some c -> P c) ->
  (exists c, Grid._activeCell g = Some c /\ P c) ->
  exists c, Grid._activeCell (reads Grid.activated ins g).2 = Some c /\ P c.
Proof.
  revert g. induction ins as [| i ins IH]; intros g Hpoint Hactive; [exact Hactive |].
  simpl. pose proof (activated_geometry i g) as (G1 & G2 & G3 & G4 & G5).
  pose proof (activated_activeCell i g) as [Htrue Hfalse].
  destruct (Grid.activated i g) as [b g1]. specialize (IH g1).
  destruct (reads Grid.activated ins g1) as [bs g2]. simpl in *.
  apply IH.
  - intros px py c Hc. apply (Hpoint px py).
    now rewrite <- (cellFromPoint_geometry g g1).
  - destruct b.
    + destruct (Htrue eq_refl) as [[c Hc] E]. exists c. split; [exact Hc |].
      apply (Hpoint (Input.point_x i) (Input.point_y i)). congruence.
    + now rewrite (Hfalse eq_refl).
Qed.

(** X28.  The active cell of a grid is always one of its cells.  For a
    grid with at least one column, as the constructor builds it, and after
    any sequence of reads of [activated]: [activeCell] is the cell of the
    grid at its own row and column; a further read that gives [true]
    makes [activeCell] the cell that [cellFromPoint] finds under the
    pointer, and one that gives [false] leaves it as it was. *)
Theorem activeCell_is_a_cell
    (rows columns : nat) (x y width height : Q) (color : string) (g : Grid.t)
    (ins : list Input.t) (i : Input.t) :
  Grid.new rows columns x y width height color = Some g ->
  (0 < columns)%nat ->
  let g0 := (reads Grid.activated ins g).2 in
  (exists c, Grid._activeCell g0 = Some c /\
             Grid.cell g (Cell.row c) (Cell.column c) = Some c) /\
  Grid.cells g0 = Grid.cells g /\
  ((Grid.activated i g0).1 = true ->
   is_Some (Grid._activeCell (Grid.activated i g0).2) /\
   Grid._activeCell (Grid.activated i g0).2 =
     Grid.cellFromPoint g (Input.point_x i) (Input.point_y i)) /\
  ((Grid.activated i g0).1 = false ->
   Grid._activeCell (Grid.activated i g0).2 = Grid._activeCell g0).
Proof.
  intros Hnew Hcolumns g0.
  pose proof (new_fields _ _ _ _ _ _ _ _ Hnew) as (Hcells & _ & _ & _ & _ & _ & _ & _ & _ & Hrows).
  assert (forall i j c, Grid.cell g i j = Some c ->
            Cell.row c = i /\ Cell.column c = j) as Hcell.
  { intros i' j' c Hc. apply cell_lookup in Hc as (r & Hr & Hc).
    rewrite Hcells in Hr.
    destruct (make_cells_cell _ _ _ _ _ _ _ _ _ _ _ Hr Hc) as (_ & _ & ->). auto. }
  pose proof (reads_geometry ins g) as (G1 & G2 & G3 & G4 & G5). fold g0 in G1, G2, G3, G4, G5.
  pose proof (activated_activeCell i g0) as [Htrue Hfalse].
  split; [| split; [exact G1 | split; [| exact Hfalse]]].
  - apply (reads_activeCell
             (fun c => Grid.cell g (Cell.row c) (Cell.column c) = Some c)).
    + intros px py c Hc.
      apply cellFromPoint_lookup in Hc as (i' & j' & _ & _ & Hc).
      now destruct (Hcell i' j' c Hc) as [-> ->].
    + destruct (proj2 (cell_in_range _ _ _ _ _ _ _ _ 0%nat 0%nat Hnew)) as [c Hc];
        [lia |].
      exists c. split.
      * unfold Grid.new in Hnew. unfold Grid.cell in Hc. rewrite Hcells in Hc.
        destruct (Grid.make_cells _ _ _ _ _ _ _ !! 0%nat) as [r0 |]; [| discriminate].
        injection Hnew as <-. exact Hc.
      * now destruct (Hcell 0%nat 0%nat c Hc) as [-> ->].
  - intros Hb. destruct (Htrue Hb) as [Hsome E]. split; [exact Hsome |].
    rewrite E. now apply cellFromPoint_geometry.
Qed.

(** X28 at the grid of 2 rows and 3 columns on a 31 by 21 canvas, read
    once with nothing down. *)
Lemma activeCell_is_a_cell_witness :
  exists g c,
    Grid.new 2 3 0 0 31 21 "black" = Some g /\
    Grid._activeCell (reads Grid.activated [Pointer.initial] g).2 = Some c /\
    Grid.cell g (Cell.row c) (Cell.column c) = Some c.
Proof.
  destruct (Grid.new 2 3 0 0 31 21 "black") as [g |] eqn:E; [| discriminate].
  destruct (activeCell_is_a_cell 2 3 0 0 31 21 "black" g [Pointer.initial]
              Pointer.initial E) as ((c & Hc & Hcell) & _); [lia |].
  exists g, c. auto.
Defined.
